(** * Multi-agent framework core: a shallow embedding of [agent_framework.py]

    The development follows the Python module top-down:
    - [Value], [PyErr], [Clock]: the data the program handles (JSON-like
      payloads, raised errors, the readings of [time.time()]);
    - [AgentMemory] with [store], [retrieve], [search_history];
    - [Agent], its metrics, [log], [get_metrics];
    - [Coro]: coroutines ([async def] bodies) as trees of reads, writes and
      suspension points, with [run] (await in isolation) and [resume]
      (one scheduling step);
    - [process]: the execution envelope with its try/except/finally;
    - [AgentStrand] and its three execution modes;
    - [MultiAgentSystem.execute_strand].

    What the model takes for granted:
    - clock readings are rationals, and so are the durations the envelope
      adds up from them; where the program divides, multiplies or compares
      with a float literal, the floats are IEEE 754 doubles;
    - [time.time()] may return anything, call after call;
    - agents and memories are objects in a heap, named by references, so
      that one agent object may sit in a strand twice and agents may share
      a memory;
    - the overridable [_execute_logic] is any coroutine that ends; it works
      on the agent's memory, its log and the clock, and leaves status and
      metrics to [process];
    - a sequential or a graph run has the event loop to itself; in a
      parallel run every task takes its first step in list order, and the
      order in which the tasks are resumed after that is arbitrary;
    - the interpreter's own limits (recursion depth, memory) are not
      modelled. *)

From Stdlib Require Import QArith Qround ZArith SpecFloat.
From stdpp Require Import gmap strings list fin_maps functions pretty sorting.

Close Scope Q_scope.
Open Scope string_scope.
Open Scope list_scope.
Set Warnings "-register-all,-clear-no-such-hyp".

(** ** Values *)

(** [Dict[str, Any]] payloads and the [Any] values kept in memory: JSON-like
    documents.  A dict keeps its keys in insertion order.  Payloads are
    values, not shared objects: every logic in the repository builds a new
    dict from its input ([{**input_data, ...}]) and none updates its input
    in place. *)
Inductive Value : Type :=
| VNone
| VBool (b : bool)
| VInt (n : Z)
| VFloat (q : Q)
| VStr (s : string)
| VList (items : list Value)
| VDict (entries : list (string * Value)).

(** A raised Python error.  [is_Exception] tells whether the error is an
    instance of [Exception]; errors that derive from [BaseException] only
    ([asyncio.CancelledError], [KeyboardInterrupt], [SystemExit]) are not.
    [str_e] is [str(e)]. *)
Record PyErr : Type := mkPyErr {
  err_class : string;
  is_Exception : bool;
  str_e : string
}.

(** What a call produced: a returned value or a raised error. *)
Inductive Outcome (A : Type) : Type :=
| Returned (a : A)
| Raised (e : PyErr).
Arguments Returned {A} a.
Arguments Raised {A} e.

(** ** The clock *)

(** [time.time()] is an oracle: the [n]-th call returns [readings n].
    Nothing is assumed about the readings. *)
Record Clock : Type := mkClock {
  readings : nat → Q;
  cursor : nat
}.

Definition time_time (c : Clock) : Q * Clock :=
  (readings c (cursor c), mkClock (readings c) (S (cursor c))).

(** The clock never steps back. *)
Definition clock_monotone (c : Clock) : Prop :=
  ∀ i j, (i ≤ j)%nat → (readings c i <= readings c j)%Q.

(** ** AgentMemory *)

(** One item of the long-term journal: [{"key", "value", "timestamp"}]. *)
Record HistoryItem : Type := mkHistoryItem {
  h_key : string;
  h_value : Value;
  h_timestamp : Q
}.

Record AgentMemory : Type := mkAgentMemory {
  short_term : gmap string Value;
  long_term : list HistoryItem;
  context : gmap string Value
}.

Definition empty_memory : AgentMemory := mkAgentMemory ∅ [] ∅.

(** [store]: the short-term write always happens; the journal entry and
    the call of [time.time()] only when [persistent]. *)
Definition store (key : string) (value : Value) (persistent : bool)
    (self : AgentMemory) (c : Clock) : AgentMemory * Clock :=
  let short_term' := <[key := value]> (short_term self) in
  if persistent then
    let '(now, c') := time_time c in
    (mkAgentMemory short_term'
       (long_term self ++ [mkHistoryItem key value now])
       (context self), c')
  else
    (mkAgentMemory short_term' (long_term self) (context self), c).

(** [dict.get(key)] answers [None] for a missing key. *)
Definition retrieve (key : string) (self : AgentMemory) : Value :=
  default VNone (short_term self !! key).

Definition search_history (key : string) (self : AgentMemory) : list HistoryItem :=
  filter (λ item, h_key item = key) (long_term self).

(** Every journal entry was stamped by a reading the clock has already
    given out: the shape of a journal written by [store] alone. *)
Definition stamped_by (c : Clock) (m : AgentMemory) : Prop :=
  ∀ item, item ∈ long_term m →
    ∃ n, (n < cursor c)%nat ∧ h_timestamp item = readings c n.

(** ** Agents *)

Inductive AgentStatus : Type := IDLE | PROCESSING | COMPLETED | ERROR.

(** One entry of [execution_log]. *)
Record LogEntry : Type := mkLogEntry {
  log_timestamp : Q;
  log_agent : string;
  log_level : string;
  log_message : string
}.

(** The [metrics] dict of an agent. *)
Record Metrics : Type := mkMetrics {
  total_executions : Z;
  successful_executions : Z;
  failed_executions : Z;
  total_time : Q
}.

Definition initial_metrics : Metrics := mkMetrics 0 0 0 0.

(** Agents and memories are Python objects: they live in a heap and are
    named by references. *)
Definition AgentRef := nat.
Definition MemRef := nat.

(** The fields of an [Agent] object ([tools] and [inbox] play no part in
    execution and are left out).  [class_name] is the class of the object:
    it selects the [_execute_logic] override.  [memory] is a reference: the
    agents of a strand all point to the strand's shared memory. *)
Record Agent : Type := mkAgent {
  class_name : string;
  agent_id : string;
  agent_name : string;
  role : string;
  memory : MemRef;
  status : AgentStatus;
  execution_log : list LogEntry;
  metrics : Metrics
}.

(** [Agent.__init__] *)
Definition new_agent (cls id name role : string) (mem : MemRef) : Agent :=
  mkAgent cls id name role mem IDLE [] initial_metrics.

Definition set_status (s : AgentStatus) (self : Agent) : Agent :=
  mkAgent (class_name self) (agent_id self) (agent_name self) (role self) (memory self)
    s (execution_log self) (metrics self).

Definition set_execution_log (l : list LogEntry) (self : Agent) : Agent :=
  mkAgent (class_name self) (agent_id self) (agent_name self) (role self) (memory self)
    (status self) l (metrics self).

Definition set_metrics (m : Metrics) (self : Agent) : Agent :=
  mkAgent (class_name self) (agent_id self) (agent_name self) (role self) (memory self)
    (status self) (execution_log self) m.

(** [self.metrics["successful_executions"] += 1] and its siblings *)
Definition incr_successful (m : Metrics) : Metrics :=
  mkMetrics (total_executions m) (successful_executions m + 1)
    (failed_executions m) (total_time m).

Definition incr_failed (m : Metrics) : Metrics :=
  mkMetrics (total_executions m) (successful_executions m)
    (failed_executions m + 1) (total_time m).

Definition incr_total (m : Metrics) : Metrics :=
  mkMetrics (total_executions m + 1) (successful_executions m)
    (failed_executions m) (total_time m).

Definition add_total_time (dt : Q) (m : Metrics) : Metrics :=
  mkMetrics (total_executions m) (successful_executions m)
    (failed_executions m) (total_time m + dt)%Q.

(** [Agent.log]: one reading of the clock, one entry appended. *)
Definition log (message level : string) (self : Agent) (c : Clock) : Agent * Clock :=
  let '(now, c') := time_time c in
  (set_execution_log
     (execution_log self ++ [mkLogEntry now (agent_name self) level message])
     self, c').

(** ** get_metrics *)

Global Instance outcome_ret : MRet Outcome := λ A a, Returned a.
Global Instance outcome_bind : MBind Outcome := λ A B f o,
  match o with
  | Returned a => f a
  | Raised e => Raised e
  end.

Definition ZeroDivisionError : PyErr :=
  mkPyErr "ZeroDivisionError" true "division by zero".

Definition OverflowError (msg : string) : PyErr := mkPyErr "OverflowError" true msg.

(** *** Floats

    A Python float is an IEEE 754 binary64 number: a signed zero, a signed
    infinity, a NaN, or [(-1)^s * m * 2^e]; the operations are those of
    [SpecFloat] at precision 53 and exponent bound 1024, which round to the
    nearest number, ties to even. *)
Definition float : Type := spec_float.
Definition prec : Z := 53.
Definition emax : Z := 1024.

(** An int as the exact operand of a rounded operation. *)
Definition SF_of_Z (n : Z) : float :=
  match n with
  | Z0 => S754_zero false
  | Zpos p => S754_finite false p 0
  | Zneg p => S754_finite true p 0
  end.

(** The float nearest to a rational: the rational itself where it is the
    value of a float.  The model keeps [total_time] as the rational value
    of the Python float. *)
Definition float_of_Q (q : Q) : float :=
  SFdiv prec emax (SF_of_Z (Qnum q)) (SF_of_Z (Zpos (Qden q))).

(** The rational a float stands for; the floats a payload holds are kept
    as these rationals. *)
Definition Q_of_float (f : float) : Q :=
  match f with
  | S754_finite s m e =>
      let v := if s then Zneg m else Zpos m in
      Qred (if (0 <=? e)%Z then inject_Z (v * 2 ^ e) else Qmake v (2 ^ Z.to_pos (- e)))
  | _ => 0%Q
  end.

(** A float literal of the program text: the float nearest to the decimal
    written there. *)
Definition literal (q : Q) : Q := Q_of_float (float_of_Q q).

(** [x + y] on two floats. *)
Definition float_add (x y : Q) : Q :=
  Q_of_float (SFadd prec emax (float_of_Q x) (float_of_Q y)).

(** An int that meets a float in an operation is converted, [float(n)]. *)
Definition float_of_int (n : Z) : Outcome float :=
  match binary_normalize prec emax n 0 false with
  | S754_infinity _ => Raised (OverflowError "int too large to convert to float")
  | f => Returned f
  end.

(** [a / b] on two ints: the quotient, rounded once. *)
Definition int_truediv (a b : Z) : Outcome float :=
  if (b =? 0)%Z then Raised ZeroDivisionError
  else match SFdiv prec emax (SF_of_Z a) (SF_of_Z b) with
       | S754_infinity _ =>
           Raised (OverflowError "integer division result too large for a float")
       | q => Returned q
       end.

(** [x / n] on a float and an int.  The divisor is zero exactly when the
    int is. *)
Definition float_truediv_int (x : float) (n : Z) : Outcome float :=
  d ← float_of_int n;
  if (n =? 0)%Z then Raised (mkPyErr "ZeroDivisionError" true "float division by zero")
  else Returned (SFdiv prec emax x d).

(** [x * n] on a float and an int; a product out of range is an infinity,
    not an error. *)
Definition float_mul_int (x : float) (n : Z) : Outcome float :=
  d ← float_of_int n;
  Returned (SFmul prec emax x d).

(** The number under ["success_rate"] and ["average_execution_time"]: the
    int 0 or a float. *)
Inductive Number : Type :=
| NInt (n : Z)
| NFloat (f : float).

(** The dict [get_metrics] returns. *)
Record MetricsReport : Type := mkMetricsReport {
  report_agent_id : string;
  report_agent_name : string;
  report_total_executions : Z;
  report_successful_executions : Z;
  report_failed_executions : Z;
  success_rate : Number;
  average_execution_time : Number
}.

(** The two conditional expressions evaluate their division only in the
    branch where [total_executions > 0]; [avg_time] is computed first. *)
Definition get_metrics (self : Agent) : Outcome MetricsReport :=
  let m := metrics self in
  avg_time ←
    (if (0 <? total_executions m)%Z
     then q ← float_truediv_int (float_of_Q (total_time m)) (total_executions m);
          Returned (NFloat q)
     else Returned (NInt 0));
  rate ←
    (if (0 <? total_executions m)%Z
     then q ← int_truediv (successful_executions m) (total_executions m);
          p ← float_mul_int q 100;
          Returned (NFloat p)
     else Returned (NInt 0));
  Returned (mkMetricsReport (agent_id self) (agent_name self)
              (total_executions m) (successful_executions m)
              (failed_executions m) rate avg_time).

(** ** Coroutines *)

(** The body of an [async def] over a state [S]: it reads the state,
    writes it, reaches a suspension point ([Yield], an [await] that gives
    control back to the event loop, such as [asyncio.sleep]), returns or
    raises.  The type is inductive, so a coroutine finishes after finitely
    many resumptions: a coroutine that never returns is outside the model. *)
Inductive Coro (S A : Type) : Type :=
| Return (a : A)
| Raise (e : PyErr)
| Get (k : S → Coro S A)
| Put (s : S) (k : Coro S A)
| Yield (k : Coro S A).
Arguments Return {S A} a.
Arguments Raise {S A} e.
Arguments Get {S A} k.
Arguments Put {S A} s k.
Arguments Yield {S A} k.

Fixpoint coro_bind_def {S A B} (f : A → Coro S B) (c : Coro S A) : Coro S B :=
  match c with
  | Return a => f a
  | Raise e => Raise e
  | Get k => Get (λ s, coro_bind_def f (k s))
  | Put s k => Put s (coro_bind_def f k)
  | Yield k => Yield (coro_bind_def f k)
  end.

Global Instance coro_ret {S} : MRet (Coro S) := λ A a, Return a.
Global Instance coro_bind {S} : MBind (Coro S) := λ A B f c, coro_bind_def f c.

(** A synchronous call that transforms the state. *)
Definition modify {S} (f : S → S) : Coro S unit :=
  Get (λ s, Put (f s) (Return tt)).

(** A synchronous call that transforms the state and answers. *)
Definition call {S A} (f : S → A * S) : Coro S A :=
  Get (λ s, let '(a, s') := f s in Put s' (Return a)).

(** [try: c except Exception as e: h e].  Errors that are not instances of
    [Exception] pass through the handler untouched. *)
Fixpoint try_except {S A} (c : Coro S A) (h : PyErr → Coro S A) : Coro S A :=
  match c with
  | Return a => Return a
  | Raise e => if is_Exception e then h e else Raise e
  | Get k => Get (λ s, try_except (k s) h)
  | Put s k => Put s (try_except k h)
  | Yield k => Yield (try_except k h)
  end.

(** [try: c finally: f].  [f] runs on both exits, then the return value or
    the error of [c] continues. *)
Fixpoint try_finally {S A} (c : Coro S A) (f : Coro S unit) : Coro S A :=
  match c with
  | Return a => f;; Return a
  | Raise e => f;; Raise e
  | Get k => Get (λ s, try_finally (k s) f)
  | Put s k => Put s (try_finally k f)
  | Yield k => Yield (try_finally k f)
  end.

(** Awaiting a coroutine while nothing else is scheduled: it is driven
    through its suspension points to its end. *)
Fixpoint run {S A} (c : Coro S A) (s : S) : S * Outcome A :=
  match c with
  | Return a => (s, Returned a)
  | Raise e => (s, Raised e)
  | Get k => run (k s) s
  | Put s' k => run k s'
  | Yield k => run k s
  end.

(** One step of the event loop on a task: the coroutine runs up to its
    next suspension point or to its end. *)
Inductive Paused (S A : Type) : Type :=
| Finished (o : Outcome A)
| Suspended (k : Coro S A).
Arguments Finished {S A} o.
Arguments Suspended {S A} k.

Fixpoint resume {S A} (c : Coro S A) (s : S) : S * Paused S A :=
  match c with
  | Return a => (s, Finished (Returned a))
  | Raise e => (s, Finished (Raised e))
  | Get k => resume (k s) s
  | Put s' k => resume k s'
  | Yield k => (s, Suspended k)
  end.

(** A coroutine written against a part [V] of the state runs against the
    whole state [S] through a view and an update. *)
Fixpoint zoom {S V A} (view : S → V) (update : V → S → S) (c : Coro V A) : Coro S A :=
  match c with
  | Return a => Return a
  | Raise e => Raise e
  | Get k => Get (λ s, zoom view update (k (view s)))
  | Put v k => Get (λ s, Put (update v s) (zoom view update k))
  | Yield k => Yield (zoom view update k)
  end.

(** ** The heap *)

Record World : Type := mkWorld {
  w_clock : Clock;
  agent_at : AgentRef → Agent;
  memory_at : MemRef → AgentMemory
}.

Definition set_clock (c : Clock) (w : World) : World :=
  mkWorld c (agent_at w) (memory_at w).

Definition set_agent (r : AgentRef) (a : Agent) (w : World) : World :=
  mkWorld (w_clock w) (<[r := a]> (agent_at w)) (memory_at w).

Definition set_memory (r : MemRef) (m : AgentMemory) (w : World) : World :=
  mkWorld (w_clock w) (agent_at w) (<[r := m]> (memory_at w)).

(** ** Agent-specific logic *)

(** What [_execute_logic] works on: the agent's memory, its own log (through
    [self.log]) and the clock.  Status and metrics belong to the envelope. *)
Record LogicView : Type := mkLogicView {
  lv_memory : AgentMemory;
  lv_log : list LogEntry;
  lv_clock : Clock
}.

(** The overridable method [_execute_logic(self, input_data)], and the
    rendering of [f"{x:.2f}"].  The logic is opaque: any coroutine over
    [LogicView]. *)
Class Host : Type := mkHost {
  _execute_logic : Agent → Value → Coro LogicView Value;
  format_2f : Q → string
}.

Definition logic_view (self : AgentRef) (w : World) : LogicView :=
  let a := agent_at w self in
  mkLogicView (memory_at w (memory a)) (execution_log a) (w_clock w).

Definition logic_update (self : AgentRef) (v : LogicView) (w : World) : World :=
  let a := agent_at w self in
  set_clock (lv_clock v)
    (set_memory (memory a) (lv_memory v)
       (set_agent self (set_execution_log (lv_log v) a) w)).

(** [self._execute_logic(input_data)] on the agent object [self] *)
Definition execute_logic `{Host} (self : AgentRef) (input_data : Value) : Coro World Value :=
  Get (λ w, zoom (logic_view self) (logic_update self)
              (_execute_logic (agent_at w self) input_data)).

(** ** Agent.process *)

Definition update_agent (self : AgentRef) (f : Agent → Agent) : Coro World unit :=
  modify (λ w, set_agent self (f (agent_at w self)) w).

Definition update_metrics (self : AgentRef) (f : Metrics → Metrics) : Coro World unit :=
  update_agent self (λ a, set_metrics (f (metrics a)) a).

Definition now : Coro World Q :=
  call (λ w, let '(t, c) := time_time (w_clock w) in (t, set_clock c w)).

Definition self_log (self : AgentRef) (message level : string) : Coro World unit :=
  modify (λ w, let '(a, c) := log message level (agent_at w self) (w_clock w) in
               set_clock c (set_agent self a w)).

(** The [try] block of [process]: the logic, then the bookkeeping of a
    successful execution. *)
Definition process_success `{Host} (self : AgentRef) (start_time : Q) (result : Value)
    : Coro World Value :=
  update_agent self (set_status COMPLETED);;
  update_metrics self incr_successful;;
  t ← now;
  let execution_time := (t - start_time)%Q in
  update_metrics self (add_total_time execution_time);;
  self_log self ("Completed processing in " +:+ format_2f execution_time +:+ "s") "info";;
  Return result.

Definition process_body `{Host} (self : AgentRef) (input_data : Value) (start_time : Q)
    : Coro World Value :=
  result ← execute_logic self input_data;
  process_success self start_time result.

(** The [except Exception as e] block. *)
Definition process_handler (self : AgentRef) (e : PyErr) : Coro World Value :=
  update_agent self (set_status ERROR);;
  update_metrics self incr_failed;;
  self_log self ("Error: " +:+ str_e e) "error";;
  Raise e.

(** The [finally] block. *)
Definition process_finally (self : AgentRef) : Coro World unit :=
  update_metrics self incr_total;;
  update_agent self (set_status IDLE).

(** The two statements before the [try]. *)
Definition process_entry (self : AgentRef) : Coro World Q :=
  update_agent self (set_status PROCESSING);;
  now.

(** The heap a coroutine leaves when awaited from [w]. *)
Definition after {A} (c : Coro World A) (w : World) : World := fst (run c w).

(** [Agent.process]: status and start time, then the [try] block under its
    [except Exception] handler and its [finally] block. *)
Definition process `{Host} (self : AgentRef) (input_data : Value) : Coro World Value :=
  start_time ← process_entry self;
  try_finally
    (try_except (process_body self input_data start_time) (process_handler self))
    (process_finally self).

(** ** Strand runs *)

(** A run of a strand method from a heap: the heap it leaves and what the
    call produced.  [None] is an artefact of the model, not of the program:
    the bound on the recursion depth or the schedule handed to the run was
    used up before the run ended. *)
Definition M (A : Type) : Type := World → option (World * Outcome A).

Global Instance M_ret : MRet M := λ A a w, Some (w, Returned a).
Global Instance M_bind : MBind M := λ A B f m w,
  match m w with
  | Some (w', Returned a) => f a w'
  | Some (w', Raised e) => Some (w', Raised e)
  | None => None
  end.

(** [await c] with no other task in the event loop. *)
Definition await {A} (c : Coro World A) : M A := λ w, Some (run c w).

Definition get_world : M World := λ w, Some (w, Returned w).

Definition out_of_fuel {A} : M A := λ _, None.

(** The dicts the execution methods return:
    [{"strand", "results", "final_output"}], [{"strand", "results"}] and
    [{"error"}]. *)
Inductive StrandResult : Type :=
| SequentialDict (strand : string) (results : list Value) (final_output : Value)
| ResultsDict (strand : string) (results : list Value)
| ErrorDict (error : string).

(** [d.get("strand")] and the like: which keys a returned dict has. *)
Definition get_strand (d : StrandResult) : option string :=
  match d with
  | SequentialDict s _ _ | ResultsDict s _ => Some s
  | ErrorDict _ => None
  end.

Definition get_results (d : StrandResult) : option (list Value) :=
  match d with
  | SequentialDict _ r _ | ResultsDict _ r => Some r
  | ErrorDict _ => None
  end.

Definition get_final_output (d : StrandResult) : option Value :=
  match d with
  | SequentialDict _ _ f => Some f
  | _ => None
  end.

Definition get_error (d : StrandResult) : option string :=
  match d with
  | ErrorDict e => Some e
  | _ => None
  end.

Record AgentStrand : Type := mkAgentStrand {
  strand_name : string;
  agents : list AgentRef;
  shared_memory : MemRef;
  communication_graph : gmap string (list string)
}.

(** [add_communication] *)
Definition add_communication (from_agent to_agent : string) (self : AgentStrand)
    : AgentStrand :=
  let g := communication_graph self in
  let g' := match g !! from_agent with
            | None => <[from_agent := []]> g
            | Some _ => g
            end in
  mkAgentStrand (strand_name self) (agents self) (shared_memory self)
    (<[from_agent := default [] (g' !! from_agent) ++ [to_agent]]> g').

(** *** Sequential mode *)

(** The [for] loop of [execute_sequential], with its two local variables. *)
Fixpoint sequential_loop `{Host} (remaining : list AgentRef)
    (current_data : Value) (results : list Value) : M (Value * list Value) :=
  match remaining with
  | [] => mret (current_data, results)
  | agent :: rest =>
      result ← await (process agent current_data);
      sequential_loop rest result (results ++ [result])
  end.

Definition execute_sequential `{Host} (self : AgentStrand) (initial_input : Value)
    : M StrandResult :=
  '(current_data, results) ← sequential_loop (agents self) initial_input [];
  mret (SequentialDict (strand_name self) results current_data).

(** *** Parallel mode *)

(** A task of the event loop: a coroutine still to be resumed, its result,
    or the error it raised. *)
Inductive Task (A : Type) : Type :=
| Pending (c : Coro World A)
| Done (a : A)
| Failed (e : PyErr).
Arguments Pending {A} c.
Arguments Done {A} a.
Arguments Failed {A} e.

(** What a step leaves of a task. *)
Definition settle {A} (p : Paused World A) : Task A :=
  match p with
  | Suspended k => Pending k
  | Finished (Returned a) => Done a
  | Finished (Raised e) => Failed e
  end.

(** The error a step ended with. *)
Definition raised {A} (p : Paused World A) : option PyErr :=
  match p with
  | Finished (Raised e) => Some e
  | _ => None
  end.

(** The results in task order, once every task is done. *)
Fixpoint collect {A} (tasks : list (Task A)) : option (list A) :=
  match tasks with
  | [] => Some []
  | Done a :: rest => cons a <$> collect rest
  | _ :: _ => None
  end.

(** The future [asyncio.gather( *coros )] hands out: the tasks it has
    wrapped the coroutines in, and the exception set on it, if any. *)
Record Gathering (A : Type) : Type := mkGathering {
  children : list (Task A);
  exception : option PyErr
}.
Arguments mkGathering {A} children exception.
Arguments children {A} g.
Arguments exception {A} g.

(** One step of the event loop: the task [i] runs up to its next suspension
    point or to its end.  The first child to raise sets the exception of
    the future; an error raised later changes nothing, and no child is
    cancelled.  A step on a task that has ended does nothing. *)
Definition step {A} (i : nat) (s : Gathering A * World) : Gathering A * World :=
  match children s.1 !! i with
  | Some (Pending c) =>
      let '(w', p) := resume c s.2 in
      (mkGathering (<[i := settle p]> (children s.1))
         (match exception s.1 with
          | Some e => Some e
          | None => raised p
          end), w')
  | _ => s
  end.

(** [asyncio.gather] makes a task of every coroutine, and every task takes
    its first step, in list order, as soon as the caller awaits: a task
    that raises in its first step does not keep the later ones from
    starting. *)
Definition start {A} (coros : list (Coro World A)) (w : World) : Gathering A * World :=
  foldl (λ s i, step i s) (mkGathering (Pending <$> coros) None, w) (seq 0 (length coros)).

(** The wait for the future.  After their first steps the event loop
    resumes one pending task at a time; which one is not fixed by the
    program, so the order is a parameter: the [schedule] lists the indices
    of the tasks to resume.  When every task is done the results come back
    in task order.  When a task has raised, the awaiting coroutine is
    resumed with the first error, but the other tasks are neither cancelled
    nor waited for: they run on as the schedule has it, and the heap the
    error is seen in is the heap at the end of the schedule. *)
Fixpoint wait {A} (schedule : list nat) (g : Gathering A) : M (list A) :=
  λ w,
  match collect (children g) with
  | Some results => Some (w, Returned results)
  | None =>
      match schedule with
      | [] =>
          match exception g with
          | Some e => Some (w, Raised e)
          | None => None
          end
      | i :: schedule' => let '(g', w') := step i (g, w) in wait schedule' g' w'
      end
  end.

(** [await asyncio.gather( *coros )] *)
Definition gather {A} (schedule : list nat) (coros : list (Coro World A)) : M (list A) :=
  λ w, let '(g, w') := start coros w in wait schedule g w'.

Definition execute_parallel `{Host} (schedule : list nat) (self : AgentStrand)
    (initial_input : Value) : M StrandResult :=
  let tasks := (λ agent, process agent initial_input) <$> agents self in
  results ← gather schedule tasks;
  mret (ResultsDict (strand_name self) results).

(** *** Graph mode *)

(** [next((a for a in self.agents if a.id == next_agent_id), None)] *)
Definition next_with_id (w : World) (agents : list AgentRef) (next_agent_id : string)
    : option AgentRef :=
  find (λ a, bool_decide (agent_id (agent_at w a) = next_agent_id)) agents.

(** The two variables [process_next] closes over. *)
Record Walk : Type := mkWalk {
  processed : gset string;
  walk_results : list Value
}.

(** The [for] loop of [process_next]; [recur] is the recursive call. *)
Definition for_successors `{Host} (recur : string → Value → Walk → M Walk)
    (self : AgentStrand) (data : Value) : list string → Walk → M Walk :=
  fix for_loop (successors : list string) (st : Walk) : M Walk :=
    match successors with
    | [] => mret st
    | next_agent_id :: rest =>
        if decide (next_agent_id ∈ processed st) then for_loop rest st
        else
          w ← get_world;
          match next_with_id w (agents self) next_agent_id with
          | Some next_agent =>
              result ← await (process next_agent data);
              let st1 := mkWalk ({[next_agent_id]} ∪ processed st)
                           (walk_results st ++ [result]) in
              st2 ← recur next_agent_id result st1;
              for_loop rest st2
          | None => for_loop rest st
          end
    end.

(** The nested function [process_next].  Python recursion has no bound; the
    model counts the depth down from [fuel] and answers [None] at zero. *)
Fixpoint process_next `{Host} (fuel : nat) (self : AgentStrand)
    (agent_id : string) (data : Value) (st : Walk) : M Walk :=
  match fuel with
  | O => out_of_fuel
  | S fuel' =>
      match communication_graph self !! agent_id with
      | None => mret st
      | Some successors =>
          for_successors (process_next fuel' self) self data successors st
      end
  end.

Definition execute_graph_fuel `{Host} (fuel : nat) (self : AgentStrand)
    (initial_input : Value) : M StrandResult :=
  match agents self with
  | [] => mret (ErrorDict "No agents in strand")
  | first_agent :: _ =>
      result ← await (process first_agent initial_input);
      w ← get_world;
      let first_id := agent_id (agent_at w first_agent) in
      st ← process_next fuel self first_id result (mkWalk {[first_id]} [result]);
      mret (ResultsDict (strand_name self) (walk_results st))
  end.

(** The depth of the recursion never exceeds the number of agents (see
    [process_next_fuel_enough]), so this bound is never reached. *)
Definition execute_graph `{Host} (self : AgentStrand) (initial_input : Value)
    : M StrandResult :=
  execute_graph_fuel (length (agents self)) self initial_input.

(** *** Graph mode with the visits written down

    The same traversal as [process_next], which in addition notes, for each
    awaited [process], the id looked up and the agent object found.  The
    note is not part of the program; [execute_graph_traced_erase] shows that
    dropping it gives [execute_graph_fuel] back. *)
Record TracedWalk : Type := mkTracedWalk {
  walk : Walk;
  order : list (string * AgentRef)
}.

Definition for_successors_traced `{Host}
    (recur : string → Value → TracedWalk → M TracedWalk)
    (self : AgentStrand) (data : Value) : list string → TracedWalk → M TracedWalk :=
  fix for_loop (successors : list string) (st : TracedWalk) : M TracedWalk :=
    match successors with
    | [] => mret st
    | next_agent_id :: rest =>
        if decide (next_agent_id ∈ processed (walk st)) then for_loop rest st
        else
          w ← get_world;
          match next_with_id w (agents self) next_agent_id with
          | Some next_agent =>
              result ← await (process next_agent data);
              let st1 := mkTracedWalk
                           (mkWalk ({[next_agent_id]} ∪ processed (walk st))
                              (walk_results (walk st) ++ [result]))
                           (order st ++ [(next_agent_id, next_agent)]) in
              st2 ← recur next_agent_id result st1;
              for_loop rest st2
          | None => for_loop rest st
          end
    end.

Fixpoint process_next_traced `{Host} (fuel : nat) (self : AgentStrand)
    (agent_id : string) (data : Value) (st : TracedWalk) : M TracedWalk :=
  match fuel with
  | O => out_of_fuel
  | S fuel' =>
      match communication_graph self !! agent_id with
      | None => mret st
      | Some successors =>
          for_successors_traced (process_next_traced fuel' self) self data successors st
      end
  end.

Definition execute_graph_traced `{Host} (fuel : nat) (self : AgentStrand)
    (initial_input : Value) : M (StrandResult * list (string * AgentRef)) :=
  match agents self with
  | [] => mret (ErrorDict "No agents in strand", [])
  | first_agent :: _ =>
      result ← await (process first_agent initial_input);
      w ← get_world;
      let first_id := agent_id (agent_at w first_agent) in
      st ← process_next_traced fuel self first_id result
             (mkTracedWalk (mkWalk {[first_id]} [result]) [(first_id, first_agent)]);
      mret (ResultsDict (strand_name self) (walk_results (walk st)), order st)
  end.

(** The ids of the agents of a strand, in list order. *)
Definition strand_ids (w : World) (self : AgentStrand) : list string :=
  (λ a, agent_id (agent_at w a)) <$> agents self.

(** The visiting order as the specification words it: depth-first from
    the entry, successors in the order the graph lists them, an id already
    visited skipped.  Successors that name no agent of the strand cannot be
    invoked and are passed over.  [visited] is the order so far. *)
Fixpoint depth_first (fuel : nat) (graph : gmap string (list string))
    (known : list string) (current : string) (visited : list string) : list string :=
  match fuel with
  | O => visited
  | S fuel' =>
      foldl (λ visited next,
               if decide (next ∈ visited) then visited
               else if decide (next ∈ known)
                    then depth_first fuel' graph known next (visited ++ [next])
                    else visited)
            visited (default [] (graph !! current))
  end.


(** ** MultiAgentSystem *)

Record MultiAgentSystem : Type := mkMultiAgentSystem {
  system_name : string;
  strands : gmap string AgentStrand;
  global_memory : MemRef
}.

Definition add_strand (strand : AgentStrand) (self : MultiAgentSystem)
    : MultiAgentSystem :=
  mkMultiAgentSystem (system_name self)
    (<[strand_name strand := strand]> (strands self)) (global_memory self).

(** [execute_strand]; the schedule is the one parallel mode hands to the
    event loop. *)
Definition execute_strand `{Host} (schedule : list nat) (self : MultiAgentSystem)
    (strand_name : string) (input_data : Value) (mode : string) : M StrandResult :=
  match strands self !! strand_name with
  | None => mret (ErrorDict ("Strand " +:+ strand_name +:+ " not found"))
  | Some strand =>
      if decide (mode = "sequential") then execute_sequential strand input_data
      else if decide (mode = "parallel") then execute_parallel schedule strand input_data
      else if decide (mode = "graph") then execute_graph strand input_data
      else mret (ErrorDict ("Unknown execution mode: " +:+ mode))
  end.

(** ** What the logic may touch *)

(** Two agent records that differ at most in their log. *)
Definition same_envelope (a a' : Agent) : Prop :=
  set_execution_log [] a' = set_execution_log [] a.

(** The heap change a run of [_execute_logic] on [self] can make: the log
    of [self], the memories and the clock; every other agent, and the
    status and metrics of [self], stay as they are. *)
Definition logic_frame (self : AgentRef) (w w' : World) : Prop :=
  (∀ r, r ≠ self → agent_at w' r = agent_at w r)
  ∧ same_envelope (agent_at w self) (agent_at w' self).

(** ** The chain of a sequential run *)

(** [chained input l w w' outs]: from heap [w], [process] is awaited on the
    agents of [l] in list order, the first on [input] and each next one on
    the output of the one before; every call returns; [outs] lists the
    outputs in that order and [w'] is the heap at the end. *)
Inductive chained `{Host} : Value → list AgentRef → World → World → list Value → Prop :=
| chained_nil input w : chained input [] w w []
| chained_cons input agent rest w w1 w' out outs :
    run (process agent input) w = (w1, Returned out) →
    chained out rest w1 w' outs →
    chained input (agent :: rest) w w' (out :: outs).

(** ** Tasks under interleaving *)

(** [finishes c o]: the coroutine [c] ends with [o] when it finds, each
    time it reads the heap, some heap or other; which heaps it finds
    depends on what the other tasks did in between. *)
Inductive finishes {A} : Coro World A → Outcome A → Prop :=
| finishes_return a : finishes (Return a) (Returned a)
| finishes_raise e : finishes (Raise e) (Raised e)
| finishes_get k w o : finishes (k w) o → finishes (Get k) o
| finishes_put w k o : finishes k o → finishes (Put w k) o
| finishes_yield k o : finishes k o → finishes (Yield k) o.

(** A task of [gather] that stems from the coroutine [c]: still pending
    with what is left of [c], or ended with a result or an error of [c]. *)
Definition stems_from {A} (c : Coro World A) (t : Task A) : Prop :=
  match t with
  | Pending k => ∀ o, finishes k o → finishes c o
  | Done a => finishes c (Returned a)
  | Failed e => finishes c (Raised e)
  end.

(** The number of suspension points [c] goes through when it runs alone
    from [w]. *)
Fixpoint suspensions {A} (c : Coro World A) (w : World) : nat :=
  match c with
  | Return _ | Raise _ => 0
  | Get k => suspensions (k w) w
  | Put w' k => suspensions k w'
  | Yield k => S (suspensions k w)
  end.

Definition is_pending {A} (t : Task A) : bool :=
  match t with
  | Pending _ => true
  | _ => false
  end.

(** [interleaved ts w order errors ts' w']: from the tasks [ts] and the
    heap [w] the event loop resumes the tasks that [order] lists, one after
    the other, each of them pending at its turn and each from the heap the
    step before it left, and arrives at the tasks [ts'] and the heap [w'];
    [errors] lists the tasks whose step raised, with the error, in the
    order of the steps. *)
Inductive interleaved {A} :
  list (Task A) → World → list nat → list (nat * PyErr) → list (Task A) → World → Prop :=
| interleaved_nil ts w : interleaved ts w [] [] ts w
| interleaved_cons ts w i c w1 p order errors ts' w' :
    ts !! i = Some (Pending c) →
    resume c w = (w1, p) →
    interleaved (<[i := settle p]> ts) w1 order errors ts' w' →
    interleaved ts w (i :: order) (option_list (pair i <$> raised p) ++ errors) ts' w'.

(** The first error a future with exception [x] has after further steps
    that raised [errors]. *)
Definition first_error (x : option PyErr) (errors : list (nat * PyErr)) : option PyErr :=
  match x with
  | Some e => Some e
  | None => snd <$> head errors
  end.

(** The future never loses the first error of its children. *)
Definition consistent {A} (g : Gathering A) : Prop :=
  ∀ i e, children g !! i = Some (Failed e) → is_Some (exception g).

(** ** What a graph walk maintains *)

(** The heaps [w] and [w'] give every agent object the same id. *)
Definition same_ids (w w' : World) : Prop :=
  ∀ r, agent_id (agent_at w' r) = agent_id (agent_at w r).

Definition executions (w : World) (r : AgentRef) : Z :=
  total_executions (metrics (agent_at w r)).

(** How often the agent object [r] occurs among the visits. *)
Definition visits_of (r : AgentRef) (tr : list (string * AgentRef)) : nat :=
  length (filter (λ v, v.2 = r) tr).

(** The visits [tr] made between the heaps [w0] and [w]: ids are stable,
    no id was visited twice, every visit is to an agent of the strand
    carrying the id looked up, and every agent object has run once more
    for each of its visits. *)
Record visits_ok (self : AgentStrand) (w0 w : World) (tr : list (string * AgentRef))
    : Prop := mkVisitsOk {
  ok_ids : same_ids w0 w;
  ok_nodup : NoDup tr.*1;
  ok_agents : Forall (λ v, v.2 ∈ agents self ∧ agent_id (agent_at w0 v.2) = v.1) tr;
  ok_executions : ∀ r, executions w r = (executions w0 r + Z.of_nat (visits_of r tr))%Z
}.

(** The output [out] was returned by [process] on the agent of the visit. *)
Definition produced_by `{Host} (v : string * AgentRef) (out : Value) : Prop :=
  ∃ data w w', run (process v.2 data) w = (w', Returned out).

(** The visited-set and the results agree with the visits written down:
    the set holds the visited ids, and the results are the outputs of the
    visits, one for one, in order. *)
Definition walk_ok `{Host} (st : TracedWalk) : Prop :=
  processed (walk st) = list_to_set (order st).*1
  ∧ Forall2 produced_by (order st) (walk_results (walk st)).

(** Dropping the visits from the outcome of a traced run. *)
Definition erase {A B} (f : A → B) (r : option (World * Outcome A))
    : option (World * Outcome B) :=
  match r with
  | Some (w, Returned a) => Some (w, Returned (f a))
  | Some (w, Raised e) => Some (w, Raised e)
  | None => None
  end.

(** One step of the specification's traversal at a successor [next]. *)
Definition depth_first_step (fuel : nat) (graph : gmap string (list string))
    (known : list string) (visited : list string) (next : string) : list string :=
  if decide (next ∈ visited) then visited
  else if decide (next ∈ known)
       then depth_first fuel graph known next (visited ++ [next])
       else visited.

(** What a traced walk that started from the state [st] has established
    when it ends in the heap [w'] with outcome [o]; [expected] is the
    visiting order the specification gives. *)
Definition walk_post `{Host} (self : AgentStrand) (w0 : World) (st : TracedWalk)
    (expected : list string) (w' : World) (o : Outcome TracedWalk) : Prop :=
  match o with
  | Returned st' =>
      visits_ok self w0 w' (order st') ∧ walk_ok st'
      ∧ processed (walk st) ⊆ processed (walk st')
      ∧ order st `prefix_of` order st'
      ∧ walk_results (walk st) `prefix_of` walk_results (walk st')
      ∧ (order st').*1 = expected
  | Raised _ => ∃ tr, visits_ok self w0 w' tr
  end.

(** ** Concrete logic and heaps, for running the definitions *)

Definition memory_store (key : string) (value : Value) (persistent : bool)
    : Coro LogicView unit :=
  modify (λ v, let '(m, c) := store key value persistent (lv_memory v) (lv_clock v) in
               mkLogicView m (lv_log v) c).

Definition view_time : Coro LogicView Q :=
  call (λ v, let '(t, c) := time_time (lv_clock v) in
             (t, mkLogicView (lv_memory v) (lv_log v) c)).

(** [await asyncio.sleep(...)] *)
Definition sleep : Coro LogicView unit := Yield (Return tt).

(** [Agent._execute_logic], the default logic of the base class. *)
Definition Agent_execute_logic (self : Agent) (input_data : Value)
    : Coro LogicView Value :=
  memory_store "last_input" input_data false;;
  sleep;;
  t ← view_time;
  let result := VDict [("agent", VStr (agent_name self));
                       ("status", VStr "success");
                       ("data", input_data);
                       ("timestamp", VFloat t)] in
  memory_store "last_output" result false;;
  Return result.

Definition ValueError (msg : string) : PyErr := mkPyErr "ValueError" true msg.
Definition CancelledError : PyErr := mkPyErr "CancelledError" false "".

(** Two stand-ins for overrides that fail: one raises a [ValueError] (as
    [IntakeAgent] does on empty input), one is cancelled while it sleeps. *)
Definition failing_logic : Coro LogicView Value :=
  Raise (ValueError "Empty input received").

Definition cancelled_logic : Coro LogicView Value :=
  Yield (Raise CancelledError).

(** A stand-in for an override that tags the payload with the agent's id. *)
Definition tagging_logic (self : Agent) (input_data : Value) : Coro LogicView Value :=
  sleep;;
  Return (match input_data with
          | VList l => VList (l ++ [VStr (agent_id self)])
          | _ => VList [VStr (agent_id self)]
          end).

(** [f"{x:.2f}"]: two digits after the point, the value rounded to the
    nearest hundredth and to the even one of two that are equally near; a
    negative value keeps its sign even where it rounds to zero. *)
Definition format_hundredths (q : Q) : string :=
  let negative := match (q ?= 0)%Q with Lt => true | _ => false end in
  let x := ((if negative then - q else q) * 100)%Q in
  let n := Qfloor x in
  let a := match (x - inject_Z n ?= 1 # 2)%Q with
           | Lt => n
           | Eq => if Z.even n then n else (n + 1)%Z
           | Gt => (n + 1)%Z
           end in
  let frac := (a mod 100)%Z in
  (if negative then "-" else "") +:+ pretty (a / 100)%Z +:+ "." +:+
  (if (frac <? 10)%Z then "0" else "") +:+ pretty frac.

Definition example_host : Host :=
  mkHost (λ self input_data,
            if decide (class_name self = "FailingAgent") then failing_logic
            else if decide (class_name self = "CancelledAgent") then cancelled_logic
            else if decide (class_name self = "TaggingAgent") then tagging_logic self input_data
            else Agent_execute_logic self input_data)
         format_hundredths.

(** A clock that reads 0, 1, 2, ... *)
Definition counting_clock : Clock := mkClock (λ n, inject_Z (Z.of_nat n)) 0.

(** A heap with agents "A", "B", "C", "D" at references 0 to 3 (tagging
    agents), a failing agent "bad" at 4, a cancelled agent "gone" at 5 and a
    base-class agent "plain" everywhere else; one memory. *)
Definition example_world : World :=
  mkWorld counting_clock
    (λ r, match r with
          | 0 => new_agent "TaggingAgent" "A" "Agent A" "first" 0
          | 1 => new_agent "TaggingAgent" "B" "Agent B" "second" 0
          | 2 => new_agent "TaggingAgent" "C" "Agent C" "third" 0
          | 3 => new_agent "TaggingAgent" "D" "Agent D" "fourth" 0
          | 4 => new_agent "FailingAgent" "bad" "Bad" "fails" 0
          | 5 => new_agent "CancelledAgent" "gone" "Gone" "cancelled" 0
          | _ => new_agent "Agent" "plain" "Plain" "default" 0
          end)
    (λ _, empty_memory).

(** The graph [{"A": ["B", "C"], "B": ["D"], "C": ["D"]}] over A, B, C, D. *)
Definition diamond_strand : AgentStrand :=
  add_communication "C" "D"
    (add_communication "B" "D"
       (add_communication "A" "C"
          (add_communication "A" "B"
             (mkAgentStrand "diamond" [0; 1; 2; 3]%nat 0%nat ∅)))).

Definition empty_strand : AgentStrand := mkAgentStrand "empty" [] 0%nat ∅.

(** What a run produced, without the heap. *)
Definition produced {A} (r : option (World * Outcome A)) : option (Outcome A) :=
  snd <$> r.

(** A clock that is set back by 100 seconds after its first reading. *)
Definition set_back_clock : Clock :=
  mkClock (λ n, match n with
                | O => inject_Z 1700000100
                | S n => inject_Z (1700000000 + Z.of_nat n)
                end) 0.

(** The memory and the clock after a first persistent store under
    [set_back_clock]. *)
Definition first_store : AgentMemory * Clock :=
  store "k" (VInt 1) true empty_memory set_back_clock.

(** A clock that is never set back, and a journal whose only entry carries
    a stamp ahead of it. *)
Definition steady_clock : Clock :=
  mkClock (λ n, inject_Z (1700000000 + Z.of_nat n)) 0.

Definition stale_memory : AgentMemory :=
  mkAgentMemory ∅ [mkHistoryItem "k" (VInt 1) 2000000000] ∅.

(** The state of memory and clock after one persistent store. *)
Definition one_store : AgentMemory * Clock :=
  store "k" (VInt 1) true empty_memory counting_clock.

(** A strand whose second agent fails, between two that do not. *)
Definition broken_strand : AgentStrand := mkAgentStrand "broken" [0; 4; 1]%nat 0%nat ∅.


(** Two agents that name each other, and the first itself, as successors. *)
Definition cyclic_strand : AgentStrand :=
  add_communication "B" "A"
    (add_communication "A" "B"
       (add_communication "A" "A" (mkAgentStrand "cycle" [0; 1]%nat 0%nat ∅))).

(** An orchestrator with [diamond_strand] registered. *)
Definition example_system : MultiAgentSystem :=
  add_strand diamond_strand (mkMultiAgentSystem "example" ∅ 0%nat).

(* ===================================================================== *)
(** * The rest of the program

    The parts of [agent_framework.py] the sections above leave out, the
    overrides of [specialized_agents.py] and the request handlers of
    [api.py] that call into the framework. *)
(* ===================================================================== *)

(** ** Counters *)

(** The counters of an agent are consistent: none is negative, and the
    executions counted as successes or failures do not exceed the
    executions counted in all. *)
Definition counters_ok (m : Metrics) : Prop :=
  (0 ≤ successful_executions m ∧ 0 ≤ failed_executions m
   ∧ successful_executions m + failed_executions m ≤ total_executions m)%Z.

Definition all_counters_ok (w : World) : Prop :=
  ∀ r, counters_ok (metrics (agent_at w r)).

(** ** Invariants under interleaving *)

(** [keeps_at_yields I c]: resumed in a heap where [I] holds, the coroutine
    [c] reaches its next suspension point, or its end, in a heap where [I]
    holds, and so does what is left of it afterwards.  Between two
    suspension points [I] may fail: no other task runs there. *)
Inductive keeps_at_yields {A} (I : World → Prop) : Coro World A → Prop :=
| keeps_at_yields_intro c :
    (∀ w, I w →
       I (fst (resume c w))
       ∧ ∀ k, snd (resume c w) = Suspended k → keeps_at_yields I k) →
    keeps_at_yields I c.

Definition task_keeps {A} (I : World → Prop) (t : Task A) : Prop :=
  match t with
  | Pending c => keeps_at_yields I c
  | _ => True
  end.

(** ** Executions under interleaving *)

(** [counts_once a c]: whatever the heaps it is resumed in, the coroutine
    [c] leaves the execution counters alone at every step but its last,
    where it adds one execution to the agent [a] and none to the others. *)
Inductive counts_once {A} (a : AgentRef) : Coro World A → Prop :=
| counts_once_intro c :
    (∀ w,
       (∀ o, snd (resume c w) = Finished o →
          ∀ r, executions (fst (resume c w)) r
               = (executions w r + if decide (r = a) then 1 else 0)%Z)
       ∧ (∀ k, snd (resume c w) = Suspended k →
            (∀ r, executions (fst (resume c w)) r = executions w r)
            ∧ counts_once a k)) →
    counts_once a c.

Definition task_counts {A} (a : AgentRef) (t : Task A) : Prop :=
  match t with
  | Pending c => counts_once a c
  | _ => True
  end.

(** How many of the tasks of the agent object [r] have ended; [agents]
    gives the agent of each task. *)
Fixpoint ended {A} (r : AgentRef) (agents : list AgentRef) (tasks : list (Task A)) : Z :=
  match agents, tasks with
  | a :: agents, t :: tasks =>
      ((if is_pending t then 0 else if decide (a = r) then 1 else 0)
       + ended r agents tasks)%Z
  | _, _ => 0%Z
  end.

(** How often the agent object [r] is listed. *)
Definition occurrences (r : AgentRef) (l : list AgentRef) : Z :=
  Z.of_nat (length (filter (λ a, a = r) l)).

(** What is left of [process] once the logic has been started: the rest
    [k] of the logic inside the [try] block. *)
Definition process_rest `{Host} (self : AgentRef) (start_time : Q) (k : Coro LogicView Value)
    : Coro World Value :=
  try_finally
    (try_except
       (zoom (logic_view self) (logic_update self) k ≫= process_success self start_time)
       (process_handler self))
    (process_finally self).

(** ** Building a strand *)

Definition set_memory_ref (m : MemRef) (self : Agent) : Agent :=
  mkAgent (class_name self) (agent_id self) (agent_name self) (role self) m
    (status self) (execution_log self) (metrics self).

(** [AgentStrand.__init__].  An [AgentMemory] object is true whatever it
    holds, so [shared_memory or AgentMemory()] makes a new memory exactly
    when the argument is [None]; [fresh] is the reference the new object
    gets.  The loop then points every agent of the list to the memory of
    the strand. *)
Definition AgentStrand__init__ (name : string) (agents : list AgentRef)
    (shared_memory : option MemRef) (fresh : MemRef) (w : World) : AgentStrand * World :=
  let '(mem, w1) := match shared_memory with
                    | Some m => (m, w)
                    | None => (fresh, set_memory fresh empty_memory w)
                    end in
  (mkAgentStrand name agents mem ∅,
   foldl (λ w agent, set_agent agent (set_memory_ref mem (agent_at w agent)) w) w1 agents).

(** The loop of [generate_system] in [api.py] that links each agent of the
    list to the next one:
    [for i in range(len(agents) - 1):
         strand.add_communication(agents[i].id, agents[i + 1].id)].
    [ids] lists [agents[i].id].  An index out of range raises [IndexError]
    in Python; the bounds of the loop rule it out, and the model leaves the
    strand as it is there. *)
Definition link_agents (ids : list string) (strand : AgentStrand) : AgentStrand :=
  foldl (λ strand i,
           match ids !! i, ids !! S i with
           | Some from_agent, Some to_agent => add_communication from_agent to_agent strand
           | _, _ => strand
           end)
        strand (seq 0 (length ids - 1)).

(** The dict of a sequential run without its ["final_output"] entry. *)
Definition without_final_output (d : StrandResult) : StrandResult :=
  match d with
  | SequentialDict strand results _ => ResultsDict strand results
  | d => d
  end.

(** ** Generating a system ([api.py]) *)

(** One constructor call [cls(agent_id, name, role)]. *)
Record AgentSpec : Type := mkAgentSpec {
  spec_class : string;
  spec_id : string;
  spec_name : string;
  spec_role : string
}.

(** [create_agents_for_workflow]: the constructor calls of the list it
    returns, in order. *)
Definition create_agents_for_workflow (workflow_type : string) : list AgentSpec :=
  if decide (workflow_type = "customer-support") then
    [mkAgentSpec "IntakeAgent" "intake" "Intake Agent"
       "Receives and validates customer inquiries";
     mkAgentSpec "ClassificationAgent" "classifier" "Classification Agent" "Categorizes issues";
     mkAgentSpec "ResolutionAgent" "resolver" "Resolution Agent" "Generates solutions";
     mkAgentSpec "QualityAgent" "quality" "Quality Agent" "Reviews responses";
     mkAgentSpec "NotificationAgent" "notification" "Notification Agent" "Sends updates"]
  else if decide (workflow_type = "ecommerce") then
    [mkAgentSpec "IntakeAgent" "order" "Order Agent" "Processes incoming orders";
     mkAgentSpec "ProcessingAgent" "payment" "Payment Agent" "Handles payment processing";
     mkAgentSpec "ProcessingAgent" "inventory" "Inventory Agent" "Manages stock";
     mkAgentSpec "ProcessingAgent" "shipping" "Shipping Agent" "Coordinates delivery";
     mkAgentSpec "NotificationAgent" "notification" "Notification Agent"
       "Sends customer updates"]
  else if decide (workflow_type = "content") then
    [mkAgentSpec "ProcessingAgent" "planner" "Content Planner" "Plans content strategy";
     mkAgentSpec "ProcessingAgent" "writer" "Content Writer" "Creates written content";
     mkAgentSpec "QualityAgent" "editor" "Content Editor" "Reviews and refines content";
     mkAgentSpec "ProcessingAgent" "designer" "Visual Designer" "Creates visual assets";
     mkAgentSpec "NotificationAgent" "publisher" "Publishing Agent" "Publishes content"]
  else if decide (workflow_type = "hr") then
    [mkAgentSpec "IntakeAgent" "sourcing" "Sourcing Agent" "Finds candidates";
     mkAgentSpec "ClassificationAgent" "screening" "Screening Agent" "Reviews applications";
     mkAgentSpec "ProcessingAgent" "interview" "Interview Agent" "Coordinates interviews";
     mkAgentSpec "AnalyticsAgent" "assessment" "Assessment Agent" "Evaluates candidates";
     mkAgentSpec "NotificationAgent" "offer" "Offer Agent" "Manages offers"]
  else
    [mkAgentSpec "IntakeAgent" "input" "Input Agent" "Receives input";
     mkAgentSpec "ProcessingAgent" "processor" "Processing Agent" "Processes data";
     mkAgentSpec "NotificationAgent" "output" "Output Agent" "Delivers output"].

(** The constructor calls carried out: each makes an agent object, and,
    no memory being passed, a memory object of its own.  New objects get
    the references [r], [r + 1], ... and [m], [m + 1], ...; any choice of
    [r] and [m] is allowed, the unused ones among them. *)
Fixpoint construct_agents (r : AgentRef) (m : MemRef) (specs : list AgentSpec) (w : World)
    : list AgentRef * World :=
  match specs with
  | [] => ([], w)
  | spec :: rest =>
      let agent := new_agent (spec_class spec) (spec_id spec) (spec_name spec)
                     (spec_role spec) m in
      let '(refs, w') := construct_agents (S r) (S m) rest
                           (set_agent r agent (set_memory m empty_memory w)) in
      (r :: refs, w')
  end.

(** The entry ["communications"] of the response: one item for each agent
    but the last, [{"from": agents[i].id, "to": agents[i + 1].id, ...}]. *)
Definition communications (ids : list string) : list (string * string) :=
  omap (λ i, match ids !! i, ids !! S i with
             | Some from_agent, Some to_agent => Some (from_agent, to_agent)
             | _, _ => None
             end)
       (seq 0 (length ids - 1)).

(** [generate_system], up to [multi_agent_system.add_strand(strand)]: the
    agents of the workflow, a new shared memory, the strand over them, the
    links from each agent to the next, and the registration.  The
    orchestrator is the module-level object [multi_agent_system]; it is
    passed in and handed back. *)
Definition generate_system (workflow_type : string) (r : AgentRef) (m : MemRef)
    (multi_agent_system : MultiAgentSystem) (w : World) : MultiAgentSystem * World :=
  let '(agents, w1) := construct_agents r m (create_agents_for_workflow workflow_type) w in
  let strand_name := workflow_type +:+ "_strand" in
  let shared_memory := (m + length agents)%nat in
  let w2 := set_memory shared_memory empty_memory w1 in
  let '(strand, w3) := AgentStrand__init__ strand_name agents (Some shared_memory)
                         shared_memory w2 in
  let strand := link_agents (strand_ids w3 strand) strand in
  (add_strand strand multi_agent_system, w3).

(** ** Logs and metrics of strands and systems *)

(** [sorted(l, key=lambda x: x["timestamp"])].  Python's sort is stable:
    entries with equal timestamps keep their order. *)
Fixpoint insert_by_timestamp (x : LogEntry) (l : list LogEntry) : list LogEntry :=
  match l with
  | [] => [x]
  | y :: rest =>
      if Qle_bool (log_timestamp x) (log_timestamp y) then x :: l
      else y :: insert_by_timestamp x rest
  end.

Definition sorted_by_timestamp (l : list LogEntry) : list LogEntry :=
  foldr insert_by_timestamp [] l.

(** [AgentStrand.get_all_logs] *)
Definition get_all_logs (self : AgentStrand) (w : World) : list LogEntry :=
  sorted_by_timestamp
    (foldl (λ all_logs agent, all_logs ++ execution_log (agent_at w agent)) [] (agents self)).

(** [MultiAgentSystem.get_system_logs].  [values] is [self.strands.values()]:
    the registered strands in the order the dict hands them out. *)
Definition get_system_logs (values : list AgentStrand) (w : World) : list LogEntry :=
  sorted_by_timestamp
    (foldl (λ all_logs strand, all_logs ++ get_all_logs strand w) [] values).

(** [AgentStrand.get_all_metrics]: the list comprehension ends with the
    first call that raises. *)
Definition get_all_metrics (self : AgentStrand) (w : World) : Outcome (list MetricsReport) :=
  mapM (λ agent, get_metrics (agent_at w agent)) (agents self).

(** The dict [get_system_metrics] returns. *)
Record SystemMetrics : Type := mkSystemMetrics {
  report_system_name : string;
  total_strands : nat;
  total_agents : nat;
  agent_metrics : list MetricsReport
}.

(** [MultiAgentSystem.get_system_metrics]; [values] as for
    [get_system_logs], and [len(self.strands)] is the number of keys. *)
Definition get_system_metrics (self : MultiAgentSystem) (values : list AgentStrand)
    (w : World) : Outcome SystemMetrics :=
  all_metrics ← foldl (λ acc strand,
                         all_metrics ← acc;
                         more ← get_all_metrics strand w;
                         Returned (all_metrics ++ more))
                      (Returned []) values;
  Returned (mkSystemMetrics (system_name self) (size (strands self))
              (sum_list ((λ s, length (agents s)) <$> values)) all_metrics).

(** The order of log entries by timestamp. *)
Definition not_after (x y : LogEntry) : Prop := (log_timestamp x <= log_timestamp y)%Q.

(** The log entries of the agents of a list, agent after agent. *)
Definition logs_of (w : World) (agents : list AgentRef) : list LogEntry :=
  concat ((λ agent, execution_log (agent_at w agent)) <$> agents).

(** ** The request handlers of [api.py] *)

(** [l[start:]]: a negative start counts from the end, and a start outside
    the list is clipped. *)
Definition slice_from {A} (start : Z) (l : list A) : list A :=
  let len := Z.of_nat (length l) in
  let start := if (start <? 0)%Z then Z.max (start + len) 0 else Z.min start len in
  drop (Z.to_nat start) l.

(** The body of [get_logs] after the logs are fetched: [if limit:] is false
    for [None] and for 0.  The result is the pair of ["total_logs"] and
    ["logs"]. *)
Definition get_logs (limit : option Z) (system_logs : list LogEntry)
    : nat * list LogEntry :=
  let logs := match limit with
              | Some n => if (n =? 0)%Z then system_logs else slice_from (- n) system_logs
              | None => system_logs
              end in
  (length logs, logs).

(** What a request handler produces: the body it returns, an
    [HTTPException], or an error that is no [Exception], which no handler
    catches. *)
Inductive Response (A : Type) : Type :=
| Responded (body : A)
| HTTPException (status_code : Z) (detail : string)
| Unhandled (e : PyErr).
Arguments Responded {A} body.
Arguments HTTPException {A} status_code detail.
Arguments Unhandled {A} e.

(** [except Exception as e: raise HTTPException(status_code=500, detail=str(e))] *)
Definition internal_error {A} (e : PyErr) : Response A :=
  if is_Exception e then HTTPException 500 (str_e e) else Unhandled e.

(** The body [{"success": True, "result", "execution_mode"}]. *)
Record ExecuteBody : Type := mkExecuteBody {
  success : bool;
  result : StrandResult;
  execution_mode : string
}.

Module api.

(** The handler of [POST /api/execute]. *)
Definition execute_strand `{Host} (schedule : list nat)
    (multi_agent_system : MultiAgentSystem) (strand_name : string) (input_data : Value)
    (execution_mode : string) (w : World) : option (World * Response ExecuteBody) :=
  match execute_strand schedule multi_agent_system strand_name input_data execution_mode w with
  | Some (w', Returned result) =>
      Some (w', Responded (mkExecuteBody true result execution_mode))
  | Some (w', Raised e) => Some (w', internal_error e)
  | None => None
  end.

(** The handler of [GET /api/strand/{strand_name}/metrics]; the body is
    [{"strand_name", "metrics"}].  The [HTTPException] of the missing strand
    is raised again by [except HTTPException: raise]. *)
Definition get_strand_metrics (multi_agent_system : MultiAgentSystem) (strand_name : string)
    (w : World) : Response (string * list MetricsReport) :=
  match strands multi_agent_system !! strand_name with
  | None => HTTPException 404 "Strand not found"
  | Some strand =>
      match get_all_metrics strand w with
      | Returned metrics => Responded (strand_name, metrics)
      | Raised e => internal_error e
      end
  end.

(** The handler of [DELETE /api/strand/{strand_name}]; the body is
    [{"success": True, "message"}], of which the message is kept. *)
Definition delete_strand (multi_agent_system : MultiAgentSystem) (strand_name : string)
    : MultiAgentSystem * Response string :=
  match strands multi_agent_system !! strand_name with
  | None => (multi_agent_system, HTTPException 404 "Strand not found")
  | Some _ =>
      (mkMultiAgentSystem (system_name multi_agent_system)
         (delete strand_name (strands multi_agent_system))
         (global_memory multi_agent_system),
       Responded ("Strand " +:+ strand_name +:+ " deleted"))
  end.

End api.

(* ===================================================================== *)
(** * The agents of [specialized_agents.py] *)
(* ===================================================================== *)

(** ** Python values at work *)

(** The truth value of a payload, as [if not input_data] and
    [if data.get(...)] take it. *)
Definition truthy (v : Value) : bool :=
  match v with
  | VNone => false
  | VBool b => b
  | VInt n => negb (n =? 0)%Z
  | VFloat q => negb (Qeq_bool q 0)
  | VStr s => negb (bool_decide (s = ""))
  | VList items => match items with [] => false | _ => true end
  | VDict entries => match entries with [] => false | _ => true end
  end.

(** [d.get(key)] on the entries of a dict. *)
Fixpoint dict_get (key : string) (entries : list (string * Value)) : option Value :=
  match entries with
  | [] => None
  | (k, v) :: rest => if decide (k = key) then Some v else dict_get key rest
  end.

(** [d[key] = value]: a key that is there keeps its place. *)
Fixpoint dict_set (key : string) (value : Value) (entries : list (string * Value))
    : list (string * Value) :=
  match entries with
  | [] => [(key, value)]
  | (k, v) :: rest =>
      if decide (k = key) then (key, value) :: rest else (k, v) :: dict_set key value rest
  end.

(** The dict display [{**d, k1: v1, ..., kn: vn}]. *)
Definition dict_display (entries : list (string * Value)) (more : list (string * Value))
    : list (string * Value) :=
  foldl (λ d e, dict_set e.1 e.2 d) entries more.

(** [needle in hay] on strings. *)
Fixpoint contains (needle hay : string) : bool :=
  String.prefix needle hay
  || match hay with
     | EmptyString => false
     | String _ rest => contains needle rest
     end.

(** [x > bound] for a payload [x] and a float [bound]: numbers compare by
    value ([True] and [False] being 1 and 0), anything else is a
    [TypeError]. *)
Definition greater_than (x : Value) (bound : Q) : option bool :=
  match x with
  | VBool b => Some (negb (Qle_bool (if b then 1 else 0) bound))
  | VInt n => Some (negb (Qle_bool (inject_Z n) bound))
  | VFloat q => Some (negb (Qle_bool q bound))
  | _ => None
  end.

(** What the program takes from its surroundings: the rendering
    [str(data).lower()] of a payload and [f"{x:.2f}"] of a float; the draws
    of [random.randint(1000, 9999)] and [random.uniform(a, b)]; the text of
    the errors the interpreter raises itself, by kind and offending value.
    A draw is told by the number of clock readings made before it and by
    the dict key it is for: every two draws of a run differ in one or the
    other, so that nothing relates them. *)
Class Runtime : Type := mkRuntime {
  str_lower : Value → string;
  format_float : Q → string;
  randint : nat → Z;
  uniform : nat → string → Q;
  error_text : string → Value → string
}.

Definition TypeError (msg : string) : PyErr := mkPyErr "TypeError" true msg.
Definition AttributeError (msg : string) : PyErr := mkPyErr "AttributeError" true msg.

(** [x.get] on a payload that is no dict. *)
Definition no_get `{Runtime} {A} (x : Value) : Coro LogicView A :=
  Raise (AttributeError (error_text "get" x)).

(** [{**x}] on a payload that is no dict. *)
Definition no_mapping `{Runtime} {A} (x : Value) : Coro LogicView A :=
  Raise (TypeError (error_text "mapping" x)).

(** [self.log(message)] from inside the logic. *)
Definition view_log (self : Agent) (message : string) : Coro LogicView unit :=
  modify (λ v, let '(now, c) := time_time (lv_clock v) in
               mkLogicView (lv_memory v)
                 (lv_log v ++ [mkLogEntry now (agent_name self) "info" message]) c).

Definition draw_randint `{Runtime} : Coro LogicView Z :=
  Get (λ v, Return (randint (cursor (lv_clock v)))).

Definition draw_uniform `{Runtime} (key : string) : Coro LogicView Q :=
  Get (λ v, Return (uniform (cursor (lv_clock v)) key)).

(** ** IntakeAgent *)

Definition _assess_priority `{Runtime} (data : Value) : string :=
  let keywords := str_lower data in
  if contains "urgent" keywords || contains "critical" keywords then "high"
  else if contains "important" keywords then "medium"
  else "low".

Definition IntakeAgent_execute_logic `{Runtime} (self : Agent) (input_data : Value)
    : Coro LogicView Value :=
  view_log self "Starting intake process";;
  if negb (truthy input_data) then Raise (ValueError "Empty input received")
  else
    sleep;;
    n ← draw_randint;
    let request_id := "REQ-" +:+ pretty n in
    match input_data with
    | VDict entries =>
        let validated_data :=
          VDict [("request_id", VStr request_id);
                 ("original_data", input_data);
                 ("validated", VBool true);
                 ("timestamp", default (VStr "") (dict_get "timestamp" entries));
                 ("priority", VStr (_assess_priority input_data))] in
        memory_store "intake_data" validated_data true;;
        view_log self ("Validated request " +:+ request_id);;
        Return validated_data
    | _ => no_get input_data
    end.

(** ** ClassificationAgent *)

Definition _classify `{Runtime} (data : Value) : string :=
  let content := str_lower data in
  if contains "payment" content || contains "billing" content then "financial"
  else if contains "technical" content || contains "error" content then "technical"
  else if contains "account" content || contains "profile" content then "account"
  else "general".

Definition _get_subcategory (category : string) : string :=
  default "other"
    (({[ "financial" := "payment_processing"; "technical" := "bug_report";
         "account" := "profile_update"; "general" := "inquiry" ]} : gmap string string)
       !! category).

Definition _determine_routing (category : string) : string :=
  default "general_support"
    (({[ "financial" := "finance_team"; "technical" := "tech_support";
         "account" := "customer_service"; "general" := "general_support" ]}
      : gmap string string) !! category).

Definition ClassificationAgent_execute_logic `{Runtime} (self : Agent) (input_data : Value)
    : Coro LogicView Value :=
  view_log self "Starting classification";;
  sleep;;
  let category := _classify input_data in
  match input_data with
  | VDict entries =>
      let classified_data :=
        VDict (dict_display entries
                 [("category", VStr category);
                  ("subcategory", VStr (_get_subcategory category));
                  ("routing", VStr (_determine_routing category))]) in
      memory_store "classification" classified_data false;;
      view_log self ("Classified as: " +:+ category);;
      Return classified_data
  | _ => no_mapping input_data
  end.

(** ** ProcessingAgent *)

Definition _enrich_data (self : Agent) (confidence_score : Q) : Value :=
  VDict [("metadata",
          VDict [("processed_by", VStr (agent_name self));
                 ("confidence_score", VFloat confidence_score);
                 ("quality_check", VStr "passed")])].

Definition ProcessingAgent_execute_logic `{Runtime} (self : Agent) (input_data : Value)
    : Coro LogicView Value :=
  view_log self "Starting processing";;
  sleep;;
  match input_data with
  | VDict entries =>
      confidence_score ← draw_uniform "confidence_score";
      let processed_data :=
        VDict (dict_display entries
                 [("processed", VBool true);
                  ("processing_steps",
                   VList [VStr "data_validation"; VStr "transformation"; VStr "enrichment"]);
                  ("enriched_data", _enrich_data self confidence_score)]) in
      memory_store "processed_data" processed_data false;;
      view_log self "Processing completed";;
      Return processed_data
  | _ => no_mapping input_data
  end.

(** ** ResolutionAgent *)

Definition solution (type action : string) (steps : list string) : Value :=
  VDict [("type", VStr type); ("action", VStr action); ("steps", VList (VStr <$> steps))].

Definition solutions : gmap string (string * Value) :=
  {[ "financial" := ("payment_resolution",
       solution "payment_resolution" "Process refund or payment adjustment"
         ["Verify transaction"; "Process adjustment"; "Send confirmation"]);
     "technical" := ("technical_fix",
       solution "technical_fix" "Apply technical solution"
         ["Diagnose issue"; "Apply fix"; "Verify resolution"]);
     "account" := ("account_update",
       solution "account_update" "Update account information"
         ["Verify identity"; "Update records"; "Confirm changes"]);
     "general" := ("general_response",
       solution "general_response" "Provide information"
         ["Gather information"; "Formulate response"; "Send reply"]) ]}.

Definition general_solution : string * Value :=
  ("general_response",
   solution "general_response" "Provide information"
     ["Gather information"; "Formulate response"; "Send reply"]).

(** [_generate_solution] on the entries of a dict: the type of the solution
    and the solution.  A category that is a list or a dict cannot be
    looked up: it is not hashable. *)
Definition _generate_solution `{Runtime} (entries : list (string * Value))
    : Outcome (string * Value) :=
  let category := default (VStr "general") (dict_get "category" entries) in
  match category with
  | VStr c => Returned (default general_solution (solutions !! c))
  | VList _ | VDict _ => Raised (TypeError (error_text "unhashable" category))
  | _ => Returned general_solution
  end.

Definition ResolutionAgent_execute_logic `{Runtime} (self : Agent) (input_data : Value)
    : Coro LogicView Value :=
  view_log self "Generating resolution";;
  sleep;;
  match input_data with
  | VDict entries =>
      match _generate_solution entries with
      | Returned (type, solution) =>
          confidence ← draw_uniform "confidence";
          let resolution_data :=
            VDict (dict_display entries
                     [("solution", solution);
                      ("resolution_type", VStr "automated");
                      ("confidence", VFloat confidence)]) in
          memory_store "resolution" resolution_data false;;
          view_log self ("Generated solution: " +:+ type);;
          Return resolution_data
      | Raised e => Raise e
      end
  | _ => no_get input_data
  end.

(** ** QualityAgent *)

(** [_assess_quality] on the entries of a dict; the comparison of the
    confidence with 0.8 raises a [TypeError] when the value is no number. *)
Definition _assess_quality `{Runtime} (entries : list (string * Value)) : Outcome Q :=
  let score := 0%Q in
  let score := match dict_get "solution" entries with
               | Some _ => float_add score (literal (4 # 10))
               | None => score
               end in
  let confidence := default (VInt 0) (dict_get "confidence" entries) in
  match greater_than confidence (literal (8 # 10)) with
  | None => Raised (TypeError (error_text "compare" confidence))
  | Some above =>
      let score := if above then float_add score (literal (3 # 10)) else score in
      let score := if truthy (default VNone (dict_get "processed" entries))
                   then float_add score (literal (3 # 10)) else score in
      Returned (if Qle_bool score 1 then score else 1%Q)
  end.

Definition exceeds (x bound : Q) : bool := negb (Qle_bool x bound).

(** A payload that is no dict fails in [_assess_quality]: at
    ["solution" in data] when it is no container, at [data.get] when it
    is one. *)
Definition QualityAgent_execute_logic `{Runtime} (self : Agent) (input_data : Value)
    : Coro LogicView Value :=
  view_log self "Starting quality review";;
  sleep;;
  match input_data with
  | VDict entries =>
      match _assess_quality entries with
      | Returned quality_score =>
          let quality_data :=
            VDict (dict_display entries
                     [("quality_score", VFloat quality_score);
                      ("quality_checks",
                       VDict [("completeness", VBool (exceeds quality_score (literal (7 # 10))));
                              ("accuracy", VBool (exceeds quality_score (literal (8 # 10))));
                              ("consistency", VBool (exceeds quality_score (literal (75 # 100))))]);
                      ("approved", VBool (exceeds quality_score (literal (7 # 10))))]) in
          memory_store "quality_check" quality_data false;;
          view_log self ("Quality score: " +:+ format_float quality_score);;
          Return quality_data
      | Raised e => Raise e
      end
  | VStr _ | VList _ => no_get input_data
  | _ => Raise (TypeError (error_text "iterable" input_data))
  end.

(** ** NotificationAgent *)

Definition email : Value :=
  VDict [("type", VStr "email"); ("subject", VStr "Request Processed Successfully");
         ("status", VStr "sent")].

Definition sms : Value :=
  VDict [("type", VStr "sms"); ("message", VStr "High priority request completed");
         ("status", VStr "sent")].

(** [data.get("priority") == "high"] *)
Definition is_high (priority : option Value) : bool :=
  match priority with
  | Some (VStr p) => bool_decide (p = "high")
  | _ => false
  end.

Definition _prepare_notifications (entries : list (string * Value)) : list Value :=
  let notifications := [] in
  let notifications :=
    if truthy (default VNone (dict_get "approved" entries))
    then notifications ++ [email] else notifications in
  let notifications :=
    if is_high (dict_get "priority" entries)
    then notifications ++ [sms] else notifications in
  notifications.

Definition NotificationAgent_execute_logic `{Runtime} (self : Agent) (input_data : Value)
    : Coro LogicView Value :=
  view_log self "Sending notifications";;
  sleep;;
  match input_data with
  | VDict entries =>
      let notifications := _prepare_notifications entries in
      let notification_data :=
        VDict (dict_display entries
                 [("notifications_sent", VList notifications);
                  ("delivery_status", VStr "sent");
                  ("recipients", VList [VStr "customer"; VStr "support_team"])]) in
      memory_store "notifications" notification_data false;;
      view_log self ("Sent " +:+ pretty (length notifications) +:+ " notifications");;
      Return notification_data
  | _ => no_get input_data
  end.

(** ** AnalyticsAgent *)

Definition _generate_insights (success_rate customer_satisfaction : Q) : list Value :=
  let insights := [] in
  let insights := if exceeds success_rate (literal (95 # 100))
                  then insights ++ [VStr "High success rate maintained"] else insights in
  let insights := if exceeds customer_satisfaction (literal (45 # 10))
                  then insights ++ [VStr "Excellent customer satisfaction"] else insights in
  insights.

Definition AnalyticsAgent_execute_logic `{Runtime} (self : Agent) (input_data : Value)
    : Coro LogicView Value :=
  view_log self "Analyzing data";;
  sleep;;
  processing_time ← draw_uniform "processing_time";
  success_rate ← draw_uniform "success_rate";
  customer_satisfaction ← draw_uniform "customer_satisfaction";
  efficiency_score ← draw_uniform "efficiency_score";
  let analytics := VDict [("processing_time", VFloat processing_time);
                          ("success_rate", VFloat success_rate);
                          ("customer_satisfaction", VFloat customer_satisfaction);
                          ("efficiency_score", VFloat efficiency_score)] in
  match input_data with
  | VDict entries =>
      let analytics_data :=
        VDict (dict_display entries
                 [("analytics", analytics);
                  ("insights", VList (_generate_insights success_rate customer_satisfaction))]) in
      memory_store "analytics" analytics_data true;;
      view_log self "Analytics generated";;
      Return analytics_data
  | _ => no_mapping input_data
  end.

(** ** The classes together *)

(** The method [_execute_logic] an agent object is bound to, by its class;
    a class that does not override it has the one of [Agent]. *)
Definition specialized_host `{Runtime} : Host :=
  mkHost (λ self input_data,
            if decide (class_name self = "IntakeAgent")
            then IntakeAgent_execute_logic self input_data
            else if decide (class_name self = "ClassificationAgent")
            then ClassificationAgent_execute_logic self input_data
            else if decide (class_name self = "ProcessingAgent")
            then ProcessingAgent_execute_logic self input_data
            else if decide (class_name self = "ResolutionAgent")
            then ResolutionAgent_execute_logic self input_data
            else if decide (class_name self = "QualityAgent")
            then QualityAgent_execute_logic self input_data
            else if decide (class_name self = "NotificationAgent")
            then NotificationAgent_execute_logic self input_data
            else if decide (class_name self = "AnalyticsAgent")
            then AnalyticsAgent_execute_logic self input_data
            else Agent_execute_logic self input_data)
         format_float.

(** ** A runtime and a generated system, for running the definitions *)

(** A runtime that renders a string payload by itself and any other
    payload by the empty string, draws 1000, 1001, ... and always 9/10,
    and names an error by its kind. *)
Definition example_runtime : Runtime :=
  mkRuntime (λ v, match v with VStr s => s | _ => "" end) format_hundredths
    (λ n, (1000 + Z.of_nat n)%Z) (λ _ _, (9 # 10)%Q) (λ kind _, kind).

(** The customer-support system [generate_system] makes from an empty
    orchestrator, its objects at the references 10, 11, ... *)
Definition support : MultiAgentSystem * World :=
  generate_system "customer-support" 10 10 (mkMultiAgentSystem "Global System" ∅ 0%nat)
    example_world.

(* ===================================================================== *)
(** * Properties *)
(* ===================================================================== *)

(** ** AgentMemory *)

Lemma store_short_term key value persistent m c :
  short_term (fst (store key value persistent m c)) = <[key := value]> (short_term m).
Proof. unfold store. by destruct persistent. Qed.

Lemma store_long_term_persistent key value m c :
  long_term (fst (store key value true m c))
  = long_term m ++ [mkHistoryItem key value (readings c (cursor c))].
Proof. reflexivity. Qed.

Lemma retrieve_store key value persistent m c :
  retrieve key (fst (store key value persistent m c)) = value.
Proof.
  unfold retrieve. rewrite store_short_term.
  by rewrite lookup_insert_eq.
Qed.

Lemma search_history_spec k m item :
  item ∈ search_history k m ↔ item ∈ long_term m ∧ h_key item = k.
Proof. unfold search_history. rewrite list_elem_of_filter. tauto. Qed.

Lemma search_history_app k st lt ctx l :
  search_history k (mkAgentMemory st (lt ++ l) ctx)
  = search_history k (mkAgentMemory st lt ctx) ++ filter (λ item, h_key item = k) l.
Proof. unfold search_history. simpl. apply filter_app. Qed.

Lemma stamped_by_store key value m c :
  stamped_by c m → stamped_by (snd (store key value true m c)) (fst (store key value true m c)).
Proof.
  intros Hm item. simpl. rewrite elem_of_app, list_elem_of_singleton.
  intros [Hin | ->].
  - destruct (Hm item Hin) as (n & Hn & Ht). exists n. split; [lia | done].
  - exists (cursor c). split; [lia | done].
Qed.

Lemma stamped_by_empty c : stamped_by c empty_memory.
Proof. intros item Hin. by apply elem_of_nil in Hin. Qed.

(** C6 (as amended): [store] always writes the short-term value; with
    [persistent=True] it appends exactly one [{key, value, timestamp}]
    entry stamped with the clock reading taken by the call, with
    [persistent=False] it leaves the journal (and the clock) alone;
    [retrieve] after either store returns the value; [search_history]
    returns exactly the journal entries with the key, in journal order, so
    a persistent store adds exactly one matching entry.  That entry's
    timestamp is later than or equal to every prior entry for the key when
    the clock never steps back and the journal was stamped by earlier
    readings of it, which [store] preserves. *)
Theorem store_retrieve_search_history (m : AgentMemory) (c : Clock)
    (key : string) (value : Value) :
  let stored := store key value true m c in
  let cached := store key value false m c in
  let entry := mkHistoryItem key value (readings c (cursor c)) in
  (short_term (fst stored) = <[key := value]> (short_term m)
   ∧ long_term (fst stored) = long_term m ++ [entry])
  ∧ (short_term (fst cached) = <[key := value]> (short_term m)
     ∧ long_term (fst cached) = long_term m ∧ snd cached = c)
  ∧ (retrieve key (fst stored) = value ∧ retrieve key (fst cached) = value)
  ∧ (∀ k item, item ∈ search_history k m ↔ item ∈ long_term m ∧ h_key item = k)
  ∧ (∀ k, search_history k m `sublist_of` long_term m)
  ∧ search_history key (fst stored) = search_history key m ++ [entry]
  ∧ (∀ k, k ≠ key → search_history k (fst stored) = search_history k m)
  ∧ (∀ k, search_history k (fst cached) = search_history k m)
  ∧ (clock_monotone c → stamped_by c m →
       (∀ old, old ∈ search_history key m → (h_timestamp old <= h_timestamp entry)%Q)
       ∧ stamped_by (snd stored) (fst stored)).
Proof.
  intros stored cached entry. split_and!.
  - apply store_short_term.
  - reflexivity.
  - reflexivity.
  - reflexivity.
  - reflexivity.
  - apply (retrieve_store key value true).
  - apply (retrieve_store key value false).
  - intros k item. apply search_history_spec.
  - intros k. apply sublist_filter.
  - unfold stored. simpl. rewrite search_history_app.
    f_equal. rewrite filter_cons. simpl. by rewrite decide_True.
  - intros k Hk. unfold stored. simpl. rewrite search_history_app.
    rewrite filter_cons. simpl. rewrite decide_False by done.
    by rewrite app_nil_r.
  - reflexivity.
  - intros Hmono Hstamped. split.
    + intros old [Hin _]%search_history_spec.
      destruct (Hstamped old Hin) as (n & Hn & ->). simpl. apply Hmono. lia.
    + by apply stamped_by_store.
Qed.

(** The amended C6 at the memory left by one persistent store: the clock
    hypotheses hold there, and the second entry is not older than the
    first. *)
Lemma store_retrieve_search_history_witness :
  Forall (λ old, (h_timestamp old <= 1)%Q) (search_history "k" (fst one_store))
  ∧ retrieve "k" (fst (store "k" (VInt 2) true (fst one_store) (snd one_store))) = VInt 2.
Proof.
  pose proof (store_retrieve_search_history (fst one_store) (snd one_store) "k" (VInt 2)) as T.
  simpl in T.
  destruct T as (_ & _ & [Hr _] & _ & _ & _ & _ & _ & Ht).
  split; [| exact Hr].
  apply Forall_forall. apply Ht.
  - intros i j Hij. unfold Qle. simpl. lia.
  - apply (stamped_by_store "k" (VInt 1) empty_memory counting_clock).
    apply stamped_by_empty.
Defined.

(** C6 as stated fails.  After a first persistent store, a second one
    taken when the wall clock has been set back adds a matching entry that
    is older than the first; and on a journal that holds an entry stamped
    ahead of the clock, a persistent store adds a matching entry that is
    older, however steady the clock. *)
Lemma store_persistent_older_timestamp :
  (∃ old new,
     search_history "k" (fst first_store) = [old]
     ∧ search_history "k" (fst (store "k" (VInt 2) true (fst first_store) (snd first_store)))
       = [old; new]
     ∧ (h_timestamp new < h_timestamp old)%Q)
  ∧ (∃ old new,
       search_history "k" stale_memory = [old]
       ∧ search_history "k" (fst (store "k" (VInt 2) true stale_memory steady_clock))
         = [old; new]
       ∧ (h_timestamp new < h_timestamp old)%Q).
Proof.
  split.
  - exists (mkHistoryItem "k" (VInt 1) 1700000100), (mkHistoryItem "k" (VInt 2) 1700000000).
    split_and!; [reflexivity | reflexivity | reflexivity].
  - exists (mkHistoryItem "k" (VInt 1) 2000000000), (mkHistoryItem "k" (VInt 2) 1700000000).
    split_and!; [reflexivity | reflexivity | reflexivity].
Qed.

(** ** get_metrics *)

Lemma float_truediv_int_positive (x : float) (n : Z) :
  (0 < n)%Z →
  float_truediv_int x n = (d ← float_of_int n; Returned (SFdiv prec emax x d)).
Proof.
  intros Hn. unfold float_truediv_int.
  destruct (float_of_int n) as [d | e]; [| done]. cbn.
  by rewrite (proj2 (Z.eqb_neq n 0)) by lia.
Qed.

Lemma float_of_int_error (n : Z) e :
  float_of_int n = Raised e → e = OverflowError "int too large to convert to float".
Proof.
  unfold float_of_int. destruct (binary_normalize prec emax n 0 false); congruence.
Qed.

Lemma int_truediv_error (a b : Z) e :
  (0 < b)%Z → int_truediv a b = Raised e →
  e = OverflowError "integer division result too large for a float".
Proof.
  intros Hb. unfold int_truediv. rewrite (proj2 (Z.eqb_neq b 0)) by lia.
  destruct (SFdiv prec emax (SF_of_Z a) (SF_of_Z b)); congruence.
Qed.

(** The value of [100] as a float. *)
Lemma float_of_int_100 : float_of_int 100 = Returned (S754_finite false 7036874417766400 (-46)).
Proof. reflexivity. Qed.

(** C8 (as amended): with [total_executions == 0], [get_metrics] returns (it
    raises no [ZeroDivisionError]) with [success_rate == 0] and
    [average_execution_time == 0].  With [total_executions > 0] it raises no
    [ZeroDivisionError] either: where [total_executions] converts to a float
    and [successful_executions / total_executions] is in the range of the
    floats, it returns that quotient, rounded, times [100.0], rounded, and
    [total_time] over the float of [total_executions], rounded; otherwise
    it raises the [OverflowError] of the conversion or of the division, and
    nothing else. *)
Theorem get_metrics_rates (self : Agent) :
  let m := metrics self in
  (total_executions m = 0%Z →
     ∃ r, get_metrics self = Returned r
          ∧ success_rate r = NInt 0 ∧ average_execution_time r = NInt 0)
  ∧ ((0 < total_executions m)%Z →
     match float_of_int (total_executions m),
           int_truediv (successful_executions m) (total_executions m) with
     | Returned d, Returned q =>
         ∃ r, get_metrics self = Returned r
              ∧ success_rate r
                = NFloat (SFmul prec emax q (S754_finite false 7036874417766400 (-46)))
              ∧ average_execution_time r
                = NFloat (SFdiv prec emax (float_of_Q (total_time m)) d)
     | Raised e, _ =>
         get_metrics self = Raised e
         ∧ e = OverflowError "int too large to convert to float"
     | Returned _, Raised e =>
         get_metrics self = Raised e
         ∧ e = OverflowError "integer division result too large for a float"
     end).
Proof.
  intros m. unfold get_metrics. fold m. split.
  - intros ->. simpl. eexists. repeat split.
  - intros Hpos. apply Z.ltb_lt in Hpos as Hb. rewrite Hb.
    rewrite float_truediv_int_positive by done.
    destruct (float_of_int (total_executions m)) as [d | e] eqn:Hd.
    + destruct (int_truediv (successful_executions m) (total_executions m)) as [q | e] eqn:Hq.
      * unfold float_mul_int. rewrite float_of_int_100. cbn. eexists. repeat split.
      * cbn. split; [done |]. by eapply int_truediv_error.
    + cbn. split; [done |]. by eapply float_of_int_error.
Qed.

(** C8 on a fresh agent, and on an agent with 1 success in 3 runs that took
    10 seconds: the rate is the float 33.33333333333333, which is
    [4691249611844266 * 2^-47], and the average the float nearest to 10/3. *)
Lemma get_metrics_rates_witness :
  (∃ r, get_metrics (new_agent "Agent" "a" "A" "r" 0) = Returned r
        ∧ success_rate r = NInt 0 ∧ average_execution_time r = NInt 0)
  ∧ (∃ r, get_metrics (set_metrics (mkMetrics 3 1 2 10) (new_agent "Agent" "a" "A" "r" 0))
          = Returned r
        ∧ success_rate r = NFloat (S754_finite false 4691249611844266 (-47))
        ∧ average_execution_time r = NFloat (S754_finite false 7505999378950827 (-51))).
Proof.
  split.
  - apply (proj1 (get_metrics_rates (new_agent "Agent" "a" "A" "r" 0))).
    reflexivity.
  - apply (proj2 (get_metrics_rates
                    (set_metrics (mkMetrics 3 1 2 10) (new_agent "Agent" "a" "A" "r" 0)))).
    simpl. lia.
Defined.

(** C8 as stated fails: with [total_executions] beyond the range of the
    floats (here 10^400, all of them successful), [total_executions > 0]
    holds and [get_metrics] returns nothing: the division of [total_time]
    raises an [OverflowError]. *)
Lemma get_metrics_overflow :
  let self := set_metrics (mkMetrics (10 ^ 400) (10 ^ 400) 0 0)
                (new_agent "Agent" "a" "A" "r" 0) in
  (0 < total_executions (metrics self))%Z
  ∧ get_metrics self = Raised (OverflowError "int too large to convert to float").
Proof. split; [reflexivity | by vm_compute]. Qed.

(** ** execute_strand *)

(** C5: an unregistered name gives the not-found error dict as a returned
    value and leaves the heap alone; a registered name with a mode outside
    the three known ones gives the unknown-mode error dict likewise;
    otherwise the call is the matching strand method. *)
Theorem execute_strand_dispatch `{Host} (schedule : list nat) (self : MultiAgentSystem)
    (name : string) (input_data : Value) (mode : string) (w : World) :
  (strands self !! name = None →
     execute_strand schedule self name input_data mode w
     = Some (w, Returned (ErrorDict ("Strand " +:+ name +:+ " not found"))))
  ∧ (∀ strand, strands self !! name = Some strand →
       (mode = "sequential" →
          execute_strand schedule self name input_data mode w
          = execute_sequential strand input_data w)
       ∧ (mode = "parallel" →
          execute_strand schedule self name input_data mode w
          = execute_parallel schedule strand input_data w)
       ∧ (mode = "graph" →
          execute_strand schedule self name input_data mode w
          = execute_graph strand input_data w)
       ∧ (mode ≠ "sequential" → mode ≠ "parallel" → mode ≠ "graph" →
          execute_strand schedule self name input_data mode w
          = Some (w, Returned (ErrorDict ("Unknown execution mode: " +:+ mode))))).
Proof.
  unfold execute_strand. split.
  - by intros ->.
  - intros strand ->. split_and!.
    + by intros ->.
    + by intros ->.
    + by intros ->.
    + intros H1 H2 H3. by rewrite !decide_False.
Qed.

(** C5 on [example_system]: an unregistered name, and a registered name
    with an unknown mode. *)
Lemma execute_strand_dispatch_witness :
  @execute_strand example_host [] example_system "missing" (VDict []) "sequential" example_world
  = Some (example_world, Returned (ErrorDict "Strand missing not found"))
  ∧ @execute_strand example_host [] example_system "diamond" (VDict []) "batch" example_world
    = Some (example_world, Returned (ErrorDict "Unknown execution mode: batch")).
Proof.
  split.
  - apply (proj1 (@execute_strand_dispatch example_host [] example_system "missing"
                    (VDict []) "sequential" example_world)).
    reflexivity.
  - apply (proj2 (@execute_strand_dispatch example_host [] example_system "diamond"
                    (VDict []) "batch" example_world) diamond_strand).
    + reflexivity.
    + intros [=].
    + intros [=].
    + intros [=].
Defined.

(** ** Coroutines *)

Lemma run_bind {S A B} (c : Coro S A) (f : A → Coro S B) (s : S) :
  run (c ≫= f) s
  = match run c s with
    | (s', Returned a) => run (f a) s'
    | (s', Raised e) => (s', Raised e)
    end.
Proof.
  revert s. induction c as [a | e | k IH | s' k IH | k IH]; intros s; simpl; auto.
  apply IH.
Qed.

Lemma run_try_except {S A} (c : Coro S A) (h : PyErr → Coro S A) (s : S) :
  run (try_except c h) s
  = match run c s with
    | (s', Returned a) => (s', Returned a)
    | (s', Raised e) => if is_Exception e then run (h e) s' else (s', Raised e)
    end.
Proof.
  revert s. induction c as [a | e | k IH | s' k IH | k IH]; intros s; simpl; auto.
  by destruct (is_Exception e).
Qed.

Lemma run_try_finally {S A} (c : Coro S A) (f : Coro S unit) (s : S) :
  run (try_finally c f) s
  = match run c s with
    | (s', Returned a) => run (f;; Return a) s'
    | (s', Raised e) => run (f;; Raise e) s'
    end.
Proof.
  revert s. induction c as [a | e | k IH | s' k IH | k IH]; intros s; simpl; auto.
Qed.

Lemma run_zoom_invariant {S V A} (view : S → V) (update : V → S → S)
    (R : S → S → Prop) (c : Coro V A) :
  (∀ s, R s s) → (∀ s1 s2 s3, R s1 s2 → R s2 s3 → R s1 s3) →
  (∀ v s, R s (update v s)) →
  ∀ s, R s (fst (run (zoom view update c) s)).
Proof.
  intros Hrefl Htrans Hupd.
  induction c as [a | e | k IH | v k IH | k IH]; intros s; simpl; auto.
  eapply Htrans; [apply Hupd | apply IH].
Qed.

(** ** The logic and the envelope *)

Lemma logic_frame_refl self w : logic_frame self w w.
Proof. by split. Qed.

Lemma logic_frame_trans self w1 w2 w3 :
  logic_frame self w1 w2 → logic_frame self w2 w3 → logic_frame self w1 w3.
Proof.
  intros [H1 E1] [H2 E2]. split.
  - intros r Hr. by rewrite H2, H1.
  - unfold same_envelope in *. by rewrite E2.
Qed.

Lemma logic_frame_update self v w : logic_frame self w (logic_update self v w).
Proof.
  split.
  - intros r Hr. simpl. by rewrite fn_lookup_insert_ne.
  - unfold same_envelope. simpl. by rewrite fn_lookup_insert.
Qed.

Lemma execute_logic_frame `{Host} self input_data w :
  logic_frame self w (after (execute_logic self input_data) w).
Proof.
  unfold after, execute_logic. simpl.
  apply (run_zoom_invariant _ _ (logic_frame self)).
  - apply logic_frame_refl.
  - apply logic_frame_trans.
  - apply logic_frame_update.
Qed.

Lemma same_envelope_fields a a' :
  same_envelope a a' →
  class_name a' = class_name a ∧ agent_id a' = agent_id a
  ∧ agent_name a' = agent_name a ∧ role a' = role a ∧ memory a' = memory a
  ∧ status a' = status a ∧ metrics a' = metrics a.
Proof.
  destruct a, a'. unfold same_envelope. simpl. intros [= -> -> -> -> -> -> ]. done.
Qed.

(** The run of [process], piece by piece. *)
Lemma run_process `{Host} self input_data w :
  let w0 := after (process_entry self) w in
  let start_time := readings (w_clock w) (cursor (w_clock w)) in
  run (process self input_data) w
  = match run (execute_logic self input_data) w0 with
    | (w1, Returned result) =>
        (after (process_finally self) (after (process_success self start_time result) w1),
         Returned result)
    | (w1, Raised e) =>
        if is_Exception e
        then (after (process_finally self) (after (process_handler self e) w1), Raised e)
        else (after (process_finally self) w1, Raised e)
    end.
Proof.
  intros w0 start_time. unfold process.
  rewrite run_bind. change (run (process_entry self) w) with (w0, @Returned Q start_time).
  cbv beta iota.
  rewrite run_try_finally, run_try_except. unfold process_body. rewrite run_bind.
  destruct (run (execute_logic self input_data) w0) as [w1 [result | e]].
  - reflexivity.
  - destruct (is_Exception e); reflexivity.
Qed.

Lemma after_entry_self self w :
  agent_at (after (process_entry self) w) self = set_status PROCESSING (agent_at w self).
Proof. unfold after. simpl. by rewrite fn_lookup_insert. Qed.

Lemma after_entry_other self w r :
  r ≠ self → agent_at (after (process_entry self) w) r = agent_at w r.
Proof. intros Hr. unfold after. simpl. by rewrite fn_lookup_insert_ne. Qed.

Lemma after_finally_self self w :
  agent_at (after (process_finally self) w) self
  = set_status IDLE (set_metrics (incr_total (metrics (agent_at w self))) (agent_at w self)).
Proof. unfold after. simpl. by rewrite !fn_lookup_insert. Qed.

Lemma after_finally_other self w r :
  r ≠ self → agent_at (after (process_finally self) w) r = agent_at w r.
Proof. intros Hr. unfold after. simpl. by rewrite !fn_lookup_insert_ne. Qed.

Lemma after_handler_self self e w :
  let a := agent_at w self in
  agent_at (after (process_handler self e) w) self
  = mkAgent (class_name a) (agent_id a) (agent_name a) (role a) (memory a) ERROR
      (execution_log a
       ++ [mkLogEntry (readings (w_clock w) (cursor (w_clock w))) (agent_name a)
             "error" ("Error: " +:+ str_e e)])
      (incr_failed (metrics a)).
Proof. unfold after. simpl. by rewrite !fn_lookup_insert. Qed.

Lemma after_handler_other self e w r :
  r ≠ self → agent_at (after (process_handler self e) w) r = agent_at w r.
Proof. intros Hr. unfold after. simpl. by rewrite !fn_lookup_insert_ne. Qed.

Lemma after_success_self `{Host} self start_time result w :
  let a := agent_at w self in
  let t := readings (w_clock w) (cursor (w_clock w)) in
  agent_at (after (process_success self start_time result) w) self
  = mkAgent (class_name a) (agent_id a) (agent_name a) (role a) (memory a) COMPLETED
      (execution_log a
       ++ [mkLogEntry (readings (w_clock w) (S (cursor (w_clock w)))) (agent_name a) "info"
             ("Completed processing in " +:+ format_2f (t - start_time)%Q +:+ "s")])
      (add_total_time (t - start_time)%Q (incr_successful (metrics a))).
Proof. unfold after. simpl. by rewrite !fn_lookup_insert. Qed.

Lemma after_success_other `{Host} self start_time result w r :
  r ≠ self → agent_at (after (process_success self start_time result) w) r = agent_at w r.
Proof. intros Hr. unfold after. simpl. by rewrite !fn_lookup_insert_ne. Qed.

(** What one awaited [process] does to the heap: only the agent object
    [self] changes among the agents; its identity fields stay; it ends
    [IDLE] with one more execution, counted as a success when the call
    returns and as a failure when it raises an [Exception]. *)
Lemma process_effect `{Host} self input_data w :
  let r := run (process self input_data) w in
  let a := agent_at w self in
  let a' := agent_at (fst r) self in
  (∀ r', r' ≠ self → agent_at (fst r) r' = agent_at w r')
  ∧ (class_name a' = class_name a ∧ agent_id a' = agent_id a
     ∧ agent_name a' = agent_name a ∧ role a' = role a ∧ memory a' = memory a)
  ∧ status a' = IDLE
  ∧ total_executions (metrics a') = (total_executions (metrics a) + 1)%Z
  ∧ match snd r with
    | Returned _ =>
        successful_executions (metrics a') = (successful_executions (metrics a) + 1)%Z
        ∧ failed_executions (metrics a') = failed_executions (metrics a)
    | Raised e =>
        successful_executions (metrics a') = successful_executions (metrics a)
        ∧ failed_executions (metrics a')
          = (failed_executions (metrics a) + if is_Exception e then 1 else 0)%Z
    end.
Proof.
  intros r a a'. subst a' r. rewrite run_process.
  set (w0 := after (process_entry self) w).
  destruct (run (execute_logic self input_data) w0) as [w1 o] eqn:Hrun.
  assert (HF : logic_frame self w0 w1).
  { pose proof (execute_logic_frame self input_data w0) as HF.
    unfold after in HF. by rewrite Hrun in HF. }
  destruct HF as [Hother Hself].
  apply same_envelope_fields in Hself as (Hc & Hi & Hn & Hr & Hmem & Hs & Hm).
  assert (Hw0 : agent_at w0 self = set_status PROCESSING a) by apply after_entry_self.
  assert (Hw0' : ∀ r', r' ≠ self → agent_at w0 r' = agent_at w r')
    by (intros; by apply after_entry_other).
  rewrite Hw0 in Hc, Hi, Hn, Hr, Hmem, Hs, Hm. simpl in Hc, Hi, Hn, Hr, Hmem, Hs, Hm.
  clearbody w0. fold a.
  destruct o as [result | e]; [| destruct (is_Exception e) eqn:HE]; simpl fst; simpl snd;
    rewrite ?HE.
  - split.
    { intros r' Hr'. rewrite after_finally_other, after_success_other, Hother by done.
      by apply Hw0'. }
    rewrite after_finally_self, after_success_self. simpl.
    rewrite Hc, Hi, Hn, Hr, Hmem, Hm, ?HE. done.
  - split.
    { intros r' Hr'. rewrite after_finally_other, after_handler_other, Hother by done.
      by apply Hw0'. }
    rewrite after_finally_self, after_handler_self. simpl.
    rewrite Hc, Hi, Hn, Hr, Hmem, Hm, ?HE. done.
  - split.
    { intros r' Hr'. rewrite after_finally_other, Hother by done.
      by apply Hw0'. }
    rewrite after_finally_self. simpl.
    rewrite Hc, Hi, Hn, Hr, Hmem, Hm, ?HE. split_and!; try done. lia.
Qed.

(** C3 (as amended): in all cases [process] leaves the agent [IDLE] with
    [total_executions] incremented exactly once, and a failure of the logic
    function is re-raised to the caller.  When that failure is an instance
    of [Exception], the [except] block first sets the status to [ERROR],
    increments [failed_executions] and appends an error-level log entry,
    and the [finally] block runs after it. *)
Theorem process_failure_and_cleanup `{Host} (self : AgentRef) (input_data : Value)
    (w : World) :
  let w0 := after (process_entry self) w in
  let w' := fst (run (process self input_data) w) in
  (status (agent_at w' self) = IDLE
   ∧ total_executions (metrics (agent_at w' self))
     = (total_executions (metrics (agent_at w self)) + 1)%Z)
  ∧ (∀ w1 e, run (execute_logic self input_data) w0 = (w1, Raised e) →
       snd (run (process self input_data) w) = Raised e
       ∧ (is_Exception e = true →
          let w2 := after (process_handler self e) w1 in
          status (agent_at w2 self) = ERROR
          ∧ w' = after (process_finally self) w2
          ∧ failed_executions (metrics (agent_at w' self))
            = (failed_executions (metrics (agent_at w self)) + 1)%Z
          ∧ ∃ t, execution_log (agent_at w' self)
                 = execution_log (agent_at w1 self)
                   ++ [mkLogEntry t (agent_name (agent_at w self)) "error"
                         ("Error: " +:+ str_e e)])).
Proof.
  intros w0 w'. split.
  - pose proof (process_effect self input_data w) as (_ & _ & Hs & Ht & _). done.
  - intros w1 e Hrun.
    pose proof (process_effect self input_data w) as (_ & (_ & _ & Hn & _) & _ & _ & Hm).
    fold w' in Hn, Hm.
    assert (Hp : run (process self input_data) w
                 = if is_Exception e
                   then (after (process_finally self) (after (process_handler self e) w1), Raised e)
                   else (after (process_finally self) w1, Raised e)).
    { rewrite run_process. fold w0. by rewrite Hrun. }
    split.
    + rewrite Hp. by destruct (is_Exception e).
    + intros HE. rewrite HE in Hp. unfold w' in *. rewrite Hp in *. simpl fst in *. simpl snd in Hm.
      cbv beta iota in Hm. rewrite HE in Hm. split_and!.
      * by rewrite after_handler_self.
      * done.
      * apply Hm.
      * eexists. rewrite after_finally_self, after_handler_self. simpl.
        pose proof (execute_logic_frame self input_data w0) as [_ Hself].
        unfold after in Hself. rewrite Hrun in Hself.
        apply same_envelope_fields in Hself as (_ & _ & Hname & _).
        simpl in Hname. rewrite Hname, fn_lookup_insert. done.
Qed.

(** The amended C3 on the failing agent of [example_world]: its logic
    raises a [ValueError], which is an [Exception]. *)
Lemma process_failure_and_cleanup_witness :
  snd (run (@process example_host 4%nat VNone) example_world)
  = Raised (ValueError "Empty input received")
  ∧ failed_executions
      (metrics (agent_at (fst (run (@process example_host 4%nat VNone) example_world)) 4%nat))
    = 1%Z.
Proof.
  pose proof (proj2 (@process_failure_and_cleanup example_host 4%nat VNone example_world)
                (after (process_entry 4%nat) example_world)
                (ValueError "Empty input received") eq_refl) as [Hraise Hexc].
  split; [exact Hraise |].
  destruct (Hexc eq_refl) as (_ & _ & Hfailed & _). exact Hfailed.
Defined.

(** C3 as stated fails: the logic of the cancelled agent fails with an
    error that is not an [Exception]; [process] re-raises it, but
    [failed_executions] is not incremented and no log entry is appended. *)
Lemma process_cancelled_not_recorded :
  let w0 := after (process_entry 5%nat) example_world in
  let w' := fst (run (@process example_host 5%nat VNone) example_world) in
  snd (run (@execute_logic example_host 5%nat VNone) w0) = Raised CancelledError
  ∧ snd (run (@process example_host 5%nat VNone) example_world) = Raised CancelledError
  ∧ failed_executions (metrics (agent_at w' 5%nat))
    = failed_executions (metrics (agent_at example_world 5%nat))
  ∧ execution_log (agent_at w' 5%nat) = [].
Proof. vm_compute. done. Qed.

(** C10 (as amended): every call of [process] increments
    [total_executions] by exactly one and no counter ever decreases.  A
    call that returns, or that raises an instance of [Exception],
    increments exactly one of [successful_executions] and
    [failed_executions] by exactly one, so it preserves
    [total_executions == successful_executions + failed_executions]. *)
Theorem process_counters `{Host} (self : AgentRef) (input_data : Value) (w : World) :
  let o := snd (run (process self input_data) w) in
  let m := metrics (agent_at w self) in
  let m' := metrics (agent_at (fst (run (process self input_data) w)) self) in
  (total_executions m' = total_executions m + 1
   ∧ successful_executions m ≤ successful_executions m'
   ∧ failed_executions m ≤ failed_executions m')%Z
  ∧ ((∀ e, o = Raised e → is_Exception e = true) →
     ((successful_executions m' = successful_executions m + 1
       ∧ failed_executions m' = failed_executions m)
      ∨ (successful_executions m' = successful_executions m
         ∧ failed_executions m' = failed_executions m + 1))%Z
     ∧ (total_executions m = successful_executions m + failed_executions m →
        total_executions m' = successful_executions m' + failed_executions m')%Z).
Proof.
  intros o m m'.
  pose proof (process_effect self input_data w) as (_ & _ & _ & Ht & Hm).
  fold o m m' in Ht, Hm. split.
  - destruct o as [result | e]; [| destruct (is_Exception e)]; lia.
  - intros Hexc. destruct o as [result | e].
    + split; [left | ]; lia.
    + rewrite (Hexc e eq_refl) in Hm. split; [right | ]; lia.
Qed.

(** The amended C10 on a base-class agent of [example_world]: the call
    returns, and the counters go from 0 = 0 + 0 to 1 = 1 + 0. *)
Lemma process_counters_witness :
  let m' := metrics (agent_at (fst (run (@process example_host 6%nat VNone) example_world)) 6%nat) in
  (total_executions m' = successful_executions m' + failed_executions m')%Z.
Proof.
  apply (proj2 (@process_counters example_host 6%nat VNone example_world)).
  - intros e He. vm_compute in He. discriminate He.
  - reflexivity.
Defined.

(** C10 as stated fails: for the cancelled agent the equation holds before
    the call (0 = 0 + 0) and not after it (1 ≠ 0 + 0): the call raises, and
    neither [successful_executions] nor [failed_executions] moves. *)
Lemma process_cancelled_breaks_counters :
  let m := metrics (agent_at example_world 5%nat) in
  let m' := metrics (agent_at (fst (run (@process example_host 5%nat VNone) example_world)) 5%nat) in
  (total_executions m = successful_executions m + failed_executions m)%Z
  ∧ snd (run (@process example_host 5%nat VNone) example_world) = Raised CancelledError
  ∧ (total_executions m' ≠ successful_executions m' + failed_executions m')%Z
  ∧ successful_executions m' = successful_executions m
  ∧ failed_executions m' = failed_executions m.
Proof. vm_compute. split_and!; done. Qed.

(** ** Sequential mode *)

Lemma chained_length `{Host} input l w w' outs :
  chained input l w w' outs → length outs = length l.
Proof. induction 1; simpl; auto. Qed.

Lemma chained_frame `{Host} input l w w' outs r :
  chained input l w w' outs → r ∉ l → agent_at w' r = agent_at w r.
Proof.
  induction 1 as [| input agent rest w w1 w' out outs Hrun _ IH]; [done |].
  intros Hr. apply not_elem_of_cons in Hr as [Hne Hrest].
  rewrite IH by done.
  pose proof (process_effect agent input w) as [Hother _].
  rewrite Hrun in Hother. by apply Hother.
Qed.

Lemma default_last_cons {A} (x a : A) (l : list A) :
  default x (last (a :: l)) = default a (last l).
Proof. rewrite last_cons. by destruct (last l). Qed.

(** The loop either returns the chain of outputs or stops at the first
    agent whose [process] raises. *)
Lemma sequential_loop_spec `{Host} remaining current_data results w :
  (∃ w' outs,
      sequential_loop remaining current_data results w
      = Some (w', Returned (default current_data (last outs), results ++ outs))
      ∧ chained current_data remaining w w' outs)
  ∨ (∃ w' e reached agent rest outs w1,
      sequential_loop remaining current_data results w = Some (w', Raised e)
      ∧ remaining = reached ++ agent :: rest
      ∧ chained current_data reached w w1 outs
      ∧ run (process agent (default current_data (last outs))) w1 = (w', Raised e)).
Proof.
  revert current_data results w.
  induction remaining as [| agent rest IH]; intros current_data results w.
  - left. exists w, []. split; [| constructor]. simpl. by rewrite app_nil_r.
  - simpl. unfold mbind, M_bind, await.
    destruct (run (process agent current_data) w) as [w1 [out | e]] eqn:Hrun.
    + destruct (IH out (results ++ [out]) w1)
        as [(w' & outs & Hloop & Hch)
           | (w' & e & reached & a & rest' & outs & w2 & Hloop & -> & Hch & Hfail)].
      * left. exists w', (out :: outs). split; [| by econstructor].
        rewrite Hloop, <- app_assoc. simpl.
        by rewrite default_last_cons.
      * right. exists w', e, (agent :: reached), a, rest', (out :: outs), w2.
        split_and!; [done | done | by econstructor |].
        by rewrite default_last_cons.
    + right. exists w1, e, [], agent, rest, [], w.
      split_and!; [done | done | constructor | done].
Qed.

Lemma sequential_loop_cons `{Host} agent rest current_data results w :
  sequential_loop (agent :: rest) current_data results w
  = match run (process agent current_data) w with
    | (w1, Returned result) => sequential_loop rest result (results ++ [result]) w1
    | (w1, Raised e) => Some (w1, Raised e)
    end.
Proof. reflexivity. Qed.

Lemma sequential_loop_returns `{Host} remaining current_data results w w' outs :
  chained current_data remaining w w' outs →
  sequential_loop remaining current_data results w
  = Some (w', Returned (default current_data (last outs), results ++ outs)).
Proof.
  intros Hch. revert results.
  induction Hch as [| input agent rest w w1 w' out outs Hrun _ IH]; intros results.
  - cbn. by rewrite app_nil_r.
  - rewrite sequential_loop_cons, Hrun, IH, <- app_assoc.
    by rewrite default_last_cons.
Qed.

Lemma sequential_loop_raises `{Host} reached agent rest current_data results w w1 w' outs e :
  chained current_data reached w w1 outs →
  run (process agent (default current_data (last outs))) w1 = (w', Raised e) →
  sequential_loop (reached ++ agent :: rest) current_data results w = Some (w', Raised e).
Proof.
  intros Hch. revert results.
  induction Hch as [| input a rest' w w1 w2 out outs Hrun _ IH]; intros results Hfail.
  - cbn [app]. rewrite sequential_loop_cons. cbn [last default] in Hfail.
    by rewrite Hfail.
  - cbn [app]. rewrite sequential_loop_cons, Hrun. apply IH.
    by rewrite default_last_cons in Hfail.
Qed.

(** C1: a sequential run returns exactly when every agent's [process]
    returns along the chain (list order, each agent on the output of the one
    before, the first on the initial input); [results] then lists the
    outputs in that order, one per agent, and [final_output] is the last of
    them.  It raises exactly when some agent's [process] raises after the
    agents before it returned along the chain: the run raises that error,
    returns no result, and ends in the heap that failing call left, in
    which the agents that were not reached are as they were. *)
Theorem execute_sequential_chain `{Host} (self : AgentStrand) (initial_input : Value)
    (w : World) :
  (∀ w' d,
     execute_sequential self initial_input w = Some (w', Returned d)
     ↔ ∃ outs, chained initial_input (agents self) w w' outs
               ∧ d = SequentialDict (strand_name self) outs
                       (default initial_input (last outs)))
  ∧ (∀ w' e,
       execute_sequential self initial_input w = Some (w', Raised e)
       ↔ ∃ reached agent rest outs w1,
           agents self = reached ++ agent :: rest
           ∧ chained initial_input reached w w1 outs
           ∧ run (process agent (default initial_input (last outs))) w1 = (w', Raised e))
  ∧ (∀ w' e reached agent rest outs w1,
       agents self = reached ++ agent :: rest →
       chained initial_input reached w w1 outs →
       run (process agent (default initial_input (last outs))) w1 = (w', Raised e) →
       ∀ r, r ∉ reached → r ≠ agent → agent_at w' r = agent_at w r)
  ∧ (∀ w' outs,
       chained initial_input (agents self) w w' outs → length outs = length (agents self))
  ∧ execute_sequential self initial_input w ≠ None.
Proof.
  unfold execute_sequential, mbind, M_bind.
  destruct (sequential_loop_spec (agents self) initial_input [] w)
    as [(w1 & outs & Hloop & Hch)
       | (w1 & e1 & reached & agent & rest & outs & w2 & Hloop & Hag & Hch & Hfail)].
  - rewrite Hloop. split_and!.
    + intros w' d. split.
      * intros [= <- <-]. by exists outs.
      * intros (outs' & Hch' & ->).
        pose proof (sequential_loop_returns _ _ [] _ _ _ Hch') as Hloop'.
        rewrite Hloop in Hloop'. by injection Hloop' as -> -> ->.
    + intros w' e. split; [done |].
      intros (reached & agent & rest & outs' & w2 & Hag & Hch' & Hfail).
      pose proof (sequential_loop_raises _ _ rest _ [] _ _ _ _ _ Hch' Hfail) as Hloop'.
      rewrite <- Hag, Hloop in Hloop'. done.
    + intros w' e reached agent rest outs' w2 _ Hch' Hfail r Hr Hne.
      pose proof (process_effect agent (default initial_input (last outs')) w2) as [Hother _].
      rewrite Hfail in Hother. cbn [fst] in Hother. rewrite Hother by done.
      by eapply chained_frame.
    + intros w' outs'. apply chained_length.
    + done.
  - rewrite Hloop. split_and!.
    + intros w' d. split; [done |].
      intros (outs' & Hch' & ->).
      pose proof (sequential_loop_returns _ _ [] _ _ _ Hch') as Hloop'.
      rewrite Hloop in Hloop'. done.
    + intros w' e. split.
      * intros [= <- <-]. by exists reached, agent, rest, outs, w2.
      * intros (reached' & agent' & rest' & outs' & w2' & Hag' & Hch' & Hfail').
        pose proof (sequential_loop_raises _ _ rest' _ [] _ _ _ _ _ Hch' Hfail') as Hloop'.
        rewrite <- Hag', Hloop in Hloop'. by injection Hloop' as -> ->.
    + intros w' e reached' agent' rest' outs' w2' _ Hch' Hfail' r Hr Hne.
      pose proof (process_effect agent' (default initial_input (last outs')) w2') as [Hother _].
      rewrite Hfail' in Hother. cbn [fst] in Hother. rewrite Hother by done.
      by eapply chained_frame.
    + intros w' outs'. apply chained_length.
    + done.
Qed.

Lemma run_eta {S A} (c : Coro S A) (s : S) (o : Outcome A) :
  snd (run c s) = o → run c s = (fst (run c s), o).
Proof. intros <-. by destruct (run c s). Qed.

(** C1 on [broken_strand] (agents 0, 4, 1): agent 0 returns, agent 4 raises
    on the output of agent 0, the run raises that error, and agent 1, which
    was not reached, is as it was. *)
Lemma execute_sequential_chain_witness :
  let w1 := after (@process example_host 0%nat VNone) example_world in
  let w' := after (@process example_host 4%nat (VList [VStr "A"])) w1 in
  @execute_sequential example_host broken_strand VNone example_world
  = Some (w', Raised (ValueError "Empty input received"))
  ∧ agent_at w' 1%nat = agent_at example_world 1%nat.
Proof.
  intros w1 w'.
  pose proof (@execute_sequential_chain example_host broken_strand VNone example_world)
    as (_ & Hraise & Hframe & _).
  assert (Hch : @chained example_host VNone [0%nat] example_world w1 [VList [VStr "A"]]).
  { econstructor; [| constructor]. apply run_eta. reflexivity. }
  assert (Hfail : run (@process example_host 4%nat (default VNone (last [VList [VStr "A"]]))) w1
                  = (w', Raised (ValueError "Empty input received"))).
  { apply run_eta. reflexivity. }
  split.
  - apply Hraise. exists [0%nat], 4%nat, [1%nat], [VList [VStr "A"]], w1. done.
  - apply (Hframe w' _ [0%nat] 4%nat [1%nat] _ w1 eq_refl Hch Hfail).
    + by intros ?%list_elem_of_singleton.
    + done.
Defined.

(** ** Parallel mode *)

Lemma run_finishes {A} (c : Coro World A) w : finishes c (snd (run c w)).
Proof.
  revert w. induction c as [a | e | k IH | w' k IH | k IH]; intros w; simpl;
    try by constructor.
  econstructor. apply IH.
Qed.

Lemma resume_finishes {A} (c : Coro World A) w :
  match resume c w with
  | (_, Finished o) => finishes c o
  | (_, Suspended k) => ∀ o, finishes k o → finishes c o
  end.
Proof.
  revert w. induction c as [a | e | k IH | w' k IH | k IH]; intros w; simpl;
    try by constructor.
  - specialize (IH w w). destruct (resume (k w) w) as [w1 [o | k']];
      [by econstructor | intros o Ho; econstructor; by apply IH].
  - specialize (IH w'). destruct (resume k w') as [w1 [o | k']];
      [by constructor | intros o Ho; constructor; by apply IH].
Qed.

Lemma collect_Some {A} (tasks : list (Task A)) results :
  collect tasks = Some results ↔ tasks = Done <$> results.
Proof.
  revert results. induction tasks as [| [c | a | e] tasks IH]; intros results; simpl.
  - split; [intros [= <-] | intros E]; [done |].
    by destruct results.
  - split; [done | by destruct results].
  - destruct (collect tasks) as [rs |] eqn:E; simpl.
    + split.
      * intros [= <-]. simpl. f_equal. by apply IH.
      * destruct results as [| r results]; [done |]. simpl. intros [= -> H].
        apply IH in H. by injection H as ->.
    + split; [done |]. destruct results as [| r results]; [done |].
      simpl. intros [= -> H]. by apply IH in H.
  - split; [done | by destruct results].
Qed.

Lemma collect_pending {A} (tasks : list (Task A)) i c :
  tasks !! i = Some (Pending c) → collect tasks = None.
Proof.
  intros Hi. destruct (collect tasks) as [results |] eqn:E; [| done].
  apply collect_Some in E. subst tasks.
  rewrite list_lookup_fmap in Hi. by destruct (results !! i).
Qed.

(** One step on a pending task, and on any other index. *)
Lemma step_pending {A} i (g : Gathering A) w c :
  children g !! i = Some (Pending c) →
  step i (g, w)
  = (mkGathering (<[i := settle (resume c w).2]> (children g))
       (match exception g with
        | Some e => Some e
        | None => raised (resume c w).2
        end), (resume c w).1).
Proof. intros Hi. unfold step. cbn [fst snd]. rewrite Hi. by destruct (resume c w). Qed.

Lemma step_skip {A} i (g : Gathering A) w :
  (∀ c, children g !! i ≠ Some (Pending c)) → step i (g, w) = (g, w).
Proof.
  intros Hi. unfold step. cbn [fst snd].
  destruct (children g !! i) as [[c | a | e] |]; [by destruct (Hi c) | done..].
Qed.

Lemma wait_done {A} schedule (g : Gathering A) results w :
  collect (children g) = Some results → wait schedule g w = Some (w, Returned results).
Proof. intros E. destruct schedule; simpl; by rewrite E. Qed.

Lemma wait_cons {A} i schedule (g : Gathering A) w :
  collect (children g) = None →
  wait (i :: schedule) g w = wait schedule (step i (g, w)).1 (step i (g, w)).2.
Proof. intros E. simpl. rewrite E. by destruct (step i (g, w)). Qed.

Lemma interleaved_app {A} (ts : list (Task A)) w order1 errors1 ts1 w1 order2 errors2 ts2 w2 :
  interleaved ts w order1 errors1 ts1 w1 →
  interleaved ts1 w1 order2 errors2 ts2 w2 →
  interleaved ts w (order1 ++ order2) (errors1 ++ errors2) ts2 w2.
Proof.
  induction 1 as [| ts w i c w1' p order errors ts' w' Hi Hres _ IH]; intros H2; [done |].
  cbn [app]. rewrite <- app_assoc. econstructor; [done | done | by apply IH].
Qed.

Lemma first_error_app x errors1 errors2 :
  first_error (first_error x errors1) errors2 = first_error x (errors1 ++ errors2).
Proof. destruct x; [done |]. by destruct errors1. Qed.

(** One step of the loop is a step of the interleaving, or none. *)
Lemma step_interleaved {A} i (g : Gathering A) w :
  ∃ order errors,
    interleaved (children g) w order errors (children (step i (g, w)).1) (step i (g, w)).2
    ∧ exception (step i (g, w)).1 = first_error (exception g) errors
    ∧ ((∃ c, children g !! i = Some (Pending c)) → order = [i]).
Proof.
  destruct (children g !! i) as [[c | a | e] |] eqn:Hi.
  - rewrite (step_pending _ _ _ _ Hi). cbn [fst snd].
    exists [i], (option_list (pair i <$> raised (resume c w).2) ++ []).
    split_and!; [| | done].
    + apply (interleaved_cons _ _ i c (resume c w).1 (resume c w).2);
        [done | by destruct (resume c w) | constructor].
    + destruct (exception g); [done |]. simpl. by destruct (raised (resume c w).2).
  - rewrite step_skip by congruence. exists [], []. cbn [fst snd].
    split_and!; [apply interleaved_nil | by destruct (exception g) |].
    intros [c ?]. congruence.
  - rewrite step_skip by congruence. exists [], []. cbn [fst snd].
    split_and!; [apply interleaved_nil | by destruct (exception g) |].
    intros [c ?]. congruence.
  - rewrite step_skip by congruence. exists [], []. cbn [fst snd].
    split_and!; [apply interleaved_nil | by destruct (exception g) |].
    intros [c ?]. congruence.
Qed.

Lemma step_length {A} i (s : Gathering A * World) :
  length (children (step i s).1) = length (children s.1).
Proof.
  unfold step. destruct (children s.1 !! i) as [[c | a | e] |]; [| done..].
  destruct (resume c s.2). cbn [fst children]. by rewrite length_insert.
Qed.

Lemma step_lookup_ne {A} i j (s : Gathering A * World) :
  i ≠ j → children (step i s).1 !! j = children s.1 !! j.
Proof.
  intros Hne. unfold step. destruct (children s.1 !! i) as [[c | a | e] |]; [| done..].
  destruct (resume c s.2). cbn [fst children]. by rewrite list_lookup_insert_ne.
Qed.

(** The first steps: every task takes one, in list order. *)
Lemma first_steps_interleaved {A} n i (s : Gathering A * World) :
  (∀ j, i ≤ j < i + n → ∃ c, children s.1 !! j = Some (Pending c)) →
  ∃ errors,
    interleaved (children s.1) s.2 (seq i n) errors
      (children (foldl (λ s i, step i s) s (seq i n)).1) (foldl (λ s i, step i s) s (seq i n)).2
    ∧ exception (foldl (λ s i, step i s) s (seq i n)).1 = first_error (exception s.1) errors.
Proof.
  revert i s. induction n as [| n IH]; intros i s Hpending.
  - exists []. cbn [seq foldl]. split; [apply interleaved_nil | by destruct (exception s.1)].
  - cbn [seq foldl].
    destruct s as [g w].
    destruct (step_interleaved i g w) as (order & errors1 & Hstep & Hexc & Horder).
    rewrite Horder in Hstep by (apply Hpending; lia).
    destruct (IH (S i) (step i (g, w))) as (errors2 & Hrest & Hexc2).
    { intros j Hj. rewrite step_lookup_ne by lia. apply Hpending. lia. }
    exists (errors1 ++ errors2). split.
    + exact (interleaved_app _ _ _ _ _ _ _ _ _ _ Hstep Hrest).
    + by rewrite Hexc2, Hexc, first_error_app.
Qed.

Lemma start_interleaved {A} (coros : list (Coro World A)) w :
  ∃ errors,
    interleaved (Pending <$> coros) w (seq 0 (length coros)) errors
      (children (start coros w).1) (start coros w).2
    ∧ exception (start coros w).1 = snd <$> head errors.
Proof.
  destruct (first_steps_interleaved (length coros) 0 (mkGathering (Pending <$> coros) None, w))
    as (errors & Hsteps & Hexc).
  - intros j Hj. cbn [fst children]. rewrite list_lookup_fmap.
    destruct (lookup_lt_is_Some_2 coros j) as [c ->]; [lia |]. by exists c.
  - by exists errors.
Qed.

(** What a wait that ended went through. *)
Lemma wait_interleaved {A} schedule (g : Gathering A) w w' o :
  wait schedule g w = Some (w', o) →
  ∃ order errors ts',
    interleaved (children g) w order errors ts' w'
    ∧ match o with
      | Returned results => ts' = Done <$> results
      | Raised e => first_error (exception g) errors = Some e
      end.
Proof.
  revert g w. induction schedule as [| i schedule IH]; intros g w.
  - simpl. destruct (collect (children g)) as [results |] eqn:E.
    + intros [= <- <-]. exists [], [], (children g). split; [constructor |].
      by apply collect_Some.
    + destruct (exception g) as [e |] eqn:Hexc; [| done]. intros [= <- <-].
      exists [], [], (children g). split; [constructor | done].
  - destruct (collect (children g)) as [results |] eqn:E.
    + rewrite (wait_done _ _ _ _ E). intros [= <- <-].
      exists [], [], (children g). split; [constructor |]. by apply collect_Some.
    + rewrite (wait_cons _ _ _ _ E). intros Hrun.
      destruct (IH _ _ Hrun) as (order2 & errors2 & ts' & Hrest & Ho).
      destruct (step_interleaved i g w) as (order1 & errors1 & Hstep & Hexc & _).
      exists (order1 ++ order2), (errors1 ++ errors2), ts'. split.
      * exact (interleaved_app _ _ _ _ _ _ _ _ _ _ Hstep Hrest).
      * destruct o as [results | e]; [done |].
        by rewrite <- first_error_app, <- Hexc.
Qed.

Lemma gather_interleaved {A} schedule (coros : list (Coro World A)) w w' o :
  gather schedule coros w = Some (w', o) →
  ∃ order errors ts',
    interleaved (Pending <$> coros) w (seq 0 (length coros) ++ order) errors ts' w'
    ∧ match o with
      | Returned results => ts' = Done <$> results
      | Raised e => snd <$> head errors = Some e
      end.
Proof.
  unfold gather. destruct (start_interleaved coros w) as (errors1 & Hstart & Hexc).
  destruct (start coros w) as [g w1]. cbn [fst snd] in *. intros Hrun.
  destruct (wait_interleaved _ _ _ _ _ Hrun) as (order & errors2 & ts' & Hrest & Ho).
  exists order, (errors1 ++ errors2), ts'. split.
  - exact (interleaved_app _ _ _ _ _ _ _ _ _ _ Hstart Hrest).
  - destruct o as [results | e]; [done |].
    rewrite Hexc in Ho. destruct errors1; [by destruct errors2 | done].
Qed.

Lemma interleaved_length {A} (ts : list (Task A)) w order errors ts' w' :
  interleaved ts w order errors ts' w' → length ts' = length ts.
Proof.
  induction 1 as [| ts w i c w1 p order errors ts' w' Hi Hres _ IH]; [done |].
  by rewrite IH, length_insert.
Qed.

(** A task that has ended stays as it is. *)
Lemma interleaved_ended {A} (ts : list (Task A)) w order errors ts' w' i t :
  interleaved ts w order errors ts' w' →
  ts !! i = Some t → is_pending t = false → ts' !! i = Some t.
Proof.
  induction 1 as [| ts w j c w1 p order errors ts' w' Hj Hres _ IH]; [done |].
  intros Hi Ht. apply IH; [| done].
  rewrite list_lookup_insert_ne; [done |]. intros ->. rewrite Hj in Hi.
  injection Hi as <-. done.
Qed.

(** A task whose step raised ends up failed with that error. *)
Lemma interleaved_errors {A} (ts : list (Task A)) w order errors ts' w' i e :
  interleaved ts w order errors ts' w' →
  (i, e) ∈ errors → ts' !! i = Some (Failed e).
Proof.
  induction 1 as [| ts w j c w1 p order errors ts' w' Hj Hres Hrest IH];
    [by intros ?%elem_of_nil |].
  rewrite elem_of_app. intros [Hin | Hin]; [| by apply IH].
  destruct p as [[a | e'] | k]; simpl in Hin; try by apply elem_of_nil in Hin.
  apply list_elem_of_singleton in Hin. injection Hin as -> ->.
  eapply interleaved_ended; [exact Hrest | | done].
  apply list_lookup_insert_eq. by eapply lookup_lt_Some.
Qed.

(** Where every task is done in the end, no step raised. *)
Lemma interleaved_no_error {A} (ts : list (Task A)) w order errors results w' :
  interleaved ts w order errors (Done <$> results) w' → errors = [].
Proof.
  intros Hrun. destruct errors as [| [i e] errors]; [done |].
  pose proof (interleaved_errors _ _ _ _ _ _ i e Hrun ltac:(left)) as Hi.
  rewrite list_lookup_fmap in Hi. by destruct (results !! i).
Qed.

Lemma keeps_at_yields_inv {A} (I : World → Prop) (c : Coro World A) w :
  keeps_at_yields I c → I w →
  I (fst (resume c w)) ∧ ∀ k, snd (resume c w) = Suspended k → keeps_at_yields I k.
Proof. intros [c' Hc] Hw. by apply Hc. Qed.

(** An invariant that every task keeps from one suspension point to the
    next holds after every interleaving. *)
Lemma interleaved_keeps {A} (I : World → Prop) (ts : list (Task A)) w order errors ts' w' :
  interleaved ts w order errors ts' w' →
  Forall (task_keeps I) ts → I w → I w'.
Proof.
  induction 1 as [| ts w i c w1 p order errors ts' w' Hi Hres _ IH]; [done |].
  intros Hts Hw.
  pose proof (Forall_lookup_1 _ _ _ _ Hts Hi) as Hc. simpl in Hc.
  destruct (keeps_at_yields_inv I c w Hc Hw) as [Hw1 Hk]. rewrite Hres in Hw1, Hk.
  apply IH; [| done]. apply Forall_insert; [done |].
  destruct p as [[a | e] | k]; simpl; [done | done | by apply Hk].
Qed.

Lemma interleaved_stems {A} (coros : list (Coro World A)) ts w order errors ts' w' :
  interleaved ts w order errors ts' w' →
  Forall2 stems_from coros ts → Forall2 stems_from coros ts'.
Proof.
  induction 1 as [| ts w i c w1 p order errors ts' w' Hi Hres _ IH]; [done |].
  intros Hst. apply IH.
  destruct (Forall2_lookup_r _ _ _ _ _ Hst Hi) as (c0 & Hc0 & Hstem). simpl in Hstem.
  rewrite <- (list_insert_id coros i c0) by done. apply Forall2_insert; [done |].
  pose proof (resume_finishes c w) as Hfin. rewrite Hres in Hfin.
  destruct p as [[a | e] | k]; simpl; [by apply Hstem | by apply Hstem |].
  intros o Ho. by apply Hstem, Hfin.
Qed.

Lemma stems_from_fresh {A} (coros : list (Coro World A)) :
  Forall2 stems_from coros (Pending <$> coros).
Proof. rewrite Forall2_fmap_r. apply Forall_Forall2_diag, Forall_forall. by intros c _ o. Qed.

(** *** Counting executions *)

Lemma counts_once_inv {A} a (c : Coro World A) w :
  counts_once a c →
  (∀ o, snd (resume c w) = Finished o →
     ∀ r, executions (fst (resume c w)) r
          = (executions w r + if decide (r = a) then 1 else 0)%Z)
  ∧ (∀ k, snd (resume c w) = Suspended k →
       (∀ r, executions (fst (resume c w)) r = executions w r) ∧ counts_once a k).
Proof. intros [c' Hc]. apply Hc. Qed.

Lemma ended_insert {A} r agents (ts : list (Task A)) i a c t :
  agents !! i = Some a → ts !! i = Some (Pending c) →
  ended r agents (<[i := t]> ts)
  = (ended r agents ts + if is_pending t then 0 else if decide (a = r) then 1 else 0)%Z.
Proof.
  revert ts i. induction agents as [| a' agents IH]; intros [| t' ts] [| i] Ha Hi;
    simplify_eq/=; [lia |].
  rewrite (IH _ _ Ha Hi). lia.
Qed.

Lemma ended_fresh {A} r agents (coros : list (Coro World A)) :
  ended r agents (Pending <$> coros) = 0%Z.
Proof.
  revert coros. induction agents as [| a agents IH]; intros [| c coros]; simpl; [done..|].
  by rewrite IH.
Qed.

Lemma ended_done {A} r agents (results : list A) :
  length results = length agents →
  ended r agents (Done <$> results) = occurrences r agents.
Proof.
  unfold occurrences. revert results.
  induction agents as [| a agents IH]; intros [| x results] Hlen; simplify_eq/=; [done |].
  rewrite (IH _ Hlen), filter_cons. destruct (decide (a = r)); simpl; lia.
Qed.

(** Under every interleaving, each agent has run once more for each of
    its tasks that has ended. *)
Lemma interleaved_counts {A} agents (ts : list (Task A)) w order errors ts' w' :
  interleaved ts w order errors ts' w' →
  Forall2 task_counts agents ts →
  ∀ r, (executions w' r - ended r agents ts' = executions w r - ended r agents ts)%Z.
Proof.
  induction 1 as [| ts w i c w1 p order errors ts' w' Hi Hres _ IH]; [done |].
  intros Hts r.
  destruct (Forall2_lookup_r _ _ _ _ _ Hts Hi) as (a & Ha & Hc). simpl in Hc.
  destruct (counts_once_inv a c w Hc) as [Hend Hsusp]. rewrite Hres in Hend, Hsusp.
  cbn [fst snd] in Hend, Hsusp.
  rewrite IH.
  - rewrite (ended_insert r agents ts i a c _ Ha Hi).
    destruct p as [o | k].
    + rewrite (Hend o eq_refl r). destruct o; simpl; repeat case_decide; congruence || lia.
    + destruct (Hsusp k eq_refl) as [-> _]. simpl. lia.
  - rewrite <- (list_insert_id agents i a) by done. apply Forall2_insert; [done |].
    destruct p as [[x | e] | k]; simpl; [done | done |]. by apply (Hsusp k eq_refl).
Qed.

Ltac heap_lookup :=
  repeat first [rewrite fn_lookup_insert | rewrite fn_lookup_insert_ne by done | progress simpl].

Lemma process_rest_counts `{Host} self start_time (k : Coro LogicView Value) :
  counts_once self (process_rest self start_time k).
Proof.
  induction k as [a | e | k IH | v k IH | k IH]; constructor; intros w.
  - split; [| done]. unfold process_rest. simpl. intros _ _ r. unfold executions.
    destruct (decide (r = self)) as [-> | Hne]; heap_lookup; lia.
  - unfold process_rest. simpl.
    destruct (is_Exception e); simpl; (split; [| done]); intros _ _ r; unfold executions;
      (destruct (decide (r = self)) as [-> | Hne]; heap_lookup; lia).
  - apply (counts_once_inv _ _ w (IH (logic_view self w))).
  - assert (Hw' : ∀ r, executions (logic_update self v w) r = executions w r).
    { intros r. unfold executions.
      destruct (decide (r = self)) as [-> | Hne]; by heap_lookup. }
    destruct (counts_once_inv _ _ (logic_update self v w) IH) as [Hend Hsusp].
    assert (Hstep : resume (process_rest self start_time (Put v k)) w
                    = resume (process_rest self start_time k) (logic_update self v w))
      by reflexivity.
    rewrite Hstep. split.
    + intros o Ho r. rewrite (Hend o Ho r). by rewrite Hw'.
    + intros k' Hk'. destruct (Hsusp k' Hk') as [Hex Hk]. split; [| done].
      intros r. by rewrite Hex.
  - split; [done |]. simpl. intros k' [= <-]. split; [done | exact IH].
Qed.

Lemma process_counts_once `{Host} self input_data :
  counts_once self (process self input_data).
Proof.
  constructor. intros w.
  set (w0 := after (process_entry self) w).
  assert (Hw0 : ∀ r, executions w0 r = executions w r).
  { intros r. unfold w0, after, executions.
    destruct (decide (r = self)) as [-> | Hne]; by heap_lookup. }
  destruct (counts_once_inv _ _ w0
              (process_rest_counts self (readings (w_clock w) (cursor (w_clock w)))
                 (_execute_logic (agent_at w0 self) input_data))) as [Hend Hsusp].
  split.
  - intros o Ho r. rewrite <- Hw0. exact (Hend o Ho r).
  - intros k Hk. destruct (Hsusp k Hk) as [Hex Hcount]. split; [| done].
    intros r. rewrite <- Hw0. exact (Hex r).
Qed.

Lemma process_tasks_count `{Host} (input_data : Value) (l : list AgentRef) :
  Forall2 task_counts l (Pending <$> ((λ agent, process agent input_data) <$> l)).
Proof.
  induction l as [| a l IH]; constructor; [| exact IH].
  exact (process_counts_once a input_data).
Qed.

(** *** Every wait can end *)

Lemma resume_run {A} (c : Coro World A) w :
  match resume c w with
  | (w', Finished o) => run c w = (w', o) ∧ suspensions c w = 0
  | (w', Suspended k) => run c w = run k w' ∧ suspensions c w = S (suspensions k w')
  end.
Proof.
  revert w. induction c as [a | e | k IH | w' k IH | k IH]; intros w; simpl; auto;
    apply IH.
Qed.

Lemma step_consistent {A} i (g : Gathering A) w :
  consistent g → consistent (step i (g, w)).1.
Proof.
  intros Hg. destruct (children g !! i) as [[c | a | e] |] eqn:Hi.
  2-4: by rewrite step_skip by congruence.
  rewrite (step_pending _ _ _ _ Hi). cbn [fst]. intros j e. cbn [children exception].
  destruct (decide (j = i)) as [-> | Hne].
  - rewrite list_lookup_insert_eq by by eapply lookup_lt_Some.
    destruct (exception g); [done |].
    destruct ((resume c w).2) as [[a | e'] | k]; simpl; [done | by eexists | done].
  - rewrite list_lookup_insert_ne by done. intros Hj.
    destruct (Hg j e Hj) as [e' ->]. by eexists.
Qed.

Lemma first_steps_consistent {A} (l : list nat) (s : Gathering A * World) :
  consistent s.1 → consistent (foldl (λ s i, step i s) s l).1.
Proof.
  revert s. induction l as [| i l IH]; intros [g w] Hs; [done |].
  cbn [foldl]. apply IH. by apply step_consistent.
Qed.

Lemma start_consistent {A} (coros : list (Coro World A)) w : consistent (start coros w).1.
Proof.
  apply first_steps_consistent. intros i e. cbn [fst children].
  rewrite list_lookup_fmap. by destruct (coros !! i).
Qed.

(** Resuming one task until it ends amounts to running its coroutine
    alone. *)
Lemma wait_drive {A} n i (c : Coro World A) (g : Gathering A) w rest :
  suspensions c w = n → children g !! i = Some (Pending c) →
  wait (replicate (S n) i ++ rest) g w
  = wait rest
      (mkGathering (<[i := settle (Finished (run c w).2)]> (children g))
         (match exception g with
          | Some e => Some e
          | None => raised (Finished (A:=A) (S:=World) (run c w).2)
          end))
      (run c w).1.
Proof.
  revert c g w. induction n as [| n IH]; intros c g w Hn Hi.
  - cbn [replicate app].
    rewrite wait_cons by by eapply collect_pending.
    rewrite (step_pending _ _ _ _ Hi). cbn [fst snd].
    pose proof (resume_run c w) as Hres.
    destruct (resume c w) as [w1 [o | k]].
    + by destruct Hres as [-> _].
    + destruct Hres as [_ Hs]. congruence.
  - change (replicate (S (S n)) i ++ rest) with (i :: (replicate (S n) i ++ rest)).
    rewrite wait_cons by by eapply collect_pending.
    rewrite (step_pending _ _ _ _ Hi). cbn [fst snd].
    pose proof (resume_run c w) as Hres.
    destruct (resume c w) as [w1 [o | k]].
    + destruct Hres as [_ Hs]. congruence.
    + destruct Hres as [-> Hs]. cbn [fst snd settle].
      pose proof (lookup_lt_Some _ _ _ Hi) as Hlt.
      rewrite (IH k); [| congruence | by apply list_lookup_insert_eq].
      cbn [children exception raised]. rewrite list_insert_insert_eq.
      by destruct (exception g).
Qed.

Lemma collect_None {A} (tasks : list (Task A)) :
  collect tasks = None →
  (∃ i c, tasks !! i = Some (Pending c))
  ∨ (∃ i e, tasks !! i = Some (Failed e)) ∧ filter is_pending tasks = [].
Proof.
  induction tasks as [| [c | a | e] tasks IH]; simpl; [done | | |].
  - intros _. left. by exists 0, c.
  - destruct (collect tasks); [done |]. intros _.
    destruct IH as [(i & c & Hi) | [(i & e & Hi) Hnone]]; [done | |].
    + left. by exists (S i), c.
    + right. split; [by exists (S i), e |]. by rewrite filter_cons.
  - intros _. destruct (collect tasks) as [results |] eqn:E.
    + right. split; [by exists 0, e |]. rewrite filter_cons. simpl.
      apply collect_Some in E. subst tasks. clear IH.
      induction results as [| r results IH]; [done |]. by rewrite fmap_cons, filter_cons.
    + destruct IH as [(i & c & Hi) | [_ Hnone]]; [done | |].
      * left. by exists (S i), c.
      * right. split; [by exists 0, e |]. by rewrite filter_cons.
Qed.

Lemma pending_decreases {A} (tasks : list (Task A)) i c t :
  tasks !! i = Some (Pending c) → is_pending t = false →
  length (filter is_pending (<[i := t]> tasks)) < length (filter is_pending tasks).
Proof.
  intros Hi Ht. revert i Hi. induction tasks as [| t' tasks IH]; intros [| i] Hi; simplify_eq/=.
  - rewrite !filter_cons. simpl. rewrite Ht. simpl. lia.
  - specialize (IH i Hi). rewrite !filter_cons. destruct (decide (is_pending t')); simpl; lia.
Qed.

(** From every state of the wait some schedule ends it. *)
Lemma wait_completes {A} (g : Gathering A) w :
  consistent g → ∃ schedule, wait schedule g w ≠ None.
Proof.
  remember (length (filter is_pending (children g))) as n eqn:Hn.
  revert g w Hn. induction (lt_wf n) as [n _ IH]; intros g w -> Hg.
  destruct (collect (children g)) as [results |] eqn:E.
  - exists []. by rewrite (wait_done _ _ _ _ E).
  - destruct (collect_None _ E) as [(i & c & Hi) | [(i & e & Hi) _]].
    + set (g' := mkGathering (<[i := settle (Finished (run c w).2)]> (children g))
                   (match exception g with
                    | Some e => Some e
                    | None => raised (Finished (A:=A) (S:=World) (run c w).2)
                    end)).
      destruct (IH (length (filter is_pending (children g')))) with (g := g') (w := (run c w).1)
        as [rest Hrest]; [| done | |].
      * apply (pending_decreases _ _ c); [done |]. by destruct ((run c w).2).
      * intros j e. subst g'. cbn [children exception].
        destruct (decide (j = i)) as [-> | Hne].
        -- rewrite list_lookup_insert_eq by by eapply lookup_lt_Some.
           destruct (exception g); [done |].
           destruct ((run c w).2) as [a | e']; simpl; [done | by eexists].
        -- rewrite list_lookup_insert_ne by done. intros Hj.
           destruct (Hg j e Hj) as [e' ->]. by eexists.
      * exists (replicate (S (suspensions c w)) i ++ rest).
        by rewrite (wait_drive _ _ _ _ _ _ eq_refl Hi).
    + exists []. simpl. rewrite E. by destruct (Hg i e Hi) as [e' ->].
Qed.

(** Every schedule can be continued so that the wait ends. *)
Lemma wait_extend {A} schedule (g : Gathering A) w :
  consistent g → ∃ more, wait (schedule ++ more) g w ≠ None.
Proof.
  revert g w. induction schedule as [| i schedule IH]; intros g w Hg.
  - by apply wait_completes.
  - cbn [app]. destruct (collect (children g)) as [results |] eqn:E.
    + exists []. by rewrite (wait_done _ _ _ _ E).
    + destruct (IH (step i (g, w)).1 (step i (g, w)).2) as [more Hmore];
        [by apply step_consistent |].
      exists more. by rewrite (wait_cons _ _ _ _ E).
Qed.

Lemma gather_extend {A} schedule (coros : list (Coro World A)) w :
  ∃ more, gather (schedule ++ more) coros w ≠ None.
Proof.
  unfold gather. pose proof (start_consistent coros w) as Hg.
  destruct (start coros w) as [g w1]. by apply wait_extend.
Qed.

(** What a parallel run that ended went through: the first step of every
    task in list order, then steps in an order of the schedule's choosing. *)
Lemma execute_parallel_interleaved `{Host} schedule self initial_input w w' o :
  execute_parallel schedule self initial_input w = Some (w', o) →
  ∃ order errors ts',
    interleaved (Pending <$> ((λ agent, process agent initial_input) <$> agents self)) w
      (seq 0 (length (agents self)) ++ order) errors ts' w'
    ∧ match o with
      | Returned d => ∃ results, d = ResultsDict (strand_name self) results
                                 ∧ ts' = Done <$> results
      | Raised e => snd <$> head errors = Some e
      end.
Proof.
  unfold execute_parallel, mbind, M_bind.
  destruct (gather schedule _ w) as [[w1 [results | e]] |] eqn:Hrun; [| | done].
  - intros [= <- <-].
    destruct (gather_interleaved _ _ _ _ _ Hrun) as (order & errors & ts' & Hsteps & Ho).
    rewrite length_fmap in Hsteps. exists order, errors, ts'. split; [done |].
    by exists results.
  - intros [= <- <-].
    destruct (gather_interleaved _ _ _ _ _ Hrun) as (order & errors & ts' & Hsteps & Ho).
    rewrite length_fmap in Hsteps. by exists order, errors, ts'.
Qed.

(** What a parallel run that ended produced. *)
Lemma execute_parallel_sound `{Host} schedule self initial_input w w' o :
  execute_parallel schedule self initial_input w = Some (w', o) →
  match o with
  | Returned d =>
      ∃ results, d = ResultsDict (strand_name self) results
        ∧ Forall2 (λ agent result, finishes (process agent initial_input) (Returned result))
            (agents self) results
  | Raised e =>
      ∃ agent, agent ∈ agents self ∧ finishes (process agent initial_input) (Raised e)
  end.
Proof.
  intros Hrun.
  destruct (execute_parallel_interleaved _ _ _ _ _ _ Hrun)
    as (order & errors & ts' & Hsteps & Ho).
  pose proof (interleaved_stems _ _ _ _ _ _ _ Hsteps (stems_from_fresh _)) as Hst.
  destruct o as [d | e].
  - destruct Ho as (results & -> & ->). exists results. split; [done |].
    rewrite Forall2_fmap_l, Forall2_fmap_r in Hst. exact Hst.
  - destruct errors as [| [i e'] errors]; [done |]. injection Ho as ->.
    pose proof (interleaved_errors _ _ _ _ _ _ i e Hsteps ltac:(left)) as Hi.
    destruct (Forall2_lookup_r _ _ _ _ _ Hst Hi) as (c & Hc & Hfin). simpl in Hfin.
    rewrite list_lookup_fmap in Hc.
    destruct (agents self !! i) as [agent |] eqn:Hagent; [| done].
    injection Hc as <-. exists agent. split; [| done].
    by eapply list_elem_of_lookup_2.
Qed.

(** C4: in parallel mode every agent's [process] is started on the same
    initial input: whatever the schedule, a run that ends has resumed the
    tasks [process agent initial_input], one per agent, first each of them
    once in list order and then in some order, every step from the heap the
    step before it left, and ends in the heap the last step left.  A run
    that returns does so when every task is done and no step has raised,
    with one result per agent, in agent order, each the result of that
    agent's task; every agent has then run once more for each place it has
    in the list.  A run that raises returns no result: it raises the error
    of the first step that raised, the error of the task of an agent of the
    strand.  Whatever the schedule so far, the run ends under some
    continuation of it. *)
Theorem execute_parallel_gather `{Host} (schedule : list nat) (self : AgentStrand)
    (initial_input : Value) (w : World) :
  (∀ w' o,
     execute_parallel schedule self initial_input w = Some (w', o) →
     ∃ order errors ts',
       interleaved (Pending <$> ((λ agent, process agent initial_input) <$> agents self)) w
         (seq 0 (length (agents self)) ++ order) errors ts' w'
       ∧ match o with
         | Returned d =>
             ∃ results,
               d = ResultsDict (strand_name self) results
               ∧ length results = length (agents self)
               ∧ ts' = Done <$> results
               ∧ errors = []
               ∧ ∀ r, executions w' r = (executions w r + occurrences r (agents self))%Z
         | Raised e =>
             ∃ i agent,
               head errors = Some (i, e)
               ∧ agents self !! i = Some agent
               ∧ ts' !! i = Some (Failed e)
         end)
  ∧ (∃ more, execute_parallel (schedule ++ more) self initial_input w ≠ None).
Proof.
  split.
  - intros w' o Hrun.
    destruct (execute_parallel_interleaved _ _ _ _ _ _ Hrun)
      as (order & errors & ts' & Hsteps & Ho).
    exists order, errors, ts'. split; [done |].
    pose proof (interleaved_length _ _ _ _ _ _ Hsteps) as Hlen.
    rewrite !length_fmap in Hlen.
    destruct o as [d | e].
    + destruct Ho as (results & -> & ->). exists results.
      rewrite length_fmap in Hlen.
      split_and!; [done | done | done | by eapply interleaved_no_error |].
      intros r.
      pose proof (interleaved_counts (agents self) _ _ _ _ _ _ Hsteps
                    (process_tasks_count initial_input (agents self)) r) as Hcount.
      rewrite ended_fresh, ended_done in Hcount by done. lia.
    + destruct errors as [| [i e'] errors]; [done |]. injection Ho as ->.
      pose proof (interleaved_errors _ _ _ _ _ _ i e Hsteps ltac:(left)) as Hi.
      destruct (lookup_lt_is_Some_2 (agents self) i) as [agent Hagent].
      { rewrite <- Hlen. by eapply lookup_lt_Some. }
      by exists i, agent.
  - unfold execute_parallel, mbind, M_bind.
    destruct (gather_extend schedule ((λ agent, process agent initial_input) <$> agents self) w)
      as [more Hmore].
    exists more. by destruct (gather (schedule ++ more) _ w) as [[w1 [results | e]] |].
Qed.

(** C4 on the four tagging agents, resumed in reverse order after their
    first steps: four results, each on the initial input alone, when all
    four tasks are done, and every agent has run once. *)
Lemma execute_parallel_gather_witness :
  ∃ w' order,
    @execute_parallel example_host [3; 2; 1; 0] diamond_strand VNone example_world
    = Some (w', Returned (ResultsDict "diamond"
                 [VList [VStr "A"]; VList [VStr "B"]; VList [VStr "C"]; VList [VStr "D"]]))
    ∧ interleaved
        (Pending <$> ((λ agent, @process example_host agent VNone) <$> [0; 1; 2; 3]))
        example_world ([0; 1; 2; 3] ++ order) []
        (Done <$> [VList [VStr "A"]; VList [VStr "B"]; VList [VStr "C"]; VList [VStr "D"]]) w'
    ∧ executions w' <$> [0; 1; 2; 3; 4] = [1; 1; 1; 1; 0]%Z.
Proof.
  assert (P : produced (@execute_parallel example_host [3; 2; 1; 0] diamond_strand
                          VNone example_world)
              = Some (Returned (ResultsDict "diamond"
                   [VList [VStr "A"]; VList [VStr "B"]; VList [VStr "C"]; VList [VStr "D"]])))
    by (vm_compute; reflexivity).
  destruct (@execute_parallel example_host [3; 2; 1; 0] diamond_strand VNone
              example_world) as [[w' [d | e]] |] eqn:E; [| discriminate P | discriminate P].
  destruct (proj1 (@execute_parallel_gather example_host [3; 2; 1; 0]
                     diamond_strand VNone example_world) w' (Returned d) E)
    as (order & errors & ts' & Hsteps & results & Hd & Hlen & Hts & Herr & Hex).
  injection P as P. rewrite Hd in P. injection P as P. subst.
  exists w', order. split_and!; [reflexivity | exact Hsteps |].
  cbn [fmap list_fmap]. rewrite !Hex. reflexivity.
Defined.

(** A run in which the second of three agents fails in its first step.
    The first and the third agent have been started all the same; the run
    raises the error of the second, and the two others are left where the
    schedule took them: under the empty schedule both are still processing,
    under the schedule [2; 0] both have completed, their results lost. *)
Lemma execute_parallel_failure :
  ∃ w1 w2,
    @execute_parallel example_host [] broken_strand VNone example_world
    = Some (w1, Raised (ValueError "Empty input received"))
    ∧ (λ r, status (agent_at w1 r)) <$> [0; 4; 1] = [PROCESSING; IDLE; PROCESSING]
    ∧ executions w1 <$> [0; 4; 1] = [0; 1; 0]%Z
    ∧ @execute_parallel example_host [2; 0] broken_strand VNone example_world
      = Some (w2, Raised (ValueError "Empty input received"))
    ∧ (λ r, status (agent_at w2 r)) <$> [0; 4; 1] = [IDLE; IDLE; IDLE]
    ∧ executions w2 <$> [0; 4; 1] = [1; 1; 1]%Z.
Proof.
  destruct (@execute_parallel example_host [] broken_strand VNone example_world)
    as [[w1 o1] |] eqn:E1; [| vm_compute in E1; discriminate E1].
  destruct (@execute_parallel example_host [2; 0] broken_strand VNone example_world)
    as [[w2 o2] |] eqn:E2; [| vm_compute in E2; discriminate E2].
  assert (H1 : o1 = Raised (ValueError "Empty input received")
               ∧ (λ r, status (agent_at w1 r)) <$> [0; 4; 1] = [PROCESSING; IDLE; PROCESSING]
               ∧ executions w1 <$> [0; 4; 1] = [0; 1; 0]%Z).
  { assert (Some (w1, o1) = @execute_parallel example_host [] broken_strand VNone example_world)
      as Heq by by rewrite E1.
    clear E1 E2. vm_compute in Heq. by injection Heq as -> ->. }
  assert (H2 : o2 = Raised (ValueError "Empty input received")
               ∧ (λ r, status (agent_at w2 r)) <$> [0; 4; 1] = [IDLE; IDLE; IDLE]
               ∧ executions w2 <$> [0; 4; 1] = [1; 1; 1]%Z).
  { assert (Some (w2, o2) = @execute_parallel example_host [2; 0] broken_strand VNone example_world)
      as Heq by by rewrite E2.
    clear E1 E2 H1. vm_compute in Heq. by injection Heq as -> ->. }
  destruct H1 as (-> & ? & ?), H2 as (-> & ? & ?). by exists w1, w2.
Qed.

(** ** Graph mode *)

(** One turn of the [for] loop. *)
Lemma for_successors_cons `{Host} recur self data next_agent_id rest st w :
  for_successors recur self data (next_agent_id :: rest) st w
  = if decide (next_agent_id ∈ processed st)
    then for_successors recur self data rest st w
    else match next_with_id w (agents self) next_agent_id with
         | Some next_agent =>
             match run (process next_agent data) w with
             | (w1, Returned result) =>
                 match recur next_agent_id result
                         (mkWalk ({[next_agent_id]} ∪ processed st)
                            (walk_results st ++ [result])) w1 with
                 | Some (w2, Returned st2) => for_successors recur self data rest st2 w2
                 | Some (w2, Raised e) => Some (w2, Raised e)
                 | None => None
                 end
             | (w1, Raised e) => Some (w1, Raised e)
             end
         | None => for_successors recur self data rest st w
         end.
Proof.
  cbn [for_successors]. destruct (decide (next_agent_id ∈ processed st)); [done |].
  unfold mbind, M_bind, get_world, await.
  destruct (next_with_id w (agents self) next_agent_id); [| done].
  by destruct (run (process a data) w) as [w1 [result | e]].
Qed.

Lemma for_successors_traced_cons `{Host} recur self data next_agent_id rest st w :
  for_successors_traced recur self data (next_agent_id :: rest) st w
  = if decide (next_agent_id ∈ processed (walk st))
    then for_successors_traced recur self data rest st w
    else match next_with_id w (agents self) next_agent_id with
         | Some next_agent =>
             match run (process next_agent data) w with
             | (w1, Returned result) =>
                 match recur next_agent_id result
                         (mkTracedWalk
                            (mkWalk ({[next_agent_id]} ∪ processed (walk st))
                               (walk_results (walk st) ++ [result]))
                            (order st ++ [(next_agent_id, next_agent)])) w1 with
                 | Some (w2, Returned st2) => for_successors_traced recur self data rest st2 w2
                 | Some (w2, Raised e) => Some (w2, Raised e)
                 | None => None
                 end
             | (w1, Raised e) => Some (w1, Raised e)
             end
         | None => for_successors_traced recur self data rest st w
         end.
Proof.
  cbn [for_successors_traced]. destruct (decide (next_agent_id ∈ processed (walk st))); [done |].
  unfold mbind, M_bind, get_world, await.
  destruct (next_with_id w (agents self) next_agent_id); [| done].
  by destruct (run (process a data) w) as [w1 [result | e]].
Qed.

Lemma for_successors_erase `{Host} recur recur_traced self data successors st w :
  (∀ id d st w, recur id d (walk st) w = erase walk (recur_traced id d st w)) →
  for_successors recur self data successors (walk st) w
  = erase walk (for_successors_traced recur_traced self data successors st w).
Proof.
  intros Hrec. revert st w. induction successors as [| next rest IH]; intros st w.
  - reflexivity.
  - rewrite for_successors_cons, for_successors_traced_cons.
    destruct (decide (next ∈ processed (walk st))); [apply IH |].
    destruct (next_with_id w (agents self) next) as [a |]; [| apply IH].
    destruct (run (process a data) w) as [w1 [result | e]]; [| done].
    pose proof (Hrec next result
                  (mkTracedWalk
                     (mkWalk ({[next]} ∪ processed (walk st))
                        (walk_results (walk st) ++ [result]))
                     (order st ++ [(next, a)])) w1) as E.
    cbn [walk] in E. rewrite E.
    destruct (recur_traced _ _ _ w1) as [[w2 [st2 | e]] |]; [apply IH | done | done].
Qed.

Lemma process_next_erase `{Host} fuel self id data st w :
  process_next fuel self id data (walk st) w
  = erase walk (process_next_traced fuel self id data st w).
Proof.
  revert id data st w. induction fuel as [| fuel IH]; intros id data st w; [done |].
  cbn [process_next process_next_traced].
  destruct (communication_graph self !! id) as [successors |]; [| done].
  by apply for_successors_erase.
Qed.

(** Dropping the visits from the traced run gives the run of the program. *)
Lemma execute_graph_traced_erase `{Host} fuel self initial_input w :
  execute_graph_fuel fuel self initial_input w
  = erase fst (execute_graph_traced fuel self initial_input w).
Proof.
  unfold execute_graph_fuel, execute_graph_traced.
  destruct (agents self) as [| first_agent rest]; [done |].
  unfold mbind, M_bind, get_world, await.
  destruct (run (process first_agent initial_input) w) as [w1 [result | e]]; [| done].
  pose proof (process_next_erase fuel self (agent_id (agent_at w1 first_agent)) result
                (mkTracedWalk (mkWalk {[agent_id (agent_at w1 first_agent)]} [result])
                   [(agent_id (agent_at w1 first_agent), first_agent)]) w1) as E.
  cbn [walk] in E. rewrite E.
  by destruct (process_next_traced _ _ _ _ _ w1) as [[w2 [st2 | e]] |].
Qed.

Lemma process_same_ids `{Host} a data w : same_ids w (fst (run (process a data) w)).
Proof.
  intros r. pose proof (process_effect a data w) as (Hother & (_ & Hid & _) & _).
  destruct (decide (r = a)) as [-> | Hne]; [done |]. by rewrite Hother.
Qed.

Lemma process_executions `{Host} a data w r :
  executions (fst (run (process a data) w)) r
  = (executions w r + if decide (a = r) then 1 else 0)%Z.
Proof.
  unfold executions.
  pose proof (process_effect a data w) as (Hother & _ & _ & Htotal & _).
  destruct (decide (a = r)) as [-> | Hne]; [done |].
  rewrite Hother by done. lia.
Qed.

Lemma same_ids_trans w1 w2 w3 : same_ids w1 w2 → same_ids w2 w3 → same_ids w1 w3.
Proof. intros H12 H23 r. by rewrite H23. Qed.

Lemma next_with_id_same w w' l id :
  same_ids w w' → next_with_id w' l id = next_with_id w l id.
Proof.
  intros Hsame. unfold next_with_id. induction l as [| a l IH]; [done |].
  simpl. by rewrite Hsame, IH.
Qed.

Lemma next_with_id_Some w l id a :
  next_with_id w l id = Some a → a ∈ l ∧ agent_id (agent_at w a) = id.
Proof.
  unfold next_with_id. intros [Hin Hid]%find_some.
  split; [by apply list_elem_of_In | by apply bool_decide_eq_true in Hid].
Qed.

Lemma next_with_id_None w self id :
  next_with_id w (agents self) id = None → id ∉ strand_ids w self.
Proof.
  unfold next_with_id, strand_ids. intros Hnone (a & -> & Hin)%list_elem_of_fmap.
  apply list_elem_of_In in Hin.
  pose proof (find_none _ _ Hnone a Hin) as Hf. simpl in Hf.
  by apply bool_decide_eq_false in Hf.
Qed.

Lemma elem_of_strand_ids w self a :
  a ∈ agents self → agent_id (agent_at w a) ∈ strand_ids w self.
Proof. intros Hin. unfold strand_ids. apply list_elem_of_fmap. by exists a. Qed.

Lemma visits_of_app r tr v :
  visits_of r (tr ++ [v]) = visits_of r tr + if decide (v.2 = r) then 1 else 0.
Proof.
  unfold visits_of. rewrite filter_app, length_app, filter_cons, filter_nil.
  by destruct (decide (v.2 = r)).
Qed.

(** Awaiting [process] on an agent whose id was not visited keeps the
    visits in order. *)
Lemma visits_ok_step `{Host} self w0 w tr next a data :
  visits_ok self w0 w tr → next ∉ tr.*1 → a ∈ agents self →
  agent_id (agent_at w0 a) = next →
  visits_ok self w0 (fst (run (process a data) w)) (tr ++ [(next, a)]).
Proof.
  intros [Hids Hnodup Hagents Hexec] Hnew Hin Hid. split.
  - eapply same_ids_trans; [done | apply process_same_ids].
  - rewrite fmap_app. apply NoDup_app. split_and!; [done | | apply NoDup_singleton].
    intros x Hx ->%list_elem_of_singleton. done.
  - apply Forall_app. split; [done |]. by apply Forall_singleton.
  - intros r. rewrite process_executions, Hexec, visits_of_app. simpl.
    destruct (decide (a = r)); lia.
Qed.

Lemma walk_ok_step `{Host} st next a data w w1 result :
  walk_ok st →
  run (process a data) w = (w1, Returned result) →
  walk_ok (mkTracedWalk
             (mkWalk ({[next]} ∪ processed (walk st)) (walk_results (walk st) ++ [result]))
             (order st ++ [(next, a)])).
Proof.
  intros [Hp Hall] Hrun. split; simpl.
  - rewrite Hp, fmap_app, list_to_set_app_L. simpl. set_solver.
  - apply Forall2_app; [done |]. apply Forall2_cons. split; [| constructor].
    by exists data, w, w1.
Qed.

Lemma unvisited_decreases (K P : gset string) next fuel :
  next ∈ K → next ∉ P → size (K ∖ P) < S fuel → size (K ∖ ({[next]} ∪ P)) < fuel.
Proof.
  intros HK HP Hsize.
  assert (E : K ∖ P = {[next]} ∪ K ∖ ({[next]} ∪ P)).
  { apply set_eq. intros x. rewrite elem_of_union, !elem_of_difference, elem_of_union,
      elem_of_singleton. destruct (decide (x = next)) as [-> | ?]; naive_solver. }
  rewrite E, size_union, size_singleton in Hsize by set_solver. lia.
Qed.

Lemma unvisited_shrinks (K P P' : gset string) fuel :
  P ⊆ P' → size (K ∖ P) < fuel → size (K ∖ P') < fuel.
Proof.
  intros Hsub Hsize. eapply Nat.le_lt_trans; [| done].
  apply subseteq_size. set_solver.
Qed.

Lemma depth_first_S fuel graph known current visited :
  depth_first (S fuel) graph known current visited
  = foldl (depth_first_step fuel graph known) visited (default [] (graph !! current)).
Proof. reflexivity. Qed.

Section graph_walk.
Context `{Host} (self : AgentStrand) (w0 : World).

(** The [for] loop of a walk, given that the recursive call behaves. *)
Lemma for_successors_traced_spec fuel recur data :
  (∀ id d st w,
      visits_ok self w0 w (order st) → walk_ok st →
      size (list_to_set (strand_ids w0 self) ∖ processed (walk st) : gset string) < fuel →
      ∃ w' o, recur id d st w = Some (w', o)
              ∧ walk_post self w0 st
                  (depth_first fuel (communication_graph self) (strand_ids w0 self) id
                     (order st).*1) w' o) →
  ∀ successors st w,
    visits_ok self w0 w (order st) → walk_ok st →
    size (list_to_set (strand_ids w0 self) ∖ processed (walk st) : gset string) < S fuel →
    ∃ w' o, for_successors_traced recur self data successors st w = Some (w', o)
            ∧ walk_post self w0 st
                (foldl (depth_first_step fuel (communication_graph self) (strand_ids w0 self))
                   (order st).*1 successors) w' o.
Proof.
  intros Hrec. induction successors as [| next rest IH]; intros st w Hok Hwalk Hsize.
  - exists w, (Returned st). split; [done |]. by split_and!.
  - rewrite for_successors_traced_cons. cbn [foldl]. unfold depth_first_step at 2.
    destruct Hwalk as [Hp Hl].
    destruct (decide (next ∈ processed (walk st))) as [Hin | Hnin].
    { rewrite decide_True by (by rewrite Hp, elem_of_list_to_set in Hin).
      by apply IH. }
    rewrite decide_False by (by rewrite Hp, elem_of_list_to_set in Hnin).
    rewrite (next_with_id_same w0 w) by apply Hok.
    destruct (next_with_id w0 (agents self) next) as [a |] eqn:Hfind.
    2: { rewrite decide_False by (by apply next_with_id_None). by apply IH. }
    apply next_with_id_Some in Hfind as [Hagent Hid].
    assert (Hknown : next ∈ strand_ids w0 self).
    { rewrite <- Hid. by apply elem_of_strand_ids. }
    rewrite decide_True by done.
    assert (Hnew : next ∉ (order st).*1) by (by rewrite Hp, elem_of_list_to_set in Hnin).
    pose proof (visits_ok_step self w0 w (order st) next a data Hok Hnew Hagent Hid) as Hok1.
    destruct (run (process a data) w) as [w1 [result | e]] eqn:Hrun; cbn [fst] in Hok1.
    2: { exists w1, (Raised e). split; [done |]. by eexists. }
    set (st1 := mkTracedWalk _ (order st ++ [(next, a)])).
    destruct (Hrec next result st1 w1) as (w2 & o2 & -> & Hpost).
    { done. }
    { by eapply walk_ok_step. }
    { apply unvisited_decreases; [by apply elem_of_list_to_set | done | done]. }
    destruct o2 as [st2 | e].
    2: { exists w2, (Raised e). by split. }
    destruct Hpost as (Hok2 & Hwalk2 & Hsub & Hpre & Hpre' & Horder).
    destruct (IH st2 w2 Hok2 Hwalk2) as (w' & o & -> & Hpost').
    { eapply unvisited_shrinks; [| done]. etrans; [| done]. simpl. set_solver. }
    exists w', o. split; [done |].
    replace (depth_first fuel (communication_graph self) (strand_ids w0 self) next
               ((order st).*1 ++ [next]))
      with (order st2).*1.
    2: { rewrite Horder. unfold st1. simpl. by rewrite fmap_app. }
    destruct o as [st' | e]; [| done].
    destruct Hpost' as (? & ? & Hsub' & Hpre2 & Hpre2' & ?).
    split_and!; [done | done | | | | done].
    + etrans; [| done]. etrans; [| done]. simpl. set_solver.
    + etrans; [| done]. etrans; [| done]. by apply prefix_app_r.
    + etrans; [| done]. etrans; [| done]. by apply prefix_app_r.
Qed.

(** A walk with enough fuel ends, and its visits are those of the
    specification's traversal. *)
Lemma process_next_traced_spec fuel id data st w :
  visits_ok self w0 w (order st) → walk_ok st →
  size (list_to_set (strand_ids w0 self) ∖ processed (walk st) : gset string) < fuel →
  ∃ w' o, process_next_traced fuel self id data st w = Some (w', o)
          ∧ walk_post self w0 st
              (depth_first fuel (communication_graph self) (strand_ids w0 self) id
                 (order st).*1) w' o.
Proof.
  revert id data st w. induction fuel as [| fuel IH]; intros id data st w Hok Hwalk Hsize;
    [lia |].
  cbn [process_next_traced]. rewrite depth_first_S.
  destruct (communication_graph self !! id) as [successors |]; cbn [default].
  - by apply for_successors_traced_spec.
  - exists w, (Returned st). split; [done |]. by split_and!.
Qed.
End graph_walk.

Lemma visits_of_le_1 self w0 w tr r : visits_ok self w0 w tr → (visits_of r tr ≤ 1)%nat.
Proof.
  intros [_ Hnodup Hagents _]. unfold visits_of.
  induction tr as [| v tr IH]; [simpl; lia |].
  rewrite fmap_cons in Hnodup. apply NoDup_cons in Hnodup as [Hv Hnodup].
  apply Forall_cons in Hagents as [[_ Hid] Hagents].
  rewrite filter_cons. destruct (decide (v.2 = r)) as [Hr | Hr]; [| by apply IH].
  assert (E : filter (λ v, v.2 = r) tr = []).
  { destruct (filter (λ v, v.2 = r) tr) as [| v' l] eqn:Hf; [done |].
    assert (Hin : v' ∈ filter (λ v, v.2 = r) tr) by (rewrite Hf; left).
    apply list_elem_of_filter in Hin as [Hr' Hin].
    destruct Hv. apply list_elem_of_fmap. exists v'. split; [| done].
    rewrite Forall_forall in Hagents. destruct (Hagents v' Hin) as [_ Hid'].
    by rewrite <- Hid, <- Hid', Hr, Hr'. }
  rewrite E. simpl. lia.
Qed.

Lemma visits_ok_nil self w : visits_ok self w w [].
Proof.
  split; [done | constructor | constructor |].
  intros r. unfold visits_of. simpl. lia.
Qed.

Lemma size_list_to_set_le (l : list string) :
  (size (list_to_set l : gset string) ≤ length l)%nat.
Proof.
  induction l as [| x l IH]; [done |]. simpl.
  destruct (decide (x ∈ (list_to_set l : gset string))) as [Hin | Hnin].
  - replace ({[x]} ∪ list_to_set l : gset string) with (list_to_set l : gset string)
      by set_solver. lia.
  - rewrite size_union, size_singleton by set_solver. lia.
Qed.

Lemma strand_ids_size w self (first_id : string) :
  first_id ∈ strand_ids w self →
  (size (list_to_set (strand_ids w self) ∖ {[first_id]} : gset string) < length (agents self))%nat.
Proof.
  intros Hin.
  assert (Hle : (size (list_to_set (strand_ids w self) : gset string) ≤ length (agents self))%nat).
  { etrans; [apply size_list_to_set_le |]. unfold strand_ids. by rewrite length_fmap. }
  assert (E : (list_to_set (strand_ids w self) : gset string)
              = {[first_id]} ∪ list_to_set (strand_ids w self) ∖ {[first_id]}).
  { apply set_eq. intros x. rewrite elem_of_union, elem_of_difference, elem_of_singleton,
      elem_of_list_to_set. destruct (decide (x = first_id)) as [-> | ?]; naive_solver. }
  rewrite E, size_union, size_singleton in Hle by set_solver. lia.
Qed.

(** What a traced graph run on a non-empty strand produces, with any fuel
    from the number of agents up. *)
Lemma execute_graph_traced_spec `{Host} fuel self initial_input w first :
  head (agents self) = Some first → (length (agents self) ≤ fuel)%nat →
  let first_id := agent_id (agent_at w first) in
  ∃ w' o, execute_graph_traced fuel self initial_input w = Some (w', o)
    ∧ match o with
      | Returned (d, tr) =>
          visits_ok self w w' tr
          ∧ ∃ results, d = ResultsDict (strand_name self) results
              ∧ Forall2 produced_by tr results
              ∧ head tr = Some (first_id, first)
              ∧ (∃ w1 r0, run (process first initial_input) w = (w1, Returned r0)
                          ∧ head results = Some r0)
              ∧ tr.*1 = depth_first fuel (communication_graph self)
                          (strand_ids w self) first_id [first_id]
      | Raised _ => ∃ tr, visits_ok self w w' tr
      end.
Proof.
  intros Hfirst Hfuel first_id. unfold execute_graph_traced.
  destruct (agents self) as [| first' rest] eqn:Hagents; [done |].
  injection Hfirst as ->. unfold mbind, M_bind, get_world, await.
  assert (Hin : first ∈ agents self) by (rewrite Hagents; left).
  pose proof (visits_ok_step self w w [] first_id first initial_input
                (visits_ok_nil self w) ltac:(by intros ?%elem_of_nil) Hin eq_refl) as Hok1.
  pose proof (process_same_ids first initial_input w first) as Hid1.
  destruct (run (process first initial_input) w) as [w1 [result | e]] eqn:Hrun;
    cbn [fst app] in Hok1, Hid1.
  2: { exists w1, (Raised e). split; [done |]. by eexists. }
  rewrite Hid1. fold first_id.
  set (st := mkTracedWalk (mkWalk {[first_id]} [result]) [(first_id, first)]).
  destruct (process_next_traced_spec self w fuel first_id result st w1)
    as (w' & o & -> & Hpost).
  { done. }
  { split; simpl; [set_solver |]. apply Forall2_cons. split; [| constructor].
    by exists initial_input, w, w1. }
  { eapply Nat.lt_le_trans; [| exact Hfuel]. rewrite <- Hagents. apply strand_ids_size.
    by apply elem_of_strand_ids. }
  exists w'. destruct o as [st' | e]; [| by exists (Raised e)].
  exists (Returned (ResultsDict (strand_name self) (walk_results (walk st')), order st')).
  split; [done |].
  destruct Hpost as (Hok & [_ Hall] & _ & [tr' Htr] & [rs' Hrs] & Horder).
  split; [done |]. exists (walk_results (walk st')).
  split_and!; [done | done | by rewrite Htr | | done].
  exists w1, result. split; [done |]. by rewrite Hrs.
Qed.




(** No id is visited twice, whichever agent objects carry it. *)
Lemma visits_same_id self w0 w tr r1 r2 :
  visits_ok self w0 w tr → r1 ≠ r2 →
  agent_id (agent_at w0 r1) = agent_id (agent_at w0 r2) →
  (visits_of r1 tr + visits_of r2 tr ≤ 1)%nat.
Proof.
  intros [_ Hnodup Hagents _] Hne Hsame. unfold visits_of.
  induction tr as [| v tr IH]; [simpl; lia |].
  rewrite fmap_cons in Hnodup. apply NoDup_cons in Hnodup as [Hv Hnodup].
  apply Forall_cons in Hagents as [[_ Hid] Hagents].
  specialize (IH Hnodup Hagents).
  assert (Hnone : ∀ r, agent_id (agent_at w0 r) = v.1 → filter (λ v, v.2 = r) tr = []).
  { intros r Hr. destruct (filter (λ v, v.2 = r) tr) as [| v' l] eqn:Hf; [done |].
    assert (Hin : v' ∈ filter (λ v, v.2 = r) tr) by (rewrite Hf; left).
    apply list_elem_of_filter in Hin as [Hr' Hin].
    destruct Hv. apply list_elem_of_fmap. exists v'. split; [| done].
    rewrite Forall_forall in Hagents. destruct (Hagents v' Hin) as [_ Hid'].
    by rewrite <- Hr, <- Hid', Hr'. }
  rewrite !filter_cons.
  destruct (decide (v.2 = r1)) as [E1 | E1]; destruct (decide (v.2 = r2)) as [E2 | E2].
  - congruence.
  - rewrite (Hnone r1), (Hnone r2); [simpl; lia | |]; rewrite <- Hid; congruence.
  - rewrite (Hnone r1), (Hnone r2); [simpl; lia | |]; rewrite <- Hid; congruence.
  - done.
Qed.

Lemma for_successors_mono `{Host} recur recur' self data successors st w r :
  (∀ id d st w r, recur id d st w = Some r → recur' id d st w = Some r) →
  for_successors recur self data successors st w = Some r →
  for_successors recur' self data successors st w = Some r.
Proof.
  intros Hrec. revert st w. induction successors as [| next rest IH]; intros st w; [done |].
  rewrite !for_successors_cons.
  destruct (decide (next ∈ processed st)); [apply IH |].
  destruct (next_with_id w (agents self) next) as [a |]; [| apply IH].
  destruct (run (process a data) w) as [w1 [result | e]]; [| done].
  destruct (recur next result _ w1) as [[w2 [st2 | e]] |] eqn:E; [| | done].
  - rewrite (Hrec _ _ _ _ _ E). apply IH.
  - by rewrite (Hrec _ _ _ _ _ E).
Qed.

(** A walk that ended with some fuel ends the same way with more. *)
Lemma process_next_mono `{Host} fuel fuel' self id data st w r :
  (fuel ≤ fuel')%nat →
  process_next fuel self id data st w = Some r →
  process_next fuel' self id data st w = Some r.
Proof.
  revert fuel' id data st w r. induction fuel as [| fuel IH];
    intros fuel' id data st w r Hle; [done |].
  destruct fuel' as [| fuel']; [lia |]. cbn [process_next].
  destruct (communication_graph self !! id) as [successors |]; [| done].
  apply for_successors_mono. intros id' d st' w' r'. apply IH. lia.
Qed.

Lemma execute_graph_fuel_mono `{Host} fuel fuel' self initial_input w r :
  (fuel ≤ fuel')%nat →
  execute_graph_fuel fuel self initial_input w = Some r →
  execute_graph_fuel fuel' self initial_input w = Some r.
Proof.
  intros Hle. unfold execute_graph_fuel.
  destruct (agents self) as [| first_agent rest]; [done |].
  unfold mbind, M_bind, get_world, await.
  destruct (run (process first_agent initial_input) w) as [w1 [result | e]]; [| done].
  destruct (process_next fuel self _ result _ w1) as [[w2 [st2 | e]] |] eqn:E; [| | done].
  - by rewrite (process_next_mono _ _ _ _ _ _ _ _ Hle E).
  - by rewrite (process_next_mono _ _ _ _ _ _ _ _ Hle E).
Qed.

(** C7: graph mode ends on every communication graph, cyclic or not: the
    run returns or raises, and it does the same under any bound on the
    recursion depth from the number of agents up.  Over the run no agent
    object is processed more than once (its [total_executions] grows by at
    most one), and of two agent objects with the same id at most one is
    processed. *)
Theorem execute_graph_terminates `{Host} (self : AgentStrand) (initial_input : Value)
    (w : World) :
  (∃ w' o, execute_graph self initial_input w = Some (w', o)
           ∧ (∀ r, (executions w r ≤ executions w' r ≤ executions w r + 1)%Z)
           ∧ (∀ r1 r2, r1 ≠ r2 →
                agent_id (agent_at w r1) = agent_id (agent_at w r2) →
                (executions w' r1 + executions w' r2
                 ≤ executions w r1 + executions w r2 + 1)%Z))
  ∧ (∀ fuel, (length (agents self) ≤ fuel)%nat →
       execute_graph_fuel fuel self initial_input w = execute_graph self initial_input w).
Proof.
  assert (Hend : ∃ w' o, execute_graph self initial_input w = Some (w', o)
                 ∧ (∀ r, (executions w r ≤ executions w' r ≤ executions w r + 1)%Z)
                 ∧ (∀ r1 r2, r1 ≠ r2 →
                      agent_id (agent_at w r1) = agent_id (agent_at w r2) →
                      (executions w' r1 + executions w' r2
                       ≤ executions w r1 + executions w r2 + 1)%Z)).
  { unfold execute_graph. rewrite execute_graph_traced_erase.
    destruct (agents self) as [| first rest] eqn:Hagents.
    - unfold execute_graph_traced. rewrite Hagents. eexists _, _. split; [done |].
      split; intros; lia.
    - destruct (execute_graph_traced_spec (length (first :: rest)) self initial_input w first)
        as (w' & o & Hrun & Hpost).
      { by rewrite Hagents. }
      { by rewrite Hagents. }
      rewrite Hrun. cbv zeta in Hpost.
      assert (Hvisits : ∃ tr, visits_ok self w w' tr).
      { destruct o as [[d tr] | e]; [| done]. exists tr. apply Hpost. }
      destruct Hvisits as [tr Hok].
      exists w'. destruct o as [[d tr'] | e]; eexists; (split; [done |]); split.
      all: try (intros r; pose proof (visits_of_le_1 _ _ _ _ r Hok);
                rewrite (ok_executions _ _ _ _ Hok r); lia).
      all: intros r1 r2 Hne Hsame;
        pose proof (visits_same_id _ _ _ _ r1 r2 Hok Hne Hsame);
        rewrite (ok_executions _ _ _ _ Hok r1), (ok_executions _ _ _ _ Hok r2); lia. }
  split; [done |].
  intros fuel Hfuel. destruct Hend as (w' & o & Hrun & _).
  rewrite Hrun. by eapply execute_graph_fuel_mono.
Qed.

(** C7 on [cyclic_strand], whose graph has the cycle A → B → A and the
    loop A → A: a bound of 10 on the depth gives the run of [execute_graph],
    which returns the outputs of A and B. *)
Lemma execute_graph_terminates_witness :
  @execute_graph_fuel example_host 10 cyclic_strand VNone example_world
  = @execute_graph example_host cyclic_strand VNone example_world
  ∧ produced (@execute_graph example_host cyclic_strand VNone example_world)
    = Some (Returned (ResultsDict "cycle" [VList [VStr "A"]; VList [VStr "A"; VStr "B"]])).
Proof.
  split.
  - apply (proj2 (@execute_graph_terminates example_host cyclic_strand VNone example_world)).
    simpl. lia.
  - vm_compute. reflexivity.
Defined.



(** ** The shape of the returned dict *)

(** C9 (as amended): sequential and parallel mode on every strand, and
    graph mode on every strand with at least one agent, return a dict with
    the strand name and the per-agent outputs in order: along the chain in
    sequential mode, agent by agent in parallel mode, visit by visit in
    graph mode; [final_output] is present in sequential mode only.  On a
    strand with no agents, sequential and parallel mode return empty
    results, and graph mode returns [{"error": "No agents in strand"}],
    which has neither the strand name nor results. *)
Theorem execution_result_shape `{Host} (schedule : list nat) (self : AgentStrand)
    (initial_input : Value) (w : World) :
  (∀ w' d,
     execute_sequential self initial_input w = Some (w', Returned d) →
     get_strand d = Some (strand_name self)
     ∧ (∃ outs, get_results d = Some outs ∧ chained initial_input (agents self) w w' outs)
     ∧ is_Some (get_final_output d) ∧ get_error d = None)
  ∧ (∀ w' d,
       execute_parallel schedule self initial_input w = Some (w', Returned d) →
       get_strand d = Some (strand_name self)
       ∧ (∃ results,
            get_results d = Some results
            ∧ Forall2 (λ agent result, finishes (process agent initial_input) (Returned result))
                (agents self) results)
       ∧ get_final_output d = None ∧ get_error d = None)
  ∧ (agents self ≠ [] →
     ∀ w' d,
       execute_graph self initial_input w = Some (w', Returned d) →
       get_strand d = Some (strand_name self)
       ∧ (∃ results tr,
            get_results d = Some results
            ∧ execute_graph_traced (length (agents self)) self initial_input w
              = Some (w', Returned (d, tr))
            ∧ Forall2 produced_by tr results)
       ∧ get_final_output d = None ∧ get_error d = None)
  ∧ (agents self = [] →
     execute_sequential self initial_input w
     = Some (w, Returned (SequentialDict (strand_name self) [] initial_input))
     ∧ execute_parallel schedule self initial_input w
       = Some (w, Returned (ResultsDict (strand_name self) []))
     ∧ execute_graph self initial_input w
       = Some (w, Returned (ErrorDict "No agents in strand"))).
Proof.
  split_and!.
  - intros w' d. unfold execute_sequential, mbind, M_bind.
    destruct (sequential_loop_spec (agents self) initial_input [] w)
      as [(w1 & outs & -> & Hch) | (w1 & e1 & ? & ? & ? & ? & ? & -> & _)]; [| done].
    intros [= <- <-]. simpl. split_and!; [done | by exists outs | by eexists | done].
  - intros w' d Hrun.
    destruct (execute_parallel_sound _ _ _ _ _ _ Hrun) as (results & -> & Hall).
    simpl. split_and!; [done | by exists results | done | done].
  - intros Hne w' d Hrun.
    assert (Hfirst : ∃ first, head (agents self) = Some first).
    { destruct (agents self) as [| first rest]; [done | by exists first]. }
    destruct Hfirst as [first Hfirst].
    unfold execute_graph in Hrun. rewrite execute_graph_traced_erase in Hrun.
    destruct (execute_graph_traced_spec (length (agents self)) self initial_input w first
                Hfirst (Nat.le_refl _)) as (w2 & o & Htraced & Hpost).
    rewrite Htraced in Hrun.
    destruct o as [[d' tr] | e]; [| done].
    cbn [erase fst] in Hrun. injection Hrun as -> ->.
    destruct Hpost as (_ & results & -> & Hall & _).
    simpl. split_and!; [done | by exists results, tr | done | done].
  - intros Hempty. unfold execute_sequential, execute_parallel, execute_graph,
      execute_graph_fuel. rewrite Hempty. split_and!; [reflexivity | | reflexivity].
    unfold gather, start, mbind, M_bind. cbn [fmap list_fmap length seq foldl].
    by rewrite (wait_done schedule (mkGathering [] None) [] w eq_refl).
Qed.

(** The amended C9 on [empty_strand]. *)
Lemma execution_result_shape_witness :
  @execute_sequential example_host empty_strand (VDict []) example_world
  = Some (example_world, Returned (SequentialDict "empty" [] (VDict [])))
  ∧ @execute_parallel example_host [] empty_strand (VDict []) example_world
    = Some (example_world, Returned (ResultsDict "empty" []))
  ∧ @execute_graph example_host empty_strand (VDict []) example_world
    = Some (example_world, Returned (ErrorDict "No agents in strand")).
Proof.
  apply (@execution_result_shape example_host [] empty_strand (VDict []) example_world).
  reflexivity.
Defined.

(** C9 as stated fails: graph mode on a strand with an empty agent list
    returns a dict with neither the strand name nor results. *)
Lemma graph_mode_empty_strand_no_results :
  ∃ d, produced (@execute_graph example_host empty_strand (VDict []) example_world)
       = Some (Returned d)
       ∧ get_strand d = None ∧ get_results d = None
       ∧ get_error d = Some "No agents in strand".
Proof. by exists (ErrorDict "No agents in strand"). Qed.

(* ===================================================================== *)
(** * Further properties *)
(* ===================================================================== *)

(** ** Counters and rates *)

Lemma initial_metrics_ok : counters_ok initial_metrics.
Proof. unfold counters_ok. simpl. lia. Qed.

(** X1: [process] keeps the counters of every agent consistent, however
    the call ends: returned, raised an [Exception], or raised an error
    outside that hierarchy. *)
Theorem process_keeps_counters `{Host} (self : AgentRef) (input_data : Value) (w : World)
    (r : AgentRef) :
  counters_ok (metrics (agent_at w r)) →
  counters_ok (metrics (agent_at (fst (run (process self input_data) w)) r)).
Proof.
  intros Hok.
  pose proof (process_effect self input_data w) as (Hother & _ & _ & Htotal & Hrest).
  destruct (decide (r = self)) as [-> | Hne]; [| by rewrite Hother].
  unfold counters_ok in *.
  destruct (snd (run (process self input_data) w)) as [result | e];
    [| destruct (is_Exception e)]; lia.
Qed.

Lemma process_keeps_counters_witness :
  let w' := fst (run (@process example_host 5%nat VNone) example_world) in
  counters_ok (metrics (agent_at w' 5%nat)).
Proof.
  apply (@process_keeps_counters example_host 5%nat VNone example_world 5%nat).
  apply initial_metrics_ok.
Defined.

(** ** What every step of a run keeps *)

Section run_invariant.
Context `{Host} (I : World → Prop).
Hypothesis process_keeps : ∀ a x w, I w → I (fst (run (process a x) w)).

Lemma sequential_loop_keeps remaining current_data results w w' o :
  I w → sequential_loop remaining current_data results w = Some (w', o) → I w'.
Proof.
  revert current_data results w.
  induction remaining as [| agent rest IH]; intros current_data results w Hw.
  - by intros [= <- <-].
  - rewrite sequential_loop_cons. pose proof (process_keeps agent current_data w Hw) as Hw1.
    destruct (run (process agent current_data) w) as [w1 [result | e]]; cbn [fst] in Hw1.
    + by apply IH.
    + by intros [= <- <-].
Qed.

Lemma execute_sequential_keeps self initial_input w w' o :
  I w → execute_sequential self initial_input w = Some (w', o) → I w'.
Proof.
  intros Hw. unfold execute_sequential, mbind, M_bind.
  destruct (sequential_loop (agents self) initial_input [] w) as [[w1 [[c r] | e]] |] eqn:E;
    [| | done].
  - intros [= <- <-]. by eapply sequential_loop_keeps.
  - intros [= <- <-]. by eapply sequential_loop_keeps.
Qed.

Lemma for_successors_keeps recur self data successors st w w' o :
  (∀ id d st w w' o, I w → recur id d st w = Some (w', o) → I w') →
  I w → for_successors recur self data successors st w = Some (w', o) → I w'.
Proof.
  intros Hrec. revert st w. induction successors as [| next rest IH]; intros st w Hw.
  - by intros [= <- <-].
  - rewrite for_successors_cons.
    destruct (decide (next ∈ processed st)); [by apply IH |].
    destruct (next_with_id w (agents self) next) as [a |]; [| by apply IH].
    pose proof (process_keeps a data w Hw) as Hw1.
    destruct (run (process a data) w) as [w1 [result | e]]; cbn [fst] in Hw1.
    2: by intros [= <- <-].
    destruct (recur next result _ w1) as [[w2 [st2 | e]] |] eqn:E; [| | done].
    + apply IH. exact (Hrec _ _ _ _ _ _ Hw1 E).
    + intros [= <- <-]. exact (Hrec _ _ _ _ _ _ Hw1 E).
Qed.

Lemma process_next_keeps fuel self id data st w w' o :
  I w → process_next fuel self id data st w = Some (w', o) → I w'.
Proof.
  revert id data st w w' o. induction fuel as [| fuel IH]; intros id data st w w' o Hw;
    [done |].
  cbn [process_next].
  destruct (communication_graph self !! id) as [successors |]; [| by intros [= <- <-]].
  by apply for_successors_keeps.
Qed.

Lemma execute_graph_keeps self initial_input w w' o :
  I w → execute_graph self initial_input w = Some (w', o) → I w'.
Proof.
  intros Hw. unfold execute_graph, execute_graph_fuel.
  destruct (agents self) as [| first_agent rest]; [by intros [= <- <-] |].
  unfold mbind, M_bind, get_world, await.
  pose proof (process_keeps first_agent initial_input w Hw) as Hw1.
  destruct (run (process first_agent initial_input) w) as [w1 [result | e]]; cbn [fst] in Hw1.
  2: by intros [= <- <-].
  destruct (process_next _ self _ result _ w1) as [[w2 [st2 | e]] |] eqn:E; [| | done].
  - intros [= <- <-]. by eapply process_next_keeps.
  - intros [= <- <-]. by eapply process_next_keeps.
Qed.
End run_invariant.

Lemma all_counters_ok_frame w w' :
  (∀ r, metrics (agent_at w' r) = metrics (agent_at w r)) →
  all_counters_ok w → all_counters_ok w'.
Proof. intros Hm Hw r. rewrite Hm. apply Hw. Qed.

Lemma process_rest_keeps `{Host} self start_time (k : Coro LogicView Value) :
  keeps_at_yields all_counters_ok (process_rest self start_time k).
Proof.
  induction k as [a | e | k IH | v k IH | k IH]; constructor; intros w Hw.
  - split; [| done]. unfold process_rest. simpl.
    intros r. specialize (Hw r). unfold counters_ok in *.
    destruct (decide (r = self)) as [-> | Hne]; heap_lookup; [lia | done].
  - unfold process_rest. simpl.
    destruct (is_Exception e); simpl; (split; [| done]); intros r; specialize (Hw r);
      unfold counters_ok in *;
      (destruct (decide (r = self)) as [-> | Hne]; heap_lookup; [lia | done]).
  - apply (keeps_at_yields_inv _ _ w (IH (logic_view self w)) Hw).
  - assert (Hw' : all_counters_ok (logic_update self v w)).
    { apply (all_counters_ok_frame w); [| done]. intros r.
      destruct (decide (r = self)) as [-> | Hne]; by heap_lookup. }
    apply (keeps_at_yields_inv _ _ _ IH Hw').
  - split; [done |]. simpl. by intros k' [= <-].
Qed.

Lemma process_keeps_at_yields `{Host} self input_data :
  keeps_at_yields all_counters_ok (process self input_data).
Proof.
  constructor. intros w Hw.
  set (w0 := after (process_entry self) w).
  assert (Hw0 : all_counters_ok w0).
  { apply (all_counters_ok_frame w); [| done]. intros r. unfold w0, after.
    destruct (decide (r = self)) as [-> | Hne]; by heap_lookup. }
  apply (keeps_at_yields_inv _ _ w0
           (process_rest_keeps self (readings (w_clock w) (cursor (w_clock w)))
              (_execute_logic (agent_at w0 self) input_data)) Hw0).
Qed.

Lemma process_all_counters_ok `{Host} self input_data w :
  all_counters_ok w → all_counters_ok (fst (run (process self input_data) w)).
Proof.
  intros Hw r. specialize (Hw r).
  pose proof (process_effect self input_data w) as (Hother & _ & _ & Htotal & Hrest).
  destruct (decide (r = self)) as [-> | Hne]; [| by rewrite Hother].
  unfold counters_ok in *.
  destruct (snd (run (process self input_data) w)) as [result | e];
    [| destruct (is_Exception e)]; lia.
Qed.

Lemma process_tasks_keep `{Host} (input_data : Value) (l : list AgentRef) :
  Forall (task_keeps all_counters_ok) (Pending <$> ((λ agent, process agent input_data) <$> l)).
Proof.
  induction l as [| a l IH]; constructor; [| exact IH].
  exact (process_keeps_at_yields a input_data).
Qed.

Lemma example_world_counters_ok : all_counters_ok example_world.
Proof. intros r. do 6 (destruct r as [| r]; [apply initial_metrics_ok |]). apply initial_metrics_ok. Qed.

(** X3: a strand run keeps the counters of every agent consistent, in
    every mode and however the run ends; in parallel mode under every
    order in which the event loop resumes the tasks. *)
Theorem execute_strand_keeps_counters `{Host} (schedule : list nat) (self : MultiAgentSystem)
    (strand_name : string) (input_data : Value) (mode : string) (w w' : World)
    (o : Outcome StrandResult) :
  all_counters_ok w →
  execute_strand schedule self strand_name input_data mode w = Some (w', o) →
  all_counters_ok w'.
Proof.
  intros Hw. unfold execute_strand.
  assert (Hp : ∀ a x w, all_counters_ok w → all_counters_ok (fst (run (process a x) w))).
  { intros a x w0 Hw0. by apply process_all_counters_ok. }
  destruct (strands self !! strand_name) as [strand |]; [| by intros [= <- <-]].
  repeat case_decide; try by intros [= <- <-].
  - by apply execute_sequential_keeps.
  - intros Hrun.
    destruct (execute_parallel_interleaved _ _ _ _ _ _ Hrun)
      as (order & errors & ts' & Hsteps & _).
    exact (interleaved_keeps _ _ _ _ _ _ _ Hsteps (process_tasks_keep _ _) Hw).
  - by apply execute_graph_keeps.
Qed.

Lemma execute_strand_keeps_counters_witness :
  ∃ w' o,
    @execute_strand example_host [3; 0; 1; 2; 0; 3; 2; 1] example_system "diamond" VNone
      "parallel" example_world = Some (w', o)
    ∧ all_counters_ok w'.
Proof.
  destruct (@execute_strand example_host [3; 0; 1; 2; 0; 3; 2; 1] example_system "diamond" VNone
              "parallel" example_world) as [[w' o] |] eqn:E.
  - exists w', o. split; [reflexivity |].
    exact (@execute_strand_keeps_counters example_host _ _ _ _ _ _ _ _
             example_world_counters_ok E).
  - vm_compute in E. discriminate E.
Defined.


(** ** The default logic *)

(** X4: an agent of the base class, called through [process], returns the
    dict [{"agent", "status": "success", "data", "timestamp"}] with its own
    name, the input as ["data"] and the second clock reading of the call as
    timestamp; afterwards its memory answers the input under ["last_input"]
    and the returned dict under ["last_output"], the journal and the other
    memories are as before, the log has one more entry and the clock has
    been read four times. *)
Theorem default_logic_process `{Host} (self : AgentRef) (input_data : Value) (w : World) :
  (∀ a x, class_name a = "Agent" → _execute_logic a x = Agent_execute_logic a x) →
  class_name (agent_at w self) = "Agent" →
  let a := agent_at w self in
  let c := w_clock w in
  let result := VDict [("agent", VStr (agent_name a)); ("status", VStr "success");
                       ("data", input_data);
                       ("timestamp", VFloat (readings c (S (cursor c))))] in
  let w' := fst (run (process self input_data) w) in
  let m' := memory_at w' (memory a) in
  snd (run (process self input_data) w) = Returned result
  ∧ retrieve "last_input" m' = input_data
  ∧ retrieve "last_output" m' = result
  ∧ long_term m' = long_term (memory_at w (memory a))
  ∧ (∀ r, r ≠ memory a → memory_at w' r = memory_at w r)
  ∧ execution_log (agent_at w' self)
    = execution_log a
      ++ [mkLogEntry (readings c (3 + cursor c)) (agent_name a) "info"
            ("Completed processing in "
             +:+ format_2f (readings c (2 + cursor c) - readings c (cursor c))%Q +:+ "s")]
  ∧ cursor (w_clock w') = (4 + cursor c)%nat.
Proof.
  intros Hhost Hcls a c result w' m'. subst w' m'. rewrite run_process.
  unfold execute_logic. cbn [run].
  rewrite Hhost by (rewrite after_entry_self; exact Hcls).
  rewrite after_entry_self.
  unfold after. simpl.
  rewrite !fn_lookup_insert. simpl.
  split_and!; try done.
  - unfold retrieve. simpl. rewrite lookup_insert_ne by done. by rewrite lookup_insert.
  - unfold retrieve. simpl. by rewrite lookup_insert.
  - intros r Hr. by rewrite !fn_lookup_insert_ne by (subst a; congruence).
Qed.

Lemma default_logic_process_witness :
  snd (run (@process example_host 6%nat (VStr "hello")) example_world)
  = Returned (VDict [("agent", VStr "Plain"); ("status", VStr "success");
                     ("data", VStr "hello"); ("timestamp", VFloat 1)]).
Proof.
  apply (@default_logic_process example_host 6%nat (VStr "hello") example_world).
  - intros a x Hcls. simpl. rewrite Hcls. reflexivity.
  - reflexivity.
Defined.


(** ** Building a strand *)

Lemma share_memory_loop mem agents w :
  let w' := foldl (λ w agent, set_agent agent (set_memory_ref mem (agent_at w agent)) w)
              w agents in
  (∀ a, a ∈ agents → agent_at w' a = set_memory_ref mem (agent_at w a))
  ∧ (∀ r, r ∉ agents → agent_at w' r = agent_at w r)
  ∧ memory_at w' = memory_at w
  ∧ w_clock w' = w_clock w.
Proof.
  revert w. induction agents as [| agent rest IH]; intros w; cbn [foldl].
  - split_and!; [| done..]. by intros a Ha%elem_of_nil.
  - destruct (IH (set_agent agent (set_memory_ref mem (agent_at w agent)) w))
      as (Hin & Hout & Hmem & Hclock).
    split_and!.
    + intros a Ha. destruct (decide (a ∈ rest)) as [Hrest | Hrest].
      * rewrite (Hin a Hrest). simpl.
        destruct (decide (a = agent)) as [-> | Hne];
          [by rewrite fn_lookup_insert | by rewrite fn_lookup_insert_ne].
      * rewrite (Hout a Hrest). simpl.
        apply elem_of_cons in Ha as [-> | Ha]; [| done]. by rewrite fn_lookup_insert.
    + intros r Hr. apply not_elem_of_cons in Hr as [Hne Hr].
      rewrite (Hout r Hr). simpl. by rewrite fn_lookup_insert_ne.
    + by rewrite Hmem.
    + by rewrite Hclock.
Qed.

Lemma logic_view_shared a b v w :
  memory (agent_at w a) = memory (agent_at w b) →
  lv_memory (logic_view b (logic_update a v w)) = lv_memory v.
Proof.
  intros Hm. unfold logic_view, logic_update. simpl.
  destruct (decide (a = b)) as [-> | Hne].
  - rewrite fn_lookup_insert. simpl. by rewrite fn_lookup_insert.
  - rewrite (fn_lookup_insert_ne (agent_at w) a b) by done. rewrite Hm.
    by rewrite fn_lookup_insert.
Qed.

(** X5: a new strand has an empty communication graph and the agent list
    it was given; every agent of the list points to the memory of the
    strand, whatever memory it had before, has every other field as
    before, and reads what any agent of the list has written (an agent
    listed twice included); agents outside the list are untouched.  The
    memory of the strand is the one passed in, with its contents, or else
    a new empty one. *)
Theorem strand_init_shares_memory (name : string) (agent_list : list AgentRef)
    (shared : option MemRef) (fresh : MemRef) (w : World) :
  let strand := fst (AgentStrand__init__ name agent_list shared fresh w) in
  let w' := snd (AgentStrand__init__ name agent_list shared fresh w) in
  communication_graph strand = ∅
  ∧ agents strand = agent_list
  ∧ (∀ a, a ∈ agent_list →
       agent_at w' a = set_memory_ref (shared_memory strand) (agent_at w a))
  ∧ (∀ a b v, a ∈ agent_list → b ∈ agent_list →
       lv_memory (logic_view b (logic_update a v w')) = lv_memory v)
  ∧ (∀ r, r ∉ agent_list → agent_at w' r = agent_at w r)
  ∧ match shared with
    | Some m => shared_memory strand = m ∧ memory_at w' = memory_at w
    | None => shared_memory strand = fresh
              ∧ memory_at w' fresh = empty_memory
              ∧ ∀ r, r ≠ fresh → memory_at w' r = memory_at w r
    end.
Proof.
  unfold AgentStrand__init__.
  destruct shared as [m |]; cbn [fst snd].
  - destruct (share_memory_loop m agent_list w) as (Hin & Hout & Hmem & Hclock).
    split_and!; try done.
    intros a b v Ha Hb. apply logic_view_shared. by rewrite (Hin a Ha), (Hin b Hb).
  - destruct (share_memory_loop fresh agent_list (set_memory fresh empty_memory w))
      as (Hin & Hout & Hmem & Hclock).
    split_and!; try done.
    + intros a b v Ha Hb. apply logic_view_shared. by rewrite (Hin a Ha), (Hin b Hb).
    + rewrite Hmem. simpl. by rewrite fn_lookup_insert.
    + intros r Hr. rewrite Hmem. simpl. by rewrite fn_lookup_insert_ne.
Qed.


Lemma link_agents_cons a b rest strand :
  link_agents (a :: b :: rest) strand = link_agents (b :: rest) (add_communication a b strand).
Proof.
  unfold link_agents. cbn [length Nat.sub]. rewrite Nat.sub_0_r.
  cbn [seq foldl lookup list_lookup]. rewrite <-fmap_S_seq, foldl_fmap. reflexivity.
Qed.

Lemma add_communication_lookup from_agent to_agent strand x :
  communication_graph (add_communication from_agent to_agent strand) !! x
  = if decide (x = from_agent)
    then Some (default [] (communication_graph strand !! from_agent) ++ [to_agent])
    else communication_graph strand !! x.
Proof.
  unfold add_communication. cbn [communication_graph].
  destruct (decide (x = from_agent)) as [-> | Hne].
  - rewrite lookup_insert_eq.
    destruct (communication_graph strand !! from_agent) as [l |] eqn:E.
    + by rewrite E.
    + by rewrite lookup_insert_eq.
  - rewrite lookup_insert_ne by done.
    destruct (communication_graph strand !! from_agent) as [l |] eqn:E; [done |].
    by rewrite lookup_insert_ne.
Qed.

Lemma link_agents_graph ids strand :
  NoDup ids →
  (∀ x, x ∈ ids → communication_graph strand !! x = None) →
  (∀ i a, ids !! i = Some a →
     communication_graph (link_agents ids strand) !! a = (λ b, [b]) <$> ids !! S i)
  ∧ (∀ x, x ∉ ids →
       communication_graph (link_agents ids strand) !! x = communication_graph strand !! x).
Proof.
  revert strand. induction ids as [| a ids IH]; intros strand Hnd Hfresh.
  - split; [by intros i a | done].
  - destruct ids as [| b rest].
    + split; [| done]. intros [| i] x [= <-]. simpl. apply Hfresh. by left.
    + rewrite link_agents_cons. apply NoDup_cons in Hnd as [Ha Hnd].
      destruct (IH (add_communication a b strand) Hnd) as [Hin Hout].
      { intros x Hx. rewrite add_communication_lookup.
        destruct (decide (x = a)) as [-> | Hne]; [done |]. apply Hfresh. by right. }
      split.
      * intros [| i] x Hx.
        -- injection Hx as <-. rewrite (Hout a Ha), add_communication_lookup.
           rewrite decide_True by done. rewrite Hfresh by (by left). done.
        -- apply (Hin i x Hx).
      * intros x Hx. apply not_elem_of_cons in Hx as [Hne Hx].
        rewrite (Hout x Hx), add_communication_lookup. by rewrite decide_False.
Qed.

Lemma link_agents_fields ids strand :
  strand_name (link_agents ids strand) = strand_name strand
  ∧ agents (link_agents ids strand) = agents strand
  ∧ shared_memory (link_agents ids strand) = shared_memory strand.
Proof.
  revert strand. induction ids as [| a ids IH]; intros strand; [done |].
  destruct ids as [| b rest]; [done |].
  rewrite link_agents_cons. destruct (IH (add_communication a b strand)) as (-> & -> & ->).
  done.
Qed.

(** X6: linked by the loop of [generate_system], a strand with an empty
    graph and agents of pairwise distinct ids has each id but the last
    followed by exactly the id of the next agent of the list; the last id,
    and every id that is not in the list, has no entry.  Name, agents and
    memory of the strand stay as they are. *)
Theorem link_agents_chain (ids : list string) (strand : AgentStrand) :
  NoDup ids →
  communication_graph strand = ∅ →
  let linked := link_agents ids strand in
  (∀ i a, ids !! i = Some a →
     communication_graph linked !! a = (λ b, [b]) <$> ids !! S i)
  ∧ (∀ x, x ∉ ids → communication_graph linked !! x = None)
  ∧ strand_name linked = strand_name strand
  ∧ agents linked = agents strand
  ∧ shared_memory linked = shared_memory strand.
Proof.
  intros Hnd Hempty linked.
  destruct (link_agents_graph ids strand Hnd) as [Hin Hout].
  { intros x _. by rewrite Hempty. }
  split_and!; [exact Hin | | apply link_agents_fields..].
  intros x Hx. subst linked. rewrite (Hout x Hx), Hempty. done.
Qed.

Lemma link_agents_chain_witness :
  let linked := link_agents ["intake"; "classifier"; "resolver"]
                  (mkAgentStrand "s" [0; 1; 2]%nat 0%nat ∅) in
  communication_graph linked !! "intake" = Some ["classifier"]
  ∧ communication_graph linked !! "classifier" = Some ["resolver"]
  ∧ communication_graph linked !! "resolver" = None.
Proof.
  intros linked.
  destruct (link_agents_chain ["intake"; "classifier"; "resolver"]
              (mkAgentStrand "s" [0; 1; 2]%nat 0%nat ∅)) as (Hin & _).
  - repeat constructor; set_solver.
  - reflexivity.
  - split_and!.
    + exact (Hin 0%nat "intake" eq_refl).
    + exact (Hin 1%nat "classifier" eq_refl).
    + exact (Hin 2%nat "resolver" eq_refl).
Defined.


(** ** Graph mode on a chain *)

Lemma find_by_key {A B} `{EqDecision B} (f : A → B) (l : list A) j b :
  NoDup (f <$> l) → l !! j = Some b →
  find (λ a, bool_decide (f a = f b)) l = Some b.
Proof.
  revert j. induction l as [| a l IH]; intros j Hnd Hj; [done |].
  rewrite fmap_cons in Hnd. apply NoDup_cons in Hnd as [Ha Hnd].
  destruct j as [| j]; simpl in Hj.
  - injection Hj as ->. simpl. by rewrite bool_decide_true.
  - simpl. rewrite bool_decide_false; [by eapply IH |].
    intros Heq. apply Ha. rewrite Heq. apply list_elem_of_fmap. exists b.
    split; [done |]. by eapply list_elem_of_lookup_2.
Qed.

Lemma next_with_id_chain self w0 w j b :
  NoDup (strand_ids w0 self) → same_ids w0 w → agents self !! j = Some b →
  next_with_id w (agents self) (agent_id (agent_at w0 b)) = Some b.
Proof.
  intros Hnd Hids Hj. rewrite (next_with_id_same w0 w) by done.
  unfold next_with_id. by apply (find_by_key (λ a, agent_id (agent_at w0 a)) _ j).
Qed.

Lemma process_next_chain `{Host} fuel self w0 i a data st w :
  NoDup (strand_ids w0 self) →
  (∀ i x, strand_ids w0 self !! i = Some x →
     communication_graph self !! x = (λ y, [y]) <$> strand_ids w0 self !! S i) →
  same_ids w0 w →
  agents self !! i = Some a →
  processed st = list_to_set (take (S i) (strand_ids w0 self)) →
  (length (agents self) - i ≤ fuel)%nat →
  erase walk_results (process_next fuel self (agent_id (agent_at w0 a)) data st w)
  = erase snd (sequential_loop (drop (S i) (agents self)) data (walk_results st) w).
Proof.
  intros Hnd Hgraph. revert i a data st w.
  induction fuel as [| fuel IH]; intros i a data st w Hids Ha Hst Hfuel.
  { apply lookup_lt_Some in Ha. lia. }
  assert (Hia : strand_ids w0 self !! i = Some (agent_id (agent_at w0 a))).
  { unfold strand_ids. by rewrite list_lookup_fmap, Ha. }
  cbn [process_next]. rewrite (Hgraph i _ Hia).
  destruct (agents self !! S i) as [b |] eqn:Hb.
  - assert (Hib : strand_ids w0 self !! S i = Some (agent_id (agent_at w0 b))).
    { unfold strand_ids. by rewrite list_lookup_fmap, Hb. }
    rewrite Hib. cbn [fmap option_fmap option_map].
    rewrite (drop_S _ _ _ Hb), sequential_loop_cons, for_successors_cons.
    rewrite decide_False.
    2: { rewrite Hst, elem_of_list_to_set. intros Hin.
         apply list_elem_of_lookup in Hin as [j Hj].
         apply lookup_take_Some in Hj as [Hj Hlt].
         pose proof (NoDup_lookup _ _ _ _ Hnd Hj Hib). lia. }
    rewrite (next_with_id_chain self w0 w (S i) b Hnd Hids Hb).
    pose proof (process_same_ids b data w) as Hids1.
    destruct (run (process b data) w) as [w1 [result | e]]; cbn [fst] in Hids1; [| done].
    specialize (IH (S i) b result
                  (mkWalk ({[agent_id (agent_at w0 b)]} ∪ processed st)
                     (walk_results st ++ [result])) w1).
    cbn [walk_results processed] in IH. rewrite <-IH.
    + by destruct (process_next fuel self _ result _ w1) as [[w2 [st2 | e]] |].
    + by eapply same_ids_trans.
    + done.
    + rewrite Hst, (take_S_r _ _ _ Hib), list_to_set_app_L. set_solver.
    + lia.
  - assert (Hib : strand_ids w0 self !! S i = None).
    { unfold strand_ids. by rewrite list_lookup_fmap, Hb. }
    rewrite Hib. cbn [fmap option_fmap option_map].
    rewrite drop_ge by (by apply lookup_ge_None). done.
Qed.

Lemma graph_run_on_chain `{Host} (self : AgentStrand) (initial_input : Value) (w : World) :
  agents self ≠ [] →
  NoDup (strand_ids w self) →
  (∀ i x, strand_ids w self !! i = Some x →
     communication_graph self !! x = (λ y, [y]) <$> strand_ids w self !! S i) →
  execute_graph self initial_input w
  = erase without_final_output (execute_sequential self initial_input w).
Proof.
  intros Hne Hnd Hgraph.
  unfold execute_graph, execute_graph_fuel, execute_sequential.
  destruct (agents self) as [| first_agent rest] eqn:Hl; [done |].
  unfold mbind, M_bind, await, get_world. rewrite sequential_loop_cons.
  pose proof (process_same_ids first_agent initial_input w) as Hids.
  destruct (run (process first_agent initial_input) w) as [w1 [result | e]]; cbn [fst] in Hids;
    [| done].
  rewrite (Hids first_agent).
  assert (Hchain := process_next_chain (length (first_agent :: rest)) self w 0 first_agent result
                      (mkWalk {[agent_id (agent_at w first_agent)]} [result]) w1
                      Hnd Hgraph Hids).
  rewrite Hl in Hchain. cbn [walk_results drop] in Hchain.
  specialize (Hchain eq_refl).
  assert (Hp : processed (mkWalk {[agent_id (agent_at w first_agent)]} [result])
               = list_to_set (take 1 (strand_ids w self))).
  { unfold strand_ids. rewrite Hl. cbn. set_solver. }
  specialize (Hchain Hp ltac:(simpl; lia)). rewrite drop_0 in Hchain.
  change ([] ++ [result]) with [result].
  destruct (process_next _ self _ result _ w1) as [[w2 [st2 | e]] |];
    destruct (sequential_loop rest result _ w1) as [[w3 [[c r] | e']] |];
    cbn [erase] in Hchain |- *; try discriminate Hchain.
  - by injection Hchain as <- <-.
  - by injection Hchain as <- <-.
  - done.
Qed.

(** X7: on a strand built the way [generate_system] builds it (agents of
    pairwise distinct ids, each linked to the next), a graph run does what a
    sequential run does: the same calls of [process] on the same data in the
    same order, hence the same heap, and the same results or the same error;
    the returned dict only lacks ["final_output"].  The strand has at most
    100 agents: the graph run nests one call of [process_next] per agent,
    and that many stay far from the recursion limit of the interpreter. *)
Theorem chain_graph_run_is_sequential `{Host} (strand : AgentStrand) (initial_input : Value)
    (w : World) :
  (length (agents strand) ≤ 100)%nat →
  agents strand ≠ [] →
  NoDup (strand_ids w strand) →
  communication_graph strand = ∅ →
  let self := link_agents (strand_ids w strand) strand in
  execute_graph self initial_input w
  = erase without_final_output (execute_sequential self initial_input w).
Proof.
  intros _ Hne Hnd Hempty self.
  destruct (link_agents_fields (strand_ids w strand) strand) as (_ & Hagents & _).
  fold self in Hagents.
  assert (Hsids : strand_ids w self = strand_ids w strand)
    by (unfold strand_ids; by rewrite Hagents).
  destruct (link_agents_graph (strand_ids w strand) strand Hnd) as [Hgraph _].
  { intros x _. by rewrite Hempty. }
  fold self in Hgraph. rewrite <-Hsids in Hgraph, Hnd.
  apply graph_run_on_chain; [by rewrite Hagents | done..].
Qed.

Lemma chain_graph_run_is_sequential_witness :
  let strand := mkAgentStrand "line" [0; 1; 2; 3]%nat 0%nat ∅ in
  let self := link_agents (strand_ids example_world strand) strand in
  @execute_graph example_host self VNone example_world
  = erase without_final_output (@execute_sequential example_host self VNone example_world).
Proof.
  apply (@chain_graph_run_is_sequential example_host
           (mkAgentStrand "line" [0; 1; 2; 3]%nat 0%nat ∅) VNone example_world).
  - simpl. lia.
  - discriminate.
  - apply (bool_decide_unpack _). vm_compute. exact I.
  - reflexivity.
Defined.


(** ** Generated systems *)

Lemma workflow_ids_distinct (workflow_type : string) :
  NoDup (spec_id <$> create_agents_for_workflow workflow_type).
Proof.
  unfold create_agents_for_workflow.
  repeat case_decide; apply (bool_decide_unpack _); vm_compute; exact I.
Qed.

Lemma create_agents_length (workflow_type : string) :
  (length (create_agents_for_workflow workflow_type) ≤ 5)%nat
  ∧ (3 ≤ length (create_agents_for_workflow workflow_type))%nat.
Proof. unfold create_agents_for_workflow. repeat case_decide; simpl; lia. Qed.

(** X8: whatever the workflow type, [create_agents_for_workflow] returns
    at least three agents, and no two of them have the same id. *)
Theorem create_agents_distinct_ids (workflow_type : string) :
  NoDup (spec_id <$> create_agents_for_workflow workflow_type)
  ∧ (3 ≤ length (create_agents_for_workflow workflow_type))%nat.
Proof.
  split; [apply workflow_ids_distinct |].
  unfold create_agents_for_workflow. repeat case_decide; simpl; lia.
Qed.

Lemma construct_agents_spec r m specs w :
  let refs := fst (construct_agents r m specs w) in
  let w' := snd (construct_agents r m specs w) in
  refs = seq r (length specs)
  ∧ (∀ i spec, specs !! i = Some spec →
       agent_at w' (r + i)%nat
       = new_agent (spec_class spec) (spec_id spec) (spec_name spec) (spec_role spec)
           (m + i)%nat)
  ∧ (∀ r', (r' < r)%nat ∨ (r + length specs ≤ r')%nat → agent_at w' r' = agent_at w r')
  ∧ (∀ i, (i < length specs)%nat → memory_at w' (m + i)%nat = empty_memory)
  ∧ (∀ m', (m' < m)%nat ∨ (m + length specs ≤ m')%nat → memory_at w' m' = memory_at w m')
  ∧ w_clock w' = w_clock w.
Proof.
  revert r m w. induction specs as [| spec rest IH]; intros r m w; cbn [construct_agents].
  - cbn [fst snd length seq]. split_and!; try done. intros i Hi. lia.
  - specialize (IH (S r) (S m)
                  (set_agent r (new_agent (spec_class spec) (spec_id spec) (spec_name spec)
                                  (spec_role spec) m)
                     (set_memory m empty_memory w))).
    destruct (construct_agents (S r) (S m) rest _) as [refs w'].
    cbn [fst snd] in IH |- *. destruct IH as (Hrefs & Hin & Hout & Hmin & Hmout & Hclock).
    split_and!.
    + by rewrite Hrefs.
    + intros [| i] spec' Hi.
      * injection Hi as <-. rewrite Nat.add_0_r, Hout by lia. simpl.
        by rewrite Nat.add_0_r, fn_lookup_insert.
      * replace (r + S i)%nat with (S r + i)%nat by lia.
        replace (m + S i)%nat with (S m + i)%nat by lia. by apply Hin.
    + intros r' Hr'. cbn [length] in Hr'. rewrite Hout by lia. simpl.
      apply fn_lookup_insert_ne. lia.
    + intros [| i] Hi; cbn [length] in Hi.
      * rewrite Nat.add_0_r, Hmout by lia. simpl. by rewrite fn_lookup_insert.
      * replace (m + S i)%nat with (S m + i)%nat by lia. apply Hmin. lia.
    + intros m' Hm'. cbn [length] in Hm'. rewrite Hmout by lia. simpl.
      apply fn_lookup_insert_ne. lia.
    + by rewrite Hclock.
Qed.

Lemma generate_system_unfold workflow_type r m sys w :
  let specs := create_agents_for_workflow workflow_type in
  let n := length specs in
  let w2 := set_memory (m + n)%nat empty_memory (snd (construct_agents r m specs w)) in
  let w3 := snd (AgentStrand__init__ (workflow_type +:+ "_strand") (seq r n)
                   (Some (m + n)%nat) (m + n)%nat w2) in
  let strand0 := mkAgentStrand (workflow_type +:+ "_strand") (seq r n) (m + n)%nat ∅ in
  generate_system workflow_type r m sys w
  = (add_strand (link_agents (strand_ids w3 strand0) strand0) sys, w3).
Proof.
  intros specs n w2 w3 strand0. unfold generate_system. fold specs.
  pose proof (construct_agents_spec r m specs w) as (Hrefs & _).
  subst w3 w2. destruct (construct_agents r m specs w) as [refs w1]. cbn [fst snd] in *.
  subst refs. rewrite length_seq. fold n. reflexivity.
Qed.

Lemma generated_agents workflow_type r m w i spec :
  let specs := create_agents_for_workflow workflow_type in
  let n := length specs in
  let w2 := set_memory (m + n)%nat empty_memory (snd (construct_agents r m specs w)) in
  let w3 := snd (AgentStrand__init__ (workflow_type +:+ "_strand") (seq r n)
                   (Some (m + n)%nat) (m + n)%nat w2) in
  specs !! i = Some spec →
  agent_at w3 (r + i)%nat
  = new_agent (spec_class spec) (spec_id spec) (spec_name spec) (spec_role spec) (m + n)%nat.
Proof.
  intros specs n w2 w3 Hi.
  pose proof (construct_agents_spec r m specs w) as (_ & Hin & _).
  cbn zeta in Hin.
  pose proof (strand_init_loop := share_memory_loop (m + n)%nat (seq r n) w2).
  destruct strand_init_loop as (Hshare & _).
  subst w3. unfold AgentStrand__init__. cbn [snd].
  rewrite Hshare.
  - subst w2. simpl. by rewrite (Hin i spec Hi).
  - apply elem_of_seq. apply lookup_lt_Some in Hi. fold n in Hi. lia.
Qed.

Lemma generated_ids workflow_type r m w :
  let specs := create_agents_for_workflow workflow_type in
  let n := length specs in
  let w2 := set_memory (m + n)%nat empty_memory (snd (construct_agents r m specs w)) in
  let w3 := snd (AgentStrand__init__ (workflow_type +:+ "_strand") (seq r n)
                   (Some (m + n)%nat) (m + n)%nat w2) in
  let strand0 := mkAgentStrand (workflow_type +:+ "_strand") (seq r n) (m + n)%nat ∅ in
  strand_ids w3 strand0 = spec_id <$> specs.
Proof.
  intros specs n w2 w3 strand0. unfold strand_ids. cbn [agents strand0].
  apply list_eq. intros i. rewrite !list_lookup_fmap.
  destruct (specs !! i) as [spec |] eqn:Hi.
  - pose proof (lookup_lt_Some _ _ _ Hi) as Hlt. fold n in Hlt.
    rewrite lookup_seq_lt by done. cbn [fmap option_fmap option_map].
    f_equal. subst w3 w2 n specs. by rewrite (generated_agents workflow_type r m w i spec Hi).
  - apply lookup_ge_None in Hi. fold n in Hi. by rewrite lookup_seq_ge.
Qed.

(** X9: [generate_system] registers, under the name [<type>_strand], a
    strand over newly made agents that carry the class, id, name and role
    [create_agents_for_workflow] gives them, are idle with an empty log and
    zeroed metrics, and all point to one new, empty memory; in its graph
    each agent is followed by exactly the next one of the list and the
    last by none.  Strands registered under other names, and agents that
    were there before, are as they were. *)
Theorem generate_system_registers (workflow_type : string) (r : AgentRef) (m : MemRef)
    (multi_agent_system : MultiAgentSystem) (w : World) :
  let specs := create_agents_for_workflow workflow_type in
  let name := workflow_type +:+ "_strand" in
  let system := fst (generate_system workflow_type r m multi_agent_system w) in
  let w' := snd (generate_system workflow_type r m multi_agent_system w) in
  ∃ strand,
    strands system !! name = Some strand
    ∧ strand_name strand = name
    ∧ agents strand = seq r (length specs)
    ∧ memory_at w' (shared_memory strand) = empty_memory
    ∧ (∀ i spec, specs !! i = Some spec →
         agent_at w' (r + i)%nat
         = new_agent (spec_class spec) (spec_id spec) (spec_name spec) (spec_role spec)
             (shared_memory strand)
         ∧ communication_graph strand !! spec_id spec
           = (λ next, [spec_id next]) <$> specs !! S i)
    ∧ (∀ other, other ≠ name →
         strands system !! other = strands multi_agent_system !! other)
    ∧ (∀ r', (r' < r)%nat ∨ (r + length specs ≤ r')%nat → agent_at w' r' = agent_at w r').
Proof.
  intros specs name system w'. subst system w'.
  rewrite generate_system_unfold. cbn [fst snd]. fold specs.
  set (n := length specs).
  set (w2 := set_memory (m + n)%nat empty_memory (snd (construct_agents r m specs w))).
  set (w3 := snd (AgentStrand__init__ (workflow_type +:+ "_strand") (seq r n)
                    (Some (m + n)%nat) (m + n)%nat w2)).
  set (strand0 := mkAgentStrand (workflow_type +:+ "_strand") (seq r n) (m + n)%nat ∅).
  pose proof (generated_ids workflow_type r m w) as Hids. cbn zeta in Hids.
  fold specs n w2 w3 strand0 in Hids. rewrite Hids.
  pose proof (workflow_ids_distinct workflow_type) as Hnd. fold specs in Hnd.
  destruct (link_agents_graph (spec_id <$> specs) strand0 Hnd) as [Hgraph _]; [done |].
  destruct (link_agents_fields (spec_id <$> specs) strand0) as (Hname & Hagents & Hmem).
  exists (link_agents (spec_id <$> specs) strand0).
  pose proof (share_memory_loop (m + n)%nat (seq r n) w2) as (Hshare & Hout & Hmemory & _).
  split_and!.
  - unfold add_strand. cbn [strands]. rewrite Hname. apply lookup_insert_eq.
  - by rewrite Hname.
  - by rewrite Hagents.
  - rewrite Hmem. cbn [shared_memory strand0]. subst w3. unfold AgentStrand__init__.
    cbn [snd]. rewrite Hmemory. subst w2. simpl. by rewrite fn_lookup_insert.
  - intros i spec Hi. split.
    + rewrite Hmem. apply (generated_agents workflow_type r m w i spec Hi).
    + rewrite (Hgraph i (spec_id spec)) by (by rewrite list_lookup_fmap, Hi).
      rewrite list_lookup_fmap. by destruct (specs !! S i).
  - intros other Hother. unfold add_strand. cbn [strands]. rewrite Hname.
    by apply lookup_insert_ne.
  - intros r' Hr'. subst w3. unfold AgentStrand__init__. cbn [snd].
    rewrite Hout by (rewrite elem_of_seq; lia).
    subst w2. simpl.
    by pose proof (construct_agents_spec r m specs w) as (_ & _ & -> & _).
Qed.

(** X10: in a generated system a graph run of the new strand does what a
    sequential run does, from the heap [generate_system] leaves and from
    any later heap in which the agents have kept their ids: the same calls
    of [process] on the same data, the same heap at the end, the same
    results or the same error. *)
Theorem generated_graph_run_is_sequential `{Host} (workflow_type : string) (r : AgentRef)
    (m : MemRef) (multi_agent_system : MultiAgentSystem) (w w'' : World)
    (schedule : list nat) (input_data : Value) :
  let system := fst (generate_system workflow_type r m multi_agent_system w) in
  let w' := snd (generate_system workflow_type r m multi_agent_system w) in
  let name := workflow_type +:+ "_strand" in
  same_ids w' w'' →
  execute_strand schedule system name input_data "graph" w''
  = erase without_final_output
      (execute_strand schedule system name input_data "sequential" w'').
Proof.
  intros system w' name. subst system w'.
  rewrite generate_system_unfold. cbn [fst snd].
  set (specs := create_agents_for_workflow workflow_type).
  set (n := length specs).
  set (w2 := set_memory (m + n)%nat empty_memory (snd (construct_agents r m specs w))).
  set (w3 := snd (AgentStrand__init__ (workflow_type +:+ "_strand") (seq r n)
                    (Some (m + n)%nat) (m + n)%nat w2)).
  set (strand0 := mkAgentStrand (workflow_type +:+ "_strand") (seq r n) (m + n)%nat ∅).
  intros Hsame.
  pose proof (generated_ids workflow_type r m w) as Hids. cbn zeta in Hids.
  fold specs n w2 w3 strand0 in Hids. rewrite Hids.
  pose proof (workflow_ids_distinct workflow_type) as Hnd. fold specs in Hnd.
  destruct (link_agents_graph (spec_id <$> specs) strand0 Hnd) as [Hgraph _]; [done |].
  destruct (link_agents_fields (spec_id <$> specs) strand0) as (Hname & Hagents & _).
  set (self := link_agents (spec_id <$> specs) strand0) in *.
  unfold execute_strand, add_strand. cbn [strands]. rewrite Hname. subst name.
  cbn [strand_name strand0]. rewrite lookup_insert_eq.
  rewrite (decide_False (P := "graph" = "sequential")) by done.
  rewrite (decide_False (P := "graph" = "parallel")) by done.
  rewrite (decide_True (P := "graph" = "graph")) by done.
  rewrite (decide_True (P := "sequential" = "sequential")) by done.
  assert (Hsids : strand_ids w'' self = spec_id <$> specs).
  { rewrite <-Hids. unfold strand_ids. rewrite Hagents. cbn [agents strand0].
    apply list_fmap_ext. intros i a _. apply Hsame. }
  apply graph_run_on_chain.
  - rewrite Hagents. cbn [agents strand0]. subst n.
    pose proof (proj2 (create_agents_length workflow_type)) as Hlen. fold specs in Hlen.
    destruct specs; [simpl in Hlen; lia | done].
  - by rewrite Hsids.
  - rewrite Hsids. exact Hgraph.
Qed.

Lemma generated_graph_run_is_sequential_witness :
  let g := generate_system "hr" 10 10 example_system example_world in
  @execute_strand example_host [] (fst g) "hr_strand" (VStr "cv") "graph" (snd g)
  = erase without_final_output
      (@execute_strand example_host [] (fst g) "hr_strand" (VStr "cv") "sequential" (snd g)).
Proof.
  intros g.
  apply (@generated_graph_run_is_sequential example_host "hr" 10%nat 10%nat example_system
           example_world (snd g) [] (VStr "cv")).
  intros r. reflexivity.
Defined.


Lemma omap_fmap {A B C} (f : B → option C) (g : A → B) (l : list A) :
  omap f (g <$> l) = omap (λ x, f (g x)) l.
Proof. induction l as [| x l IH]; [done |]. cbn. by rewrite IH. Qed.

Lemma communications_cons a b rest :
  communications (a :: b :: rest) = (a, b) :: communications (b :: rest).
Proof.
  unfold communications. cbn [length Nat.sub]. rewrite Nat.sub_0_r.
  cbn [seq omap list_omap lookup list_lookup]. f_equal.
  rewrite <-fmap_S_seq. rewrite omap_fmap. reflexivity.
Qed.

(** X11: the links made by [generate_system] are the ones its response
    lists under ["communications"], for any list of ids, repeated ids
    included: the successors the graph gives an id are the ones it had,
    followed by the targets of the listed links that leave that id, in
    order. *)
Theorem links_match_communications (ids : list string) (strand : AgentStrand) (x : string) :
  default [] (communication_graph (link_agents ids strand) !! x)
  = default [] (communication_graph strand !! x)
    ++ (filter (λ link, link.1 = x) (communications ids)).*2.
Proof.
  revert strand. induction ids as [| a ids IH]; intros strand.
  - by rewrite app_nil_r.
  - destruct ids as [| b rest]; [by rewrite app_nil_r |].
    rewrite link_agents_cons, communications_cons, IH, add_communication_lookup.
    rewrite filter_cons. cbn [fst].
    destruct (decide (x = a)) as [-> | Hne].
    + rewrite decide_True by done. cbn [default]. unfold id. by rewrite <-app_assoc.
    + rewrite decide_False by done. done.
Qed.


(** ** Logs *)

Lemma insert_by_timestamp_perm x l : insert_by_timestamp x l ≡ₚ x :: l.
Proof.
  induction l as [| y l IH]; [done |]. simpl.
  destruct (Qle_bool _ _); [done |]. by rewrite IH, Permutation_swap.
Qed.

Lemma sorted_by_timestamp_perm l : sorted_by_timestamp l ≡ₚ l.
Proof.
  induction l as [| x l IH]; [done |]. simpl.
  by rewrite insert_by_timestamp_perm, IH.
Qed.

Lemma insert_by_timestamp_sorted x l :
  StronglySorted not_after l → StronglySorted not_after (insert_by_timestamp x l).
Proof.
  induction 1 as [| y l Hl IH Hy]; simpl.
  - repeat constructor.
  - destruct (Qle_bool (log_timestamp x) (log_timestamp y)) eqn:E.
    + apply Qle_bool_iff in E. constructor; [by constructor |].
      constructor; [done |]. eapply Forall_impl; [exact Hy |].
      intros z Hz. unfold not_after in *. by eapply Qle_trans.
    + constructor; [done |]. rewrite insert_by_timestamp_perm. constructor; [| done].
      unfold not_after. apply Qlt_le_weak, Qnot_le_lt. intros Hle.
      apply Qle_bool_iff in Hle. congruence.
Qed.

Lemma sorted_by_timestamp_sorted l : StronglySorted not_after (sorted_by_timestamp l).
Proof.
  induction l as [| x l IH]; simpl; [constructor | by apply insert_by_timestamp_sorted].
Qed.

Lemma sorted_by_timestamp_id l :
  StronglySorted not_after l → sorted_by_timestamp l = l.
Proof.
  induction 1 as [| x l Hl IH Hx]; [done |]. simpl. rewrite IH.
  destruct Hx as [| y l Hxy _]; [done |]. simpl.
  apply Qle_bool_iff in Hxy. by rewrite Hxy.
Qed.

Lemma foldl_extend {A B} (f : A → list B) (l : list A) (init : list B) :
  foldl (λ acc a, acc ++ f a) init l = init ++ concat (f <$> l).
Proof.
  revert init. induction l as [| a l IH]; intros init; simpl.
  - by rewrite app_nil_r.
  - by rewrite IH, app_assoc.
Qed.

Lemma get_all_logs_perm self w : get_all_logs self w ≡ₚ logs_of w (agents self).
Proof. unfold get_all_logs. by rewrite sorted_by_timestamp_perm, foldl_extend. Qed.

(** X12: [get_all_logs] and [get_system_logs] return the log entries of
    all the agents concerned, ordered by timestamp, none lost and none
    added: an agent listed twice, or in two strands, has its entries
    twice.  Where the logs put end to end are in order already, a strand's
    result is exactly that list. *)
Theorem logs_sorted_and_complete (values : list AgentStrand) (self : AgentStrand) (w : World) :
  StronglySorted not_after (get_all_logs self w)
  ∧ get_all_logs self w ≡ₚ logs_of w (agents self)
  ∧ (StronglySorted not_after (logs_of w (agents self)) →
     get_all_logs self w = logs_of w (agents self))
  ∧ StronglySorted not_after (get_system_logs values w)
  ∧ get_system_logs values w ≡ₚ concat ((λ strand, logs_of w (agents strand)) <$> values).
Proof.
  split_and!.
  - apply sorted_by_timestamp_sorted.
  - apply get_all_logs_perm.
  - intros Hsorted. unfold get_all_logs. rewrite foldl_extend. by apply sorted_by_timestamp_id.
  - apply sorted_by_timestamp_sorted.
  - unfold get_system_logs. rewrite sorted_by_timestamp_perm, foldl_extend. simpl.
    induction values as [| strand values IH]; [done |]. simpl.
    by rewrite IH, get_all_logs_perm.
Qed.


Lemma slice_from_drop {A} (start : Z) (l : list A) :
  ∃ k, slice_from start l = drop k l
       ∧ k = (if (start <? 0)%Z
              then length l - Z.to_nat (- start)
              else Nat.min (Z.to_nat start) (length l))%nat.
Proof.
  unfold slice_from. eexists. split; [reflexivity |].
  destruct (start <? 0)%Z eqn:E; [apply Z.ltb_lt in E | apply Z.ltb_ge in E]; lia.
Qed.

(** X13: [get_logs] answers a suffix of the system logs, so the latest
    entries: nothing it leaves out is later than anything it returns, and
    ["total_logs"] counts the entries returned, not the entries there are.
    A positive limit returns the last [limit] entries, or all if there are
    fewer; no limit, and the limit 0, return everything; a negative limit
    leaves out that many of the earliest entries. *)
Theorem get_logs_latest (limit : option Z) (values : list AgentStrand) (w : World) :
  let system_logs := get_system_logs values w in
  let total_logs := fst (get_logs limit system_logs) in
  let logs := snd (get_logs limit system_logs) in
  total_logs = length logs
  ∧ (∃ older, system_logs = older ++ logs
              ∧ ∀ x y, x ∈ older → y ∈ logs → not_after x y)
  ∧ length logs
    = match limit with
      | None => length system_logs
      | Some n =>
          if (n =? 0)%Z then length system_logs
          else if (0 <? n)%Z then Nat.min (Z.to_nat n) (length system_logs)
          else (length system_logs - Z.to_nat (- n))%nat
      end.
Proof.
  intros system_logs total_logs logs.
  assert (Hsorted : StronglySorted not_after system_logs)
    by apply sorted_by_timestamp_sorted.
  assert (Hdrop : ∃ k, logs = drop k system_logs
                       ∧ k = match limit with
                             | None => 0%nat
                             | Some n =>
                                 if (n =? 0)%Z then 0%nat
                                 else if (0 <? n)%Z
                                      then (length system_logs - Z.to_nat n)%nat
                                      else Nat.min (Z.to_nat (- n)) (length system_logs)
                             end).
  { subst logs. unfold get_logs. cbn [snd].
    destruct limit as [n |]; [| by exists 0%nat].
    destruct (n =? 0)%Z eqn:E0; [by exists 0%nat |]. apply Z.eqb_neq in E0.
    destruct (slice_from_drop (- n) system_logs) as (k & -> & Hk). exists k.
    split; [done |]. rewrite Hk.
    destruct (0 <? n)%Z eqn:E; [apply Z.ltb_lt in E | apply Z.ltb_ge in E].
    - rewrite (proj2 (Z.ltb_lt _ _)) by lia. by rewrite Z.opp_involutive.
    - by rewrite (proj2 (Z.ltb_ge _ _)) by lia. }
  destruct Hdrop as (k & Hlogs & Hk).
  split_and!.
  - done.
  - exists (take k system_logs). split; [by rewrite Hlogs, take_drop |].
    intros x y Hx Hy. rewrite <-(take_drop k system_logs) in Hsorted.
    eapply StronglySorted_app_1_elem_of; [exact Hsorted | done | by rewrite <-Hlogs].
  - rewrite Hlogs, length_drop, Hk. destruct limit as [n |]; [| lia].
    destruct (n =? 0)%Z; [lia |].
    destruct (0 <? n)%Z eqn:E; [apply Z.ltb_lt in E | apply Z.ltb_ge in E]; lia.
Qed.


(** ** Metrics of strands and systems *)

Lemma get_all_metrics_spec (l : list AgentRef) (w : World) :
  match mapM (λ agent, get_metrics (agent_at w agent)) l with
  | Returned reports =>
      Forall2 (λ agent r, get_metrics (agent_at w agent) = Returned r) l reports
  | Raised e =>
      ∃ before agent, before ++ [agent] `prefix_of` l
        ∧ Forall (λ a, ∃ r, get_metrics (agent_at w a) = Returned r) before
        ∧ get_metrics (agent_at w agent) = Raised e
  end.
Proof.
  induction l as [| a l IH]; [constructor |].
  cbn [mapM]. destruct (get_metrics (agent_at w a)) as [r | e] eqn:Hr; cbn.
  - destruct (mapM _ l) as [reports | e]; cbn.
    + by constructor.
    + destruct IH as (before & agent & Hpre & Hbefore & Hagent).
      exists (a :: before), agent. split_and!; [| | done].
      * by apply prefix_cons.
      * constructor; [by exists r | done].
  - exists [], a. split_and!; [| done | done]. by exists l.
Qed.

(** The loop of [get_system_metrics] over the strands. *)
Lemma system_metrics_loop (values : list AgentStrand) (w : World) init seen :
  Forall2 (λ agent report, get_metrics (agent_at w agent) = Returned report) seen init →
  match foldl (λ acc strand,
                 all_metrics ← acc;
                 more ← get_all_metrics strand w;
                 Returned (all_metrics ++ more)) (Returned init) values with
  | Returned all_metrics =>
      Forall2 (λ agent report, get_metrics (agent_at w agent) = Returned report)
        (seen ++ concat (agents <$> values)) all_metrics
  | Raised e =>
      ∃ before agent, before ++ [agent] `prefix_of` seen ++ concat (agents <$> values)
        ∧ Forall (λ a, ∃ r, get_metrics (agent_at w a) = Returned r) before
        ∧ get_metrics (agent_at w agent) = Raised e
  end.
Proof.
  revert init seen. induction values as [| strand values IH]; intros init seen Hinit.
  - cbn. by rewrite app_nil_r.
  - cbn [foldl fmap list_fmap concat]. cbn [mbind outcome_bind].
    pose proof (get_all_metrics_spec (agents strand) w) as Hstrand.
    unfold get_all_metrics at 2.
    destruct (mapM _ (agents strand)) as [more | e]; cbn [mbind outcome_bind].
    + rewrite app_assoc. apply IH. by apply Forall2_app.
    + destruct Hstrand as (before & agent & Hpre & Hbefore & Hagent).
      assert (Hraised : foldl (λ acc strand0,
                                 all_metrics ← acc;
                                 more ← get_all_metrics strand0 w;
                                 Returned (all_metrics ++ more)) (Raised e) values
                        = Raised e).
      { clear. induction values as [| s values IH]; [done |]. cbn. exact IH. }
      rewrite Hraised. exists (seen ++ before), agent. split_and!; [| | done].
      * rewrite <-app_assoc. apply prefix_app. etrans; [exact Hpre |].
        by apply prefix_app_r.
      * apply Forall_app. split; [| done].
        apply Forall_forall. intros a Ha.
        apply list_elem_of_lookup in Ha as [i Hi].
        destruct (Forall2_lookup_l _ _ _ _ _ Hinit Hi) as (r & _ & Hr). by exists r.
Qed.

(** X14: where [get_system_metrics] returns, ["agent_metrics"] holds one
    [get_metrics] report for each agent of each strand, in order (an agent
    of two strands is reported twice), and ["total_agents"] is the number
    of these reports.  It raises only what [get_metrics] raises on one of
    these agents, the first in that order on which it raises; where
    [get_metrics] returns on all of them it returns. *)
Theorem system_metrics_consistent (self : MultiAgentSystem) (values : list AgentStrand)
    (w : World) :
  match get_system_metrics self values w with
  | Returned r =>
      total_agents r = length (agent_metrics r)
      ∧ Forall2 (λ agent report, get_metrics (agent_at w agent) = Returned report)
          (concat (agents <$> values)) (agent_metrics r)
  | Raised e =>
      ∃ before agent, before ++ [agent] `prefix_of` concat (agents <$> values)
        ∧ Forall (λ a, ∃ r, get_metrics (agent_at w a) = Returned r) before
        ∧ get_metrics (agent_at w agent) = Raised e
  end.
Proof.
  unfold get_system_metrics.
  pose proof (system_metrics_loop values w [] [] ltac:(constructor)) as Hloop.
  cbn [app] in Hloop.
  destruct (foldl _ (Returned []) values) as [all_metrics | e]; cbn [mbind outcome_bind].
  - cbn [total_agents agent_metrics]. split; [| exact Hloop].
    apply Forall2_length in Hloop. rewrite <-Hloop.
    clear. induction values as [| strand values IH]; [done |].
    cbn. rewrite length_app. by rewrite IH.
  - exact Hloop.
Qed.

(** ** Request handlers *)



(** X16: the delete handler answers 404 for a name that is not registered
    and changes nothing; for a registered name it removes that strand and
    no other, after which the metrics handler answers 404 for the name and
    the orchestrator the dict [{"error": "Strand ... not found"}], in every
    mode and without touching the heap. *)
Theorem delete_handler_removes `{Host} (multi_agent_system : MultiAgentSystem)
    (strand_name : string) :
  let system := fst (api.delete_strand multi_agent_system strand_name) in
  let response := snd (api.delete_strand multi_agent_system strand_name) in
  match strands multi_agent_system !! strand_name with
  | None => system = multi_agent_system ∧ response = HTTPException 404 "Strand not found"
  | Some _ => response = Responded ("Strand " +:+ strand_name +:+ " deleted")
  end
  ∧ strands system !! strand_name = None
  ∧ (∀ other, other ≠ strand_name →
       strands system !! other = strands multi_agent_system !! other)
  ∧ (∀ w, api.get_strand_metrics system strand_name w
          = HTTPException 404 "Strand not found")
  ∧ (∀ schedule input_data mode w,
       execute_strand schedule system strand_name input_data mode w
       = Some (w, Returned (ErrorDict ("Strand " +:+ strand_name +:+ " not found")))).
Proof.
  intros system response. subst system response. unfold api.delete_strand.
  destruct (strands multi_agent_system !! strand_name) as [strand |] eqn:E; cbn [fst snd].
  - assert (Hgone : delete strand_name (strands multi_agent_system) !! strand_name = None)
      by apply lookup_delete_eq.
    split_and!; try done.
    + intros other Hother. cbn [strands]. by apply lookup_delete_ne.
    + intros w. unfold api.get_strand_metrics. cbn [strands]. by rewrite Hgone.
    + intros schedule input_data mode w. unfold execute_strand. cbn [strands].
      by rewrite Hgone.
  - split_and!; try done.
    + intros w. unfold api.get_strand_metrics. by rewrite E.
    + intros schedule input_data mode w. unfold execute_strand. by rewrite E.
Qed.

(** X17: after [add_strand], [execute_strand] under the name of the new
    strand runs that strand, whatever was registered under the name
    before; every other name is served as before.  Deleting the strand
    again gives back the registry there was, if the name was new. *)
Theorem add_strand_registers `{Host} (strand : AgentStrand)
    (multi_agent_system : MultiAgentSystem) (schedule : list nat) (input_data : Value)
    (w : World) :
  let system := add_strand strand multi_agent_system in
  execute_strand schedule system (strand_name strand) input_data "sequential" w
  = execute_sequential strand input_data w
  ∧ execute_strand schedule system (strand_name strand) input_data "parallel" w
    = execute_parallel schedule strand input_data w
  ∧ execute_strand schedule system (strand_name strand) input_data "graph" w
    = execute_graph strand input_data w
  ∧ (∀ other mode, other ≠ strand_name strand →
       execute_strand schedule system other input_data mode w
       = execute_strand schedule multi_agent_system other input_data mode w)
  ∧ (strands multi_agent_system !! strand_name strand = None →
     strands (fst (api.delete_strand system (strand_name strand)))
     = strands multi_agent_system).
Proof.
  intros system. subst system. unfold execute_strand, add_strand. cbn [strands].
  rewrite lookup_insert_eq. split_and!; try done.
  - intros other mode Hother. by rewrite lookup_insert_ne.
  - intros Hnew. unfold api.delete_strand. cbn [strands]. rewrite lookup_insert_eq.
    cbn [fst strands]. by rewrite delete_insert_id.
Qed.

Lemma add_strand_registers_witness :
  strands (fst (api.delete_strand (add_strand empty_strand example_system) "empty"))
  = strands example_system.
Proof.
  destruct (@add_strand_registers example_host empty_strand example_system [] VNone
              example_world) as (_ & _ & _ & _ & Hdelete).
  apply Hdelete. reflexivity.
Defined.


(** ** Agents a graph run does not reach *)

Section graph_frame.
Context `{Host} (self : AgentStrand) (I : World → Prop).
Hypothesis linked_keeps : ∀ from_agent successors next a x w,
  communication_graph self !! from_agent = Some successors → next ∈ successors →
  next_with_id w (agents self) next = Some a →
  I w → I (fst (run (process a x) w)).

Lemma for_successors_frame recur from_agent all_successors data successors st w w' o :
  communication_graph self !! from_agent = Some all_successors →
  successors ⊆ all_successors →
  (∀ id d st w w' o, I w → recur id d st w = Some (w', o) → I w') →
  I w → for_successors recur self data successors st w = Some (w', o) → I w'.
Proof.
  intros Hfrom Hsub Hrec. revert st w.
  induction successors as [| next rest IH]; intros st w Hw.
  - by intros [= <- <-].
  - assert (Hrest : rest ⊆ all_successors) by set_solver.
    rewrite for_successors_cons.
    destruct (decide (next ∈ processed st)); [by apply IH |].
    destruct (next_with_id w (agents self) next) as [a |] eqn:Ha; [| by apply IH].
    assert (Hnext : next ∈ all_successors) by set_solver.
    pose proof (linked_keeps from_agent all_successors next a data w Hfrom Hnext Ha Hw) as Hw1.
    destruct (run (process a data) w) as [w1 [result | e]]; cbn [fst] in Hw1.
    2: by intros [= <- <-].
    destruct (recur next result _ w1) as [[w2 [st2 | e]] |] eqn:E; [| | done].
    + apply IH; [done |]. exact (Hrec _ _ _ _ _ _ Hw1 E).
    + intros [= <- <-]. exact (Hrec _ _ _ _ _ _ Hw1 E).
Qed.

Lemma process_next_frame fuel id data st w w' o :
  I w → process_next fuel self id data st w = Some (w', o) → I w'.
Proof.
  revert id data st w w' o. induction fuel as [| fuel IH]; intros id data st w w' o Hw;
    [done |].
  cbn [process_next].
  destruct (communication_graph self !! id) as [successors |] eqn:Hid;
    [| by intros [= <- <-]].
  by apply (for_successors_frame _ id successors).
Qed.
End graph_frame.

(** X18: a graph run leaves alone every agent object that is not the
    entry [agents[0]] and whose id no entry of the communication graph
    lists as a successor: the agent is not processed, though it is in the
    strand, and its status, log and metrics are those from before the
    run.  With an empty graph only the entry agent is processed.  The
    strand has at most 100 agents, which keeps the nested calls of
    [process_next] far from the recursion limit of the interpreter. *)
Theorem graph_run_skips_unlinked `{Host} (self : AgentStrand) (initial_input : Value)
    (w w' : World) (o : Outcome StrandResult) (r : AgentRef) :
  (length (agents self) ≤ 100)%nat →
  head (agents self) ≠ Some r →
  (∀ from_agent successors, communication_graph self !! from_agent = Some successors →
     agent_id (agent_at w r) ∉ successors) →
  execute_graph self initial_input w = Some (w', o) →
  agent_at w' r = agent_at w r.
Proof.
  intros _ Hfirst Hunlinked. unfold execute_graph, execute_graph_fuel.
  destruct (agents self) as [| first_agent rest] eqn:Hl; [by intros [= <- <-] |].
  assert (Hne : r ≠ first_agent) by (intros ->; by apply Hfirst).
  unfold mbind, M_bind, get_world, await.
  pose proof (process_effect first_agent initial_input w) as [Hother _].
  specialize (Hother r Hne).
  destruct (run (process first_agent initial_input) w) as [w1 [result | e]]; cbn [fst] in Hother.
  2: by intros [= <- <-].
  assert (Hframe : ∀ w2 o2,
            process_next (length (first_agent :: rest)) self
              (agent_id (agent_at w1 first_agent)) result
              (mkWalk {[agent_id (agent_at w1 first_agent)]} [result]) w1 = Some (w2, o2) →
            agent_at w2 r = agent_at w r).
  { intros w2 o2. apply (process_next_frame self (λ w2, agent_at w2 r = agent_at w r));
      [| exact Hother].
    intros from_agent successors next a x w3 Hfrom Hnext Ha Hw3.
    apply next_with_id_Some in Ha as [_ Hid].
    assert (Hra : r ≠ a).
    { intros ->. rewrite Hw3 in Hid. subst next. by apply (Hunlinked from_agent successors). }
    pose proof (process_effect a x w3) as [Ho _]. by rewrite (Ho r Hra). }
  destruct (process_next _ self _ result _ w1) as [[w2 [st2 | e]] |]; [| | done].
  - intros [= <- <-]. by eapply Hframe.
  - intros [= <- <-]. by eapply Hframe.
Qed.

Lemma graph_run_skips_unlinked_witness :
  ∃ w' o,
    @execute_graph example_host
      (add_communication "A" "B" (mkAgentStrand "partial" [0; 1; 2]%nat 0%nat ∅))
      VNone example_world = Some (w', o)
    ∧ agent_at w' 2%nat = agent_at example_world 2%nat.
Proof.
  destruct (@execute_graph example_host
              (add_communication "A" "B" (mkAgentStrand "partial" [0; 1; 2]%nat 0%nat ∅))
              VNone example_world) as [[w' o] |] eqn:E.
  - exists w', o. split; [reflexivity |].
    apply (@graph_run_skips_unlinked example_host _ _ _ _ _ 2%nat) in E; [exact E | | | ].
    + simpl. lia.
    + discriminate.
    + intros from_agent successors Hfrom.
      rewrite add_communication_lookup in Hfrom. simpl in Hfrom.
      destruct (decide (from_agent = "A")); [| done].
      injection Hfrom as <-. set_solver.
  - vm_compute in E. discriminate E.
Defined.


(* ===================================================================== *)
(** * The specialized agents at work *)
(* ===================================================================== *)

Lemma run_zoom_lens {S V A} (view : S → V) (update : V → S → S) (c : Coro V A) s :
  (∀ v s, view (update v s) = v) →
  snd (run (zoom view update c) s) = snd (run c (view s))
  ∧ view (fst (run (zoom view update c) s)) = fst (run c (view s)).
Proof.
  intros Hlens. revert s.
  induction c as [a | e | k IH | v k IH | k IH]; intros s; simpl; auto.
  rewrite <-(Hlens v s) at 2 4. apply IH.
Qed.

Lemma logic_view_update self v w : logic_view self (logic_update self v w) = v.
Proof.
  destruct v as [m l c]. unfold logic_view, logic_update, set_clock, set_memory, set_agent.
  cbn [agent_at memory_at w_clock lv_memory lv_log lv_clock].
  rewrite !fn_lookup_insert. cbn [memory execution_log set_execution_log].
  by rewrite ?fn_lookup_insert.
Qed.

(** What [process] returns or raises is what the logic returns or raises,
    run on the memory and the log of the agent and the clock after the
    reading of the start time. *)
Lemma process_outcome `{Host} self input_data w :
  let a := agent_at w self in
  let v := mkLogicView (memory_at w (memory a)) (execution_log a)
             (mkClock (readings (w_clock w)) (S (cursor (w_clock w)))) in
  snd (run (process self input_data) w)
  = snd (run (_execute_logic (set_status PROCESSING a) input_data) v).
Proof.
  intros a v. rewrite run_process.
  set (w0 := after (process_entry self) w).
  assert (Hlogic : snd (run (execute_logic self input_data) w0)
                   = snd (run (_execute_logic (set_status PROCESSING a) input_data) v)).
  { unfold execute_logic. cbn [run].
    destruct (run_zoom_lens (logic_view self) (logic_update self)
                (_execute_logic (agent_at w0 self) input_data) w0
                (logic_view_update self)) as [-> _].
    subst w0. rewrite after_entry_self. f_equal. f_equal.
    unfold logic_view, after. simpl. by rewrite fn_lookup_insert. }
  destruct (run (execute_logic self input_data) w0) as [w1 [result | e]]; cbn [snd] in Hlogic.
  - by rewrite <-Hlogic.
  - rewrite <-Hlogic. by destruct (is_Exception e).
Qed.

Lemma process_keeps_classes `{Host} self input_data w b :
  class_name (agent_at (fst (run (process self input_data) w)) b) = class_name (agent_at w b)
  ∧ agent_name (agent_at (fst (run (process self input_data) w)) b)
    = agent_name (agent_at w b).
Proof.
  pose proof (process_effect self input_data w) as (Hother & (Hc & _ & Hn & _) & _).
  destruct (decide (b = self)) as [-> | Hne]; [done |]. by rewrite Hother.
Qed.

Lemma specialized_logic `{Runtime} (self : Agent) (input_data : Value) :
  @_execute_logic specialized_host self input_data
  = if decide (class_name self = "IntakeAgent")
    then IntakeAgent_execute_logic self input_data
    else if decide (class_name self = "ClassificationAgent")
    then ClassificationAgent_execute_logic self input_data
    else if decide (class_name self = "ProcessingAgent")
    then ProcessingAgent_execute_logic self input_data
    else if decide (class_name self = "ResolutionAgent")
    then ResolutionAgent_execute_logic self input_data
    else if decide (class_name self = "QualityAgent")
    then QualityAgent_execute_logic self input_data
    else if decide (class_name self = "NotificationAgent")
    then NotificationAgent_execute_logic self input_data
    else if decide (class_name self = "AnalyticsAgent")
    then AnalyticsAgent_execute_logic self input_data
    else Agent_execute_logic self input_data.
Proof. reflexivity. Qed.

Lemma intake_empty_outcome `{Runtime} self input_data w :
  class_name (agent_at w self) = "IntakeAgent" → truthy input_data = false →
  snd (run (@process specialized_host self input_data) w)
  = Raised (ValueError "Empty input received").
Proof.
  intros Hcls Hempty. rewrite process_outcome, specialized_logic.
  cbn [class_name set_status]. rewrite Hcls. rewrite decide_True by done.
  unfold IntakeAgent_execute_logic. rewrite Hempty. reflexivity.
Qed.

(** X19: an [IntakeAgent] given an empty payload ([None], [{}], ...) makes
    [process] raise [ValueError("Empty input received")]: the agent logs
    the start of the intake and then the error, counts one failed
    execution, and writes nothing to any memory. *)
Theorem intake_rejects_empty_input `{Runtime} (self : AgentRef) (input_data : Value)
    (w : World) :
  class_name (agent_at w self) = "IntakeAgent" →
  truthy input_data = false →
  let a := agent_at w self in
  let c := w_clock w in
  let w' := fst (run (@process specialized_host self input_data) w) in
  snd (run (@process specialized_host self input_data) w)
  = Raised (ValueError "Empty input received")
  ∧ execution_log (agent_at w' self)
    = execution_log a
      ++ [mkLogEntry (readings c (1 + cursor c)) (agent_name a) "info"
            "Starting intake process";
          mkLogEntry (readings c (2 + cursor c)) (agent_name a) "error"
            "Error: Empty input received"]
  ∧ (∀ m, memory_at w' m = memory_at w m)
  ∧ metrics (agent_at w' self) = incr_total (incr_failed (metrics a))
  ∧ status (agent_at w' self) = IDLE.
Proof.
  intros Hcls Hempty a c w'. split; [by apply intake_empty_outcome |].
  subst w'. rewrite run_process. unfold execute_logic. cbn [run].
  rewrite specialized_logic, after_entry_self. cbn [class_name set_status].
  rewrite Hcls, decide_True by done.
  unfold IntakeAgent_execute_logic. rewrite Hempty.
  unfold after. simpl. rewrite !fn_lookup_insert. simpl.
  split_and!; try done.
  - by rewrite <-app_assoc.
  - intros m. destruct (decide (m = memory (agent_at w self))) as [-> | Hne].
    + by rewrite fn_lookup_insert.
    + by rewrite fn_lookup_insert_ne.
Qed.

Lemma intake_rejects_empty_input_witness :
  snd (run (@process (@specialized_host example_runtime) 10%nat (VDict [])) (snd support))
  = Raised (ValueError "Empty input received").
Proof.
  apply (@intake_rejects_empty_input example_runtime 10%nat (VDict []) (snd support)).
  - reflexivity.
  - reflexivity.
Defined.

Lemma first_agent_is_intake (workflow_type : string) :
  workflow_type ≠ "content" →
  ∃ spec rest, create_agents_for_workflow workflow_type = spec :: rest
               ∧ spec_class spec = "IntakeAgent".
Proof.
  intros Hne. unfold create_agents_for_workflow.
  repeat case_decide; try done; by eexists _, _.
Qed.

(** X20: in a generated system of any workflow type but ["content"], whose
    first agent is an [IntakeAgent], the execute handler answers an empty
    payload, in sequential and in graph mode, with the [HTTPException] of
    status 500 and detail ["Empty input received"]; the first agent has
    run and failed, and no other agent has been touched. *)
Theorem empty_request_is_refused `{Runtime} (workflow_type : string) (r : AgentRef)
    (m : MemRef) (multi_agent_system : MultiAgentSystem) (w : World) (schedule : list nat)
    (input_data : Value) (mode : string) :
  workflow_type ≠ "content" →
  truthy input_data = false →
  mode = "sequential" ∨ mode = "graph" →
  let system := fst (generate_system workflow_type r m multi_agent_system w) in
  let w' := snd (generate_system workflow_type r m multi_agent_system w) in
  ∃ w'',
    @api.execute_strand specialized_host schedule system (workflow_type +:+ "_strand")
      input_data mode w'
    = Some (w'', HTTPException 500 "Empty input received")
    ∧ failed_executions (metrics (agent_at w'' r)) = 1%Z
    ∧ ∀ b, b ≠ r → agent_at w'' b = agent_at w' b.
Proof.
  intros Hne Hempty Hmode system w'. subst system w'.
  rewrite generate_system_unfold. cbn [fst snd].
  set (specs := create_agents_for_workflow workflow_type).
  set (n := length specs).
  set (w2 := set_memory (m + n)%nat empty_memory (snd (construct_agents r m specs w))).
  set (w3 := snd (AgentStrand__init__ (workflow_type +:+ "_strand") (seq r n)
                    (Some (m + n)%nat) (m + n)%nat w2)).
  set (strand0 := mkAgentStrand (workflow_type +:+ "_strand") (seq r n) (m + n)%nat ∅).
  destruct (first_agent_is_intake workflow_type Hne) as (spec & rest & Hspecs & Hclass).
  fold specs in Hspecs.
  pose proof (generated_agents workflow_type r m w 0 spec) as Hfirst. cbn zeta in Hfirst.
  fold specs n w2 w3 in Hfirst. rewrite Nat.add_0_r in Hfirst.
  specialize (Hfirst ltac:(by rewrite Hspecs)).
  assert (Hcls : class_name (agent_at w3 r) = "IntakeAgent") by (by rewrite Hfirst).
  destruct (link_agents_fields (strand_ids w3 strand0) strand0) as (Hname & Hagents & _).
  set (self := link_agents (strand_ids w3 strand0) strand0) in *.
  assert (Hseq : agents self = r :: seq (S r) (length rest)).
  { rewrite Hagents. cbn [agents strand0]. subst n. by rewrite Hspecs. }
  pose proof (intake_empty_outcome r input_data w3 Hcls Hempty) as Hout.
  pose proof (@process_effect specialized_host r input_data w3)
    as (Hother & _ & _ & _ & Hcount).
  rewrite Hout in Hcount. cbn [is_Exception ValueError] in Hcount.
  destruct Hcount as [_ Hfailed]. rewrite Hfirst in Hfailed. cbn in Hfailed.
  exists (fst (run (@process specialized_host r input_data) w3)).
  split; [| split; [exact Hfailed | exact Hother]].
  unfold api.execute_strand, execute_strand, add_strand. cbn [strands].
  rewrite Hname. cbn [strand_name strand0]. rewrite lookup_insert_eq.
  destruct (run (@process specialized_host r input_data) w3) as [w4 o] eqn:Hrun.
  cbn [fst snd] in *. subst o.
  destruct Hmode as [-> | ->].
  - rewrite decide_True by done.
    unfold execute_sequential, mbind, M_bind. rewrite Hseq, sequential_loop_cons, Hrun.
    reflexivity.
  - rewrite decide_False by done. rewrite decide_False by done. rewrite decide_True by done.
    unfold execute_graph, execute_graph_fuel. rewrite Hseq.
    unfold mbind, M_bind, await. rewrite Hrun. reflexivity.
Qed.

Lemma empty_request_is_refused_witness :
  ∃ w'',
    @api.execute_strand (@specialized_host example_runtime) [] (fst support)
      "customer-support_strand" (VDict []) "graph" (snd support)
    = Some (w'', HTTPException 500 "Empty input received").
Proof.
  destruct (@empty_request_is_refused example_runtime "customer-support" 10%nat 10%nat
              (mkMultiAgentSystem "Global System" ∅ 0%nat) example_world [] (VDict [])
              "graph") as (w'' & Hrun & _).
  - discriminate.
  - reflexivity.
  - by right.
  - exists w''. exact Hrun.
Defined.

(** ** The customer-support pipeline *)

Lemma intake_outcome `{Runtime} self entries v :
  entries ≠ [] →
  ∃ request_id,
    snd (run (IntakeAgent_execute_logic self (VDict entries)) v)
    = Returned (VDict [("request_id", VStr request_id);
                       ("original_data", VDict entries);
                       ("validated", VBool true);
                       ("timestamp", default (VStr "") (dict_get "timestamp" entries));
                       ("priority", VStr (_assess_priority (VDict entries)))]).
Proof.
  intros Hne. unfold IntakeAgent_execute_logic.
  assert (Htruthy : truthy (VDict entries) = true) by (by destruct entries).
  rewrite Htruthy. by eexists.
Qed.

Lemma classification_outcome `{Runtime} self entries v :
  snd (run (ClassificationAgent_execute_logic self (VDict entries)) v)
  = Returned (VDict (dict_display entries
                       [("category", VStr (_classify (VDict entries)));
                        ("subcategory", VStr (_get_subcategory (_classify (VDict entries))));
                        ("routing", VStr (_determine_routing (_classify (VDict entries))))])).
Proof. reflexivity. Qed.

Lemma resolution_outcome `{Runtime} self entries v type solution :
  _generate_solution entries = Returned (type, solution) →
  ∃ confidence,
    snd (run (ResolutionAgent_execute_logic self (VDict entries)) v)
    = Returned (VDict (dict_display entries
                         [("solution", solution);
                          ("resolution_type", VStr "automated");
                          ("confidence", VFloat confidence)])).
Proof.
  intros Hsol. unfold ResolutionAgent_execute_logic. cbn [mbind coro_bind coro_bind_def].
  rewrite Hsol. by eexists.
Qed.

Lemma quality_outcome `{Runtime} self entries v quality_score :
  _assess_quality entries = Returned quality_score →
  snd (run (QualityAgent_execute_logic self (VDict entries)) v)
  = Returned (VDict (dict_display entries
                       [("quality_score", VFloat quality_score);
                        ("quality_checks",
                         VDict [("completeness", VBool (exceeds quality_score (literal (7 # 10))));
                                ("accuracy", VBool (exceeds quality_score (literal (8 # 10))));
                                ("consistency", VBool (exceeds quality_score (literal (75 # 100))))]);
                        ("approved", VBool (exceeds quality_score (literal (7 # 10))))])).
Proof.
  intros Hscore. unfold QualityAgent_execute_logic. cbn [mbind coro_bind coro_bind_def].
  rewrite Hscore. reflexivity.
Qed.

Lemma notification_outcome `{Runtime} self entries v :
  snd (run (NotificationAgent_execute_logic self (VDict entries)) v)
  = Returned (VDict (dict_display entries
                       [("notifications_sent", VList (_prepare_notifications entries));
                        ("delivery_status", VStr "sent");
                        ("recipients", VList [VStr "customer"; VStr "support_team"])])).
Proof. reflexivity. Qed.

Lemma specialized_stage `{Runtime} a x w :
  ∃ w1,
    run (@process specialized_host a x) w
    = (w1, snd (run (@_execute_logic specialized_host (set_status PROCESSING (agent_at w a)) x)
                  (mkLogicView (memory_at w (memory (agent_at w a)))
                     (execution_log (agent_at w a))
                     (mkClock (readings (w_clock w)) (S (cursor (w_clock w)))))))
    ∧ ∀ b, class_name (agent_at w1 b) = class_name (agent_at w b).
Proof.
  exists (fst (run (@process specialized_host a x) w)). split.
  - rewrite <-(@process_outcome specialized_host). by destruct (run _ w).
  - intros b. apply (@process_keeps_classes specialized_host).
Qed.

Lemma support_pipeline `{Runtime} a1 a2 a3 a4 a5 entries w :
  class_name (agent_at w a1) = "IntakeAgent" →
  class_name (agent_at w a2) = "ClassificationAgent" →
  class_name (agent_at w a3) = "ResolutionAgent" →
  class_name (agent_at w a4) = "QualityAgent" →
  class_name (agent_at w a5) = "NotificationAgent" →
  entries ≠ [] →
  ∃ w' r1 r2 r3 r4 out,
    @sequential_loop specialized_host [a1; a2; a3; a4; a5] (VDict entries) [] w
    = Some (w', Returned (VDict out, [r1; r2; r3; r4; VDict out]))
    ∧ dict_get "approved" out = Some (VBool false)
    ∧ dict_get "quality_checks" out
      = Some (VDict [("completeness", VBool false); ("accuracy", VBool false);
                     ("consistency", VBool false)])
    ∧ dict_get "notifications_sent" out
      = Some (VList (if bool_decide (_assess_priority (VDict entries) = "high")
                     then [sms] else []))
    ∧ dict_get "delivery_status" out = Some (VStr "sent")
    ∧ dict_get "original_data" out = Some (VDict entries).
Proof.
  intros H1 H2 H3 H4 H5 Hne.
  (* intake *)
  rewrite sequential_loop_cons.
  destruct (specialized_stage a1 (VDict entries) w) as (w1 & -> & Hc1).
  rewrite specialized_logic. cbn [class_name set_status]. rewrite H1, decide_True by done.
  destruct (intake_outcome (set_status PROCESSING (agent_at w a1)) entries
              (mkLogicView (memory_at w (memory (agent_at w a1)))
                 (execution_log (agent_at w a1))
                 (mkClock (readings (w_clock w)) (S (cursor (w_clock w))))) Hne)
    as (request_id & ->).
  set (priority := _assess_priority (VDict entries)). 
  set (timestamp := default (VStr "") (dict_get "timestamp" entries)).
  set (out1 := [("request_id", VStr request_id); ("original_data", VDict entries);
                ("validated", VBool true); ("timestamp", timestamp);
                ("priority", VStr priority)]).
  (* classification *)
  rewrite sequential_loop_cons.
  destruct (specialized_stage a2 (VDict out1) w1) as (w2 & -> & Hc2).
  rewrite specialized_logic. cbn [class_name set_status]. rewrite Hc1, H2.
  rewrite decide_False by done. rewrite decide_True by done.
  rewrite classification_outcome.
  set (category := _classify (VDict out1)).
  set (out2 := dict_display out1 _).
  (* resolution *)
  rewrite sequential_loop_cons.
  destruct (specialized_stage a3 (VDict out2) w2) as (w3 & -> & Hc3).
  rewrite specialized_logic. cbn [class_name set_status]. rewrite Hc2, Hc1, H3.
  do 3 (rewrite decide_False by done). rewrite decide_True by done.
  destruct (default general_solution (solutions !! category)) as [type solution] eqn:Hsol.
  destruct (resolution_outcome (set_status PROCESSING (agent_at w2 a3)) out2
              (mkLogicView (memory_at w2 (memory (agent_at w2 a3)))
                 (execution_log (agent_at w2 a3))
                 (mkClock (readings (w_clock w2)) (S (cursor (w_clock w2)))))
              type solution) as (confidence & ->).
  { unfold _generate_solution.
    assert (Hcat : dict_get "category" out2 = Some (VStr category)).
    { clearbody category priority timestamp. subst out2 out1. reflexivity. }
    rewrite Hcat. exact (f_equal Returned Hsol). }
  set (out3 := dict_display out2 _).
  (* quality *)
  rewrite sequential_loop_cons.
  destruct (specialized_stage a4 (VDict out3) w3) as (w4 & -> & Hc4).
  rewrite specialized_logic. cbn [class_name set_status]. rewrite Hc3, Hc2, Hc1, H4.
  do 4 (rewrite decide_False by done). rewrite decide_True by done.
  assert (Hscore : ∃ quality_score,
            _assess_quality out3 = Returned quality_score
            ∧ exceeds quality_score (literal (7 # 10)) = false
            ∧ exceeds quality_score (literal (8 # 10)) = false
            ∧ exceeds quality_score (literal (75 # 100)) = false).
  { assert (Hs : dict_get "solution" out3 = Some solution)
      by (clearbody category priority timestamp; subst out3 out2 out1; reflexivity).
    assert (Hc : dict_get "confidence" out3 = Some (VFloat confidence))
      by (clearbody category priority timestamp; subst out3 out2 out1; reflexivity).
    assert (Hp : dict_get "processed" out3 = None)
      by (clearbody category priority timestamp; subst out3 out2 out1; reflexivity).
    unfold _assess_quality. rewrite Hs, Hc, Hp. cbn [default greater_than truthy].
    unfold id. cbn [greater_than truthy].
    destruct (Qle_bool confidence (literal (8 # 10))); cbn [negb]; eexists;
      (split; [reflexivity |]); by vm_compute. }
  destruct Hscore as (quality_score & Hscore & Hq1 & Hq2 & Hq3).
  rewrite (quality_outcome _ _ _ quality_score Hscore), Hq1, Hq2, Hq3.
  set (out4 := dict_display out3 _).
  (* notification *)
  rewrite sequential_loop_cons.
  destruct (specialized_stage a5 (VDict out4) w4) as (w5 & -> & Hc5).
  rewrite specialized_logic. cbn [class_name set_status]. rewrite Hc4, Hc3, Hc2, Hc1, H5.
  do 5 (rewrite decide_False by done). rewrite decide_True by done.
  rewrite notification_outcome.
  set (out5 := dict_display out4 _).
  eexists w5, _, _, _, _, out5. split; [reflexivity |].
  clearbody priority timestamp category.
  subst out5 out4 out3 out2 out1.
  split_and!; try reflexivity.
Qed.

(** X21: in the customer-support system [generate_system] makes, a
    sequential run on a non-empty dict goes through all five agents and
    never ends in an approval.  The quality agent finds a solution and at
    best a confidence above 0.8, not the mark of a [ProcessingAgent], so
    that its score is at most 0.7 and none of its checks exceeds its
    bound: ["approved"] and the three ["quality_checks"] are [False],
    whatever the request says and whatever the random draws are.  The
    notification agent therefore never sends the e-mail "Request Processed
    Successfully"; it sends the SMS when the priority is high and nothing
    otherwise, and reports ["delivery_status": "sent"] in either case. *)
Theorem support_run_never_approves `{Runtime} (r : AgentRef) (m : MemRef)
    (multi_agent_system : MultiAgentSystem) (w : World) (schedule : list nat)
    (entries : list (string * Value)) :
  entries ≠ [] →
  let system := fst (generate_system "customer-support" r m multi_agent_system w) in
  let w' := snd (generate_system "customer-support" r m multi_agent_system w) in
  ∃ w'' results out,
    @execute_strand specialized_host schedule system "customer-support_strand"
      (VDict entries) "sequential" w'
    = Some (w'', Returned (SequentialDict "customer-support_strand" results (VDict out)))
    ∧ length results = 5%nat
    ∧ dict_get "approved" out = Some (VBool false)
    ∧ dict_get "quality_checks" out
      = Some (VDict [("completeness", VBool false); ("accuracy", VBool false);
                     ("consistency", VBool false)])
    ∧ dict_get "notifications_sent" out
      = Some (VList (if bool_decide (_assess_priority (VDict entries) = "high")
                     then [sms] else []))
    ∧ dict_get "delivery_status" out = Some (VStr "sent")
    ∧ dict_get "original_data" out = Some (VDict entries).
Proof.
  intros Hne system w'. subst system w'.
  rewrite generate_system_unfold. cbn [fst snd].
  set (specs := create_agents_for_workflow "customer-support").
  set (n := length specs).
  set (w2 := set_memory (m + n)%nat empty_memory (snd (construct_agents r m specs w))).
  set (w3 := snd (AgentStrand__init__ ("customer-support" +:+ "_strand") (seq r n)
                    (Some (m + n)%nat) (m + n)%nat w2)).
  set (strand0 := mkAgentStrand ("customer-support" +:+ "_strand") (seq r n) (m + n)%nat ∅).
  assert (Hclass : ∀ i spec, specs !! i = Some spec →
                     class_name (agent_at w3 (r + i)%nat) = spec_class spec).
  { intros i spec Hi.
    pose proof (generated_agents "customer-support" r m w i spec) as Hagent.
    cbn zeta in Hagent. fold specs n w2 w3 in Hagent. by rewrite (Hagent Hi). }
  destruct (link_agents_fields (strand_ids w3 strand0) strand0) as (Hname & Hagents & _).
  set (self := link_agents (strand_ids w3 strand0) strand0) in *.
  destruct (support_pipeline (r + 0) (r + 1) (r + 2) (r + 3) (r + 4) entries w3)%nat
    as (w'' & r1 & r2 & r3 & r4 & out & Hrun & Hprops);
    [by apply (Hclass 0%nat _ eq_refl) | by apply (Hclass 1%nat _ eq_refl)
    | by apply (Hclass 2%nat _ eq_refl) | by apply (Hclass 3%nat _ eq_refl)
    | by apply (Hclass 4%nat _ eq_refl) | done |].
  exists w'', [r1; r2; r3; r4; VDict out], out. split; [| by split].
  unfold execute_strand, add_strand. cbn [strands].
  rewrite Hname. cbn [strand_name strand0]. rewrite lookup_insert_eq.
  rewrite decide_True by done.
  unfold execute_sequential. rewrite Hname, Hagents. cbn [agents strand_name strand0].
  unfold mbind, M_bind.
  assert (Hseq : seq r n = ([r + 0; r + 1; r + 2; r + 3; r + 4]%nat : list AgentRef)).
  { change n with 5%nat. cbn [seq]. by rewrite !Nat.add_succ_r, !Nat.add_0_r. }
  rewrite Hseq.
  destruct (sequential_loop _ _ _ w3) as [[w5 [[c res] | e]] |]; [| discriminate Hrun..].
  injection Hrun as -> -> ->. reflexivity.
Qed.

Lemma support_run_never_approves_witness :
  ∃ w'' results out,
    @execute_strand (@specialized_host example_runtime) [] (fst support)
      "customer-support_strand" (VDict [("message", VStr "urgent: payment failed")])
      "sequential" (snd support)
    = Some (w'', Returned (SequentialDict "customer-support_strand" results (VDict out)))
    ∧ dict_get "approved" out = Some (VBool false).
Proof.
  destruct (@support_run_never_approves example_runtime 10%nat 10%nat
              (mkMultiAgentSystem "Global System" ∅ 0%nat) example_world []
              [("message", VStr "urgent: payment failed")])
    as (w'' & results & out & Hrun & _ & Happroved & _).
  - discriminate.
  - exists w'', results, out. split; [exact Hrun | exact Happroved].
Defined.
